(** * cadl-grpc: the lowering of a CADL program to Protobuf declarations

    A shallow embedding of [cadl-grpc/src/proto.ts] (the Protobuf AST),
    of the emitter ([createGrpcEmitter]/[doEmit] and [cadlToProto] with
    its local functions) and of the [$field] decorator of [grpc.ts],
    followed by the properties of the lowering engine.

    Conventions of the embedding.
    - Objects of the host compiler that the code compares by reference
      (models, model properties, interfaces, namespaces) carry a natural
      number standing for their identity.  Models may refer to each other
      cyclically, so they live in an arena ([models]) and a [Model] type
      is an index into it.
    - The closures of [declarationsFromNamespace] share three mutable
      objects: the set [visitedTypes], the array [declarations] and the
      diagnostics of the program.  They are threaded as a state record
      through a small state monad.
    - [addType] is recursive through [visitType], [toMessage], [toField]
      and [intrinsicToProto]; the recursion is tied through a fuel
      argument, and termination is a theorem. *)

From Stdlib Require Import String Ascii List ZArith QArith Lia.
From stdpp Require Import base gmap sets list strings.

Local Open Scope string_scope.
Local Open Scope list_scope.
Local Open Scope nat_scope.

(** ** The Protobuf AST ([proto.ts]) *)

(** [ProtoType = ProtoScalar | ProtoRef | ProtoMap], the tagged tuples
    [[$scalar, t]], [[$ref, t]] and [[$map, k, v]].  TypeScript's
    annotations are erased at run time, and the emitter builds two kinds of
    value that the declared types exclude; the embedding keeps them:
    - the key of a map is whatever [keyProto[1]] evaluates to, a string or
      [undefined] ([None]), and its value may be any [ProtoType];
    - [inherited member] is the value that indexing an object literal with
      the name of a member of [Object.prototype] yields (see
      [intrinsicToProto]); it is not a [ProtoType] of the source at all. *)
Inductive ProtoType : Type :=
| scalar (t : string)
| ref (t : string)
| map (k : option string) (v : ProtoType)
| inherited (member : string).

(** [type[1]] on a value typed [ProtoType]. *)
Definition index1 (type : ProtoType) : option string :=
  match type with
  | scalar t => Some t
  | ref t => Some t
  | map k _ => k
  | inherited _ => None
  end.

(** [ScalarIntegralName = ScalarIntegerName | ScalarFixedName | "bool"]. *)
Definition ScalarIntegerName : list string :=
  ["int32"; "int64"; "uint32"; "uint64"; "sint32"; "sint64"].
Definition ScalarFixedName : list string :=
  ["fixed32"; "fixed64"; "sfixed32"; "sfixed64"].
Definition ScalarIntegralName : list string :=
  ScalarIntegerName ++ ScalarFixedName ++ ["bool"].
Definition ScalarName : list string :=
  ScalarIntegralName ++ ["double"; "float"; "bytes"; "string"].

(** The result of [matchType]: the handler's result, or the [Error] thrown
    by the [default] branch. *)
Inductive MatchResult (T : Type) : Type :=
| Matched (r : T)
| ThrownUnreachable.
Arguments Matched {T} r.
Arguments ThrownUnreachable {T}.

Record ProtoTypeMatchPattern (T : Type) : Type := {
  pat_scalar : string -> T;
  pat_ref : string -> T;
  pat_map : option string -> ProtoType -> T
}.
Arguments pat_scalar {T}.
Arguments pat_ref {T}.
Arguments pat_map {T}.

Definition matchType {T : Type} (type : ProtoType)
    (pat : ProtoTypeMatchPattern T) : MatchResult T :=
  match type with
  | ref r => Matched (pat_ref pat r)
  | scalar s => Matched (pat_scalar pat s)
  | map k v => Matched (pat_map pat k v)
  | inherited _ => ThrownUnreachable
  end.

(** A JavaScript [number], here the index of a field.  The code only tests
    it with [Number.isInteger] and compares it with integer constants, so a
    rational stands for a finite number. *)
Definition number : Type := Q.

Record DefaultFieldOptions : Type := {
  packed : bool;
  deprecated : bool
}.

(** [index] is declared [number], but [toField] stores the result of a map
    lookup there, which is [undefined] ([None]) for a property that was
    given no index. *)
Record ProtoFieldDeclaration : Type := {
  field_name : string;
  field_repeated : bool;
  field_options : option DefaultFieldOptions;
  field_type : ProtoType;
  field_index : option number
}.

Record ProtoOneOfDeclaration : Type := {
  oneof_name : string;
  oneof_first : ProtoFieldDeclaration;
  oneof_rest : list ProtoFieldDeclaration
}.

Inductive Reservation : Type :=
| ReservedName (n : string)
| ReservedNumber (n : number)
| ReservedRange (lo hi : number).

Inductive ProtoMessageDeclaration : Type :=
  Build_ProtoMessageDeclaration
    (name : string)
    (declarations : list ProtoMessageMember)
    (reservations : option (list Reservation))
with ProtoMessageMember : Type :=
| MemberField (f : ProtoFieldDeclaration)
| MemberMessage (m : ProtoMessageDeclaration)
| MemberOneOf (o : ProtoOneOfDeclaration).

Definition message_name (m : ProtoMessageDeclaration) : string :=
  match m with Build_ProtoMessageDeclaration n _ _ => n end.
Definition message_declarations (m : ProtoMessageDeclaration)
    : list ProtoMessageMember :=
  match m with Build_ProtoMessageDeclaration _ d _ => d end.

Record ProtoMethodDeclaration : Type := {
  method_name : string;
  method_input : ProtoType;
  method_returns : ProtoType
}.

Record ProtoServiceDeclaration : Type := {
  service_name : string;
  service_operations : list ProtoMethodDeclaration
}.

(** The root of a file holds [service] and [message] declarations only. *)
Inductive ProtoTopDeclaration : Type :=
| Service (s : ProtoServiceDeclaration)
| Message (m : ProtoMessageDeclaration).

Record DefaultFileOptions : Type := {
  java_package : option string;
  java_outer_classname : option string;
  optimize_for : option string;
  cc_enable_arenas : option bool
}.

Definition noFileOptions : DefaultFileOptions :=
  {| java_package := None; java_outer_classname := None;
     optimize_for := None; cc_enable_arenas := None |}.

Record ProtoFile : Type := {
  file_package : option string;
  file_options : DefaultFileOptions;
  file_declarations : list ProtoTopDeclaration
}.

(** ** The source graph (types of the host compiler, read only) *)

(** A [Type] of the compiler.  [Model ref] is a type whose [kind] is
    ["Model"], the object at index [ref] of the arena; [OtherKind kind] is
    a type of any other kind. *)
Inductive CadlType : Type :=
| Model (ref : nat)
| OtherKind (kind : string).

Definition kind (t : CadlType) : string :=
  match t with
  | Model _ => "Model"
  | OtherKind k => k
  end.

Record ModelTypeProperty : Type := {
  property_id : nat;
  property_name : string;
  property_type : CadlType
}.

(** [model_namespace] is [t.namespace?.name]; [model_properties] is
    [[...model.properties.values()]], in declaration order. *)
Record ModelType : Type := {
  model_name : string;
  model_namespace : option string;
  model_properties : list ModelTypeProperty;
  model_templateArguments : option (list CadlType)
}.

Record OperationType : Type := {
  operation_name : string;
  operation_parameters : nat;
  operation_returnType : CadlType
}.

Record InterfaceType : Type := {
  interface_id : nat;
  interface_name : string;
  interface_operations : list OperationType
}.

#[warnings="-register-all"]
Inductive NamespaceType : Type :=
  Build_NamespaceType
    (id : nat)
    (name : string)
    (interfaces : list InterfaceType)
    (namespaces : list NamespaceType).

Definition namespace_id (n : NamespaceType) : nat :=
  match n with Build_NamespaceType i _ _ _ => i end.
Definition namespace_name (n : NamespaceType) : string :=
  match n with Build_NamespaceType _ s _ _ => s end.
Definition namespace_interfaces (n : NamespaceType) : list InterfaceType :=
  match n with Build_NamespaceType _ _ i _ => i end.
Definition namespace_namespaces (n : NamespaceType) : list NamespaceType :=
  match n with Build_NamespaceType _ _ _ c => c end.

(** ** Diagnostics ([reportDiagnostic] of [lib.js]) *)

Inductive FormatArgument : Type :=
| FormatString (s : string)
| FormatNumber (n : number).   (* [String(n)] *)

Inductive DiagnosticTarget : Type :=
| TargetType (t : CadlType)
| TargetNode (id : nat).

Record Diagnostic : Type := {
  code : string;
  messageId : option string;
  format : list (string * FormatArgument);
  target : DiagnosticTarget
}.

(** ** The program *)

(** The state of the host [Program] that the emitter and the decorators
    read or write.
    - [packages] is [program.stateMap(packageKey)], a [Map] iterated in
      insertion order, keyed by the namespace object;
    - [services] is [program.stateSet(serviceKey)] and [fieldIndices] is
      [program.stateMap(fieldIndexKey)], keyed by identity;
    - [isIntrinsic] and [getIntrinsicModelName] are the host's functions
      of these names, and [isError] tells whether a diagnostic counts for
      [program.hasError()]: they are parameters of the development. *)
Record Program : Type := {
  models : list ModelType;
  packages : list (NamespaceType * string);
  services : gset nat;
  fieldIndices : gmap nat number;
  isIntrinsic : CadlType -> bool;
  getIntrinsicModelName : CadlType -> string;
  diagnostics : list Diagnostic;
  isError : Diagnostic -> bool;
  noEmit : bool
}.

(** The model without name, namespace, properties or template arguments.
    A reference of the source always points at a live object; an index
    outside the arena stands for no object of the source and reads as this
    model, so that dereferencing is total. *)
Definition emptyModel : ModelType :=
  {| model_name := ""; model_namespace := None;
     model_properties := []; model_templateArguments := None |}.

Definition deref (program : Program) (ref : nat) : ModelType :=
  nth ref (models program) emptyModel.

(** ** The state shared by the closures of [declarationsFromNamespace] *)

Record Lowering : Type := {
  visitedTypes : gset nat;
  declarations : list ProtoTopDeclaration;
  reported : list Diagnostic
}.

(** A computation over the shared state; [None] is fuel exhaustion, the
    only way a computation of the embedding fails to return. *)
Definition M (A : Type) : Type := Lowering -> option (A * Lowering).

Definition ret {A : Type} (a : A) : M A := fun st => Some (a, st).

Definition bind {A B : Type} (c : M A) (k : A -> M B) : M B :=
  fun st =>
    match c st with
    | Some (a, st') => k a st'
    | None => None
    end.

Definition outOfFuel {A : Type} : M A := fun _ => None.

Notation "x <- c ;; k" := (bind c (fun x => k))
  (at level 100, c at next level, right associativity).
Notation "c ;;; k" := (bind c (fun _ => k))
  (at level 100, right associativity).

(** [[...xs].map(f)] for an effectful [f]: left to right. *)
Fixpoint mapM {A B : Type} (f : A -> M B) (xs : list A) : M (list B) :=
  match xs with
  | [] => ret []
  | x :: xs' => y <- f x ;; ys <- mapM f xs' ;; ret (y :: ys)
  end.

(** [reportDiagnostic(program, d)] *)
Definition reportDiagnostic (d : Diagnostic) : M unit :=
  fun st =>
    Some (tt, {| visitedTypes := visitedTypes st;
                 declarations := declarations st;
                 reported := reported st ++ [d] |}).

(** [visitedTypes.add(model)] *)
Definition markVisited (model : nat) : M unit :=
  fun st =>
    Some (tt, {| visitedTypes := {[model]} ∪ visitedTypes st;
                 declarations := declarations st;
                 reported := reported st |}).

(** [declarations.push(d)] *)
Definition push (d : ProtoTopDeclaration) : M unit :=
  fun st =>
    Some (tt, {| visitedTypes := visitedTypes st;
                 declarations := declarations st ++ [d];
                 reported := reported st |}).

(** ** [cadlToProto] and its local functions *)

Definition unreachable : string := "<unreachable>".

(** The object literal of [intrinsicToProto], as its own properties in
    order. *)
Definition protoTypeTable : list (string * ProtoType) :=
  [ ("bytes", scalar "bytes");
    ("boolean", scalar "bool");
    ("int32", scalar "int32");
    ("int64", scalar "int64");
    ("uint32", scalar "uint32");
    ("uint64", scalar "uint64");
    ("string", scalar "string");
    ("float32", scalar "float");
    ("float64", scalar "double") ].

(** The members every object literal inherits from [Object.prototype]. *)
Definition objectPrototype : list string :=
  [ "constructor"; "__proto__"; "hasOwnProperty"; "isPrototypeOf";
    "propertyIsEnumerable"; "toLocaleString"; "toString"; "valueOf";
    "__defineGetter__"; "__defineSetter__"; "__lookupGetter__";
    "__lookupSetter__" ].

Fixpoint ownProperty (table : list (string * ProtoType)) (name : string)
    : option ProtoType :=
  match table with
  | [] => None
  | (key, value) :: rest =>
      if String.eqb key name then Some value else ownProperty rest name
  end.

(** [{ bytes: ..., ... }[name]]: an own property of the literal, else a
    member found on the prototype chain, else [undefined]. *)
Definition getProperty (name : string) : option ProtoType :=
  match ownProperty protoTypeTable name with
  | Some value => Some value
  | None =>
      if existsb (String.eqb name) objectPrototype
      then Some (inherited name)
      else None
  end.

(** [t.kind === "Model" && t.name === "Map" && t.namespace?.name === "Cadl"] *)
Definition isCadlMap (program : Program) (t : CadlType) : bool :=
  match t with
  | Model m =>
      String.eqb (model_name (deref program m)) "Map"
      && match model_namespace (deref program m) with
         | Some ns => String.eqb ns "Cadl"
         | None => false
         end
  | OtherKind _ => false
  end.

(** [t.templateArguments ?? []]; an [OtherKind] type is never asked. *)
Definition templateArguments (program : Program) (t : CadlType)
    : list CadlType :=
  match t with
  | Model m =>
      match model_templateArguments (deref program m) with
      | Some args => args
      | None => []
      end
  | OtherKind _ => []
  end.

Section Mapper.
Variable program : Program.

(** The recursive occurrence of [addType], with less fuel. *)
Variable addType' : CadlType -> M ProtoType.

Definition toField (property : ModelTypeProperty) : M ProtoFieldDeclaration :=
  type <- addType' (property_type property) ;;
  ret {| field_name := property_name property;
         field_repeated := false;
         field_options := None;
         field_type := type;
         field_index := fieldIndices program !! property_id property |}.

Definition toMessage (model : nat) : M ProtoMessageDeclaration :=
  fields <- mapM toField (model_properties (deref program model)) ;;
  ret (Build_ProtoMessageDeclaration
         (model_name (deref program model))
         (List.map MemberField fields)
         None).

(** [visitedTypes.add(model)] comes before [toMessage(model)] is
    evaluated, and the [push] after it has returned. *)
Definition visitType (model : nat) : M unit :=
  fun st =>
    if decide (model ∈ visitedTypes st)
    then ret tt st
    else (markVisited model ;;;
          message <- toMessage model ;;
          push (Message message)) st.

Definition intrinsicToProto (name : string) (t : CadlType) : M ProtoType :=
  if isCadlMap program t then
    match templateArguments program t with
    | keyType :: valueType :: _ =>
        keyProto <- addType' keyType ;;
        value <- addType' valueType ;;
        ret (map (index1 keyProto) value)
    | _ => ret (ref unreachable)
    end
  else
    match getProperty name with
    | None =>
        reportDiagnostic
          {| code := "unsupported-field-type";
             messageId := Some "unknown-intrinsic";
             format := [("name", FormatString name)];
             target := TargetType t |} ;;;
        ret (ref unreachable)
    | Some protoType => ret protoType
    end.

Definition addType_body (t : CadlType) : M ProtoType :=
  if isIntrinsic program t
  then intrinsicToProto (getIntrinsicModelName program t) t
  else
    match t with
    | Model m =>
        visitType m ;;;
        ret (ref (model_name (deref program m)))
    | OtherKind k =>
        reportDiagnostic
          {| code := "unsupported-field-type";
             messageId := Some "unconvertible";
             format := [("type", FormatString k)];
             target := TargetType t |} ;;;
        ret (ref unreachable)
    end.
End Mapper.

Fixpoint addType (program : Program) (fuel : nat) (t : CadlType)
    : M ProtoType :=
  match fuel with
  | O => outOfFuel
  | S fuel' => addType_body program (addType program fuel') t
  end.

Section Collector.
Variable program : Program.
Variable fuel : nat.

Definition addReturnType (t : CadlType) : M ProtoType :=
  match t with
  | Model m =>
      visitType program (addType program fuel) m ;;;
      ret (ref (model_name (deref program m)))
  | OtherKind _ =>
      reportDiagnostic
        {| code := "unsupported-return-type";
           messageId := None;
           format := [];
           target := TargetType t |} ;;;
      ret (ref unreachable)
  end.

Definition addModelAsInput (model : nat) : M ProtoType :=
  let params := model_properties (deref program model) in
  if negb (length params =? 1) then
    reportDiagnostic
      {| code := "unsupported-input-type";
         messageId := Some "wrong-number";
         format := [];
         target := TargetType (Model model) |} ;;;
    ret (ref unreachable)
  else
    match params with
    | [] => ret (ref unreachable)   (* excluded by the test above *)
    | param :: _ =>
        match property_type param with
        | Model input =>
            visitType program (addType program fuel) input ;;;
            ret (ref (model_name (deref program input)))
        | OtherKind _ =>
            reportDiagnostic
              {| code := "unsupported-input-type";
                 messageId := Some "wrong-type";
                 format := [];
                 target := TargetType (property_type param) |} ;;;
            ret (ref unreachable)
        end
    end.

Definition toMethodFromOperation (operation : OperationType)
    : M ProtoMethodDeclaration :=
  input <- addModelAsInput (operation_parameters operation) ;;
  returns <- addReturnType (operation_returnType operation) ;;
  ret {| method_name := operation_name operation;
         method_input := input;
         method_returns := returns |}.

(** [packages.has(nested)] *)
Definition isPackage (nested : NamespaceType) : bool :=
  existsb (fun entry => namespace_id (fst entry) =? namespace_id nested)
          (packages program).

(** [serviceInterfaces.add(memberInterface)] on a [Set]: insertion
    order, one entry per object. *)
Definition setAdd (serviceInterfaces : list InterfaceType)
    (memberInterface : InterfaceType) : list InterfaceType :=
  if existsb (fun i => interface_id i =? interface_id memberInterface)
             serviceInterfaces
  then serviceInterfaces
  else serviceInterfaces ++ [memberInterface].

Definition addServices (memberInterfaces : list InterfaceType)
    (serviceInterfaces : list InterfaceType) : list InterfaceType :=
  fold_left
    (fun acc memberInterface =>
       if decide (interface_id memberInterface ∈ services program)
       then setAdd acc memberInterface
       else acc)
    memberInterfaces serviceInterfaces.

Fixpoint recursiveAddInterfaces (namespace : NamespaceType)
    (serviceInterfaces : list InterfaceType) : list InterfaceType :=
  match namespace with
  | Build_NamespaceType _ _ interfaces namespaces =>
      (fix nestedLoop (nesteds : list NamespaceType)
           (acc : list InterfaceType) : list InterfaceType :=
         match nesteds with
         | [] => acc
         | nested :: rest =>
             nestedLoop rest
               (if isPackage nested then acc
                else recursiveAddInterfaces nested acc)
         end)
        namespaces (addServices interfaces serviceInterfaces)
  end.

(** The loop over [serviceInterfaces]: the [operations] array is built,
    pushing the messages it needs, before the service is pushed. *)
Fixpoint reifyServices (serviceInterfaces : list InterfaceType) : M unit :=
  match serviceInterfaces with
  | [] => ret tt
  | iface :: rest =>
      operations <- mapM toMethodFromOperation (interface_operations iface) ;;
      push (Service {| service_name := interface_name iface;
                       service_operations := operations |}) ;;;
      reifyServices rest
  end.

(** One call has its own [declarations] and [visitedTypes]; the
    diagnostics belong to the program and are passed in and out. *)
Definition declarationsFromNamespace (namespace : NamespaceType)
    (diags : list Diagnostic)
    : option (list ProtoTopDeclaration * list Diagnostic) :=
  let serviceInterfaces := recursiveAddInterfaces namespace [] in
  match reifyServices serviceInterfaces
          {| visitedTypes := ∅; declarations := []; reported := diags |} with
  | Some (_, st) => Some (declarations st, reported st)
  | None => None
  end.

Fixpoint filesOfPackages (entries : list (NamespaceType * string))
    (diags : list Diagnostic)
    : option (list ProtoFile * list Diagnostic) :=
  match entries with
  | [] => Some ([], diags)
  | (namespace, packageName) :: rest =>
      match declarationsFromNamespace namespace diags with
      | None => None
      | Some (decls, diags') =>
          match filesOfPackages rest diags' with
          | None => None
          | Some (files, diags'') =>
              Some ({| file_package := Some packageName;
                       file_options := noFileOptions;
                       file_declarations := decls |} :: files, diags'')
          end
      end
  end.

(** [[...packages].map(...)]: a file per package.  The result is the
    files and the diagnostics of the program afterwards. *)
Definition cadlToProto : option (list ProtoFile * list Diagnostic) :=
  filesOfPackages (packages program) (diagnostics program).
End Collector.

(** ** The emitter ([createGrpcEmitter], [doEmit]) *)

(** [s.split(".")]: the pieces between the dots, at least one. *)
Fixpoint splitDots (s : string) : list string :=
  match s with
  | EmptyString => [""]
  | String c rest =>
      if Ascii.eqb c "."%char then "" :: splitDots rest
      else
        match splitDots rest with
        | piece :: pieces => String c piece :: pieces
        | [] => [String c ""]
        end
  end.

(** [file.package?.split(".") ?? ["main"]] *)
Definition packageSlug (file : ProtoFile) : list string :=
  match file_package file with
  | Some package => splitDots package
  | None => ["main"]
  end.

(** What [doEmit] asks of the host.  A path is the list of the segments
    given to [resolvePath]; the text written is [writeProtoFile(file)],
    kept here as the file it renders.  [resolvePath] is the host's and
    normalises what it is given, so two lists of segments may name one
    file: nothing below tells paths apart. *)
Inductive HostCall : Type :=
| mkdirp (path : list string)
| writeFile (path : list string) (file : ProtoFile).

(** [slug.slice(0, -1)] and [slug.at(-1)] *)
Definition sliceButLast (slug : list string) : list string :=
  removelast slug.
Definition atLast (slug : list string) : string :=
  List.last slug "undefined".

Definition emitFile (dir : string) (file : ProtoFile) : list HostCall :=
  let filePath := dir :: sliceButLast (packageSlug file) in
  [ mkdirp filePath;
    writeFile (filePath ++ [String.append (atLast (packageSlug file)) ".proto"])
              file ].

(** [GrpcEmitterOptions]; a [Partial] of it is an optional [outDir]. *)
Record GrpcEmitterOptions : Type := {
  outDir : string
}.

Definition DEFAULT_GRPC_EMITTER_OPTIONS : GrpcEmitterOptions :=
  {| outDir := "./cadl-output/" |}.

(** [program.hasError()], over the diagnostics reported so far. *)
Definition hasError (program : Program) (diags : list Diagnostic) : bool :=
  existsb (isError program) diags.

(** The worker that [createGrpcEmitter(program)] returns.  [None] is fuel
    exhaustion in [cadlToProto]; otherwise the result is what the worker
    asks of the host, in order. *)
Definition doEmit (program : Program) (fuel : nat)
    (emitterOptions : option string) : option (list HostCall) :=
  let options :=
    match emitterOptions with
    | Some dir => {| outDir := dir |}
    | None => DEFAULT_GRPC_EMITTER_OPTIONS
    end in
  match cadlToProto program fuel with
  | None => None
  | Some (files, diags) =>
      if negb (noEmit program) && negb (hasError program diags)
      then Some (flat_map (emitFile (outDir options)) files)
      else Some []
  end.


(** ** The [$field] decorator ([grpc.ts]) *)

Definition MAX_FIELD_INDEX : number := inject_Z (2 ^ 29 - 1).

Definition IMPLEMENTATION_RESERVED_RANGE : number * number :=
  (inject_Z 19000, inject_Z 19999).

(** [Number.isInteger] on a finite number. *)
Definition Number_isInteger (n : number) : bool :=
  (Qnum n mod Zpos (Qden n) =? 0)%Z.

(** [a <= b] and [a > b] on numbers *)
Definition number_le (a b : number) : bool := Qle_bool a b.
Definition number_gt (a b : number) : bool := negb (Qle_bool a b).

(** The syntax kinds of the host that [$field] tells apart. *)
Inductive SyntaxKind : Type :=
| ModelStatement
| OtherSyntaxKind (name : string).

(** The decorated node as [$field] reads it: its identity (the key of the
    state map), its kind, and [target.node.parent?.kind]. *)
Record DecoratorTarget : Type := {
  target_id : nat;
  target_kind : string;
  target_parent : option SyntaxKind
}.

(** A decorator returns, leaving the program in a new state, or throws;
    the program it throws from holds what was reported before the
    throw. *)
Inductive DecoratorResult : Type :=
| Returned (program : Program)
| ThrownInternalError (program : Program) (message : string).

Definition withDiagnostic (program : Program) (d : Diagnostic) : Program :=
  {| models := models program;
     packages := packages program;
     services := services program;
     fieldIndices := fieldIndices program;
     isIntrinsic := isIntrinsic program;
     getIntrinsicModelName := getIntrinsicModelName program;
     diagnostics := diagnostics program ++ [d];
     isError := isError program;
     noEmit := noEmit program |}.

Definition setFieldIndex (program : Program) (key : nat) (value : number)
    : Program :=
  {| models := models program;
     packages := packages program;
     services := services program;
     fieldIndices := <[key := value]> (fieldIndices program);
     isIntrinsic := isIntrinsic program;
     getIntrinsicModelName := getIntrinsicModelName program;
     diagnostics := diagnostics program;
     isError := isError program;
     noEmit := noEmit program |}.

Definition fieldIndexDiagnostic (messageId : string)
    (format : list (string * FormatArgument)) (target : DecoratorTarget)
    : Diagnostic :=
  {| code := "field-index";
     messageId := Some messageId;
     format := format;
     target := TargetNode (target_id target) |}.

Section Decorators.
(** The host's validators; a [false] makes the decorator return at
    once. *)
Variable validateDecoratorTarget :
  Program -> DecoratorTarget -> string -> string -> bool.
Variable validateDecoratorParamType :
  Program -> DecoratorTarget -> number -> string -> bool.

Definition field (program : Program) (target : DecoratorTarget)
    (fieldIndex : number) : DecoratorResult :=
  if negb (validateDecoratorTarget program target "@field" "ModelProperty")
     || negb (validateDecoratorParamType program target fieldIndex "Number")
  then Returned program
  else if negb (Number_isInteger fieldIndex) || number_le fieldIndex 0%Q
  then
    Returned
      (withDiagnostic program
         (fieldIndexDiagnostic "invalid"
            [("index", FormatNumber fieldIndex)] target))
  else if number_gt fieldIndex MAX_FIELD_INDEX
  then
    Returned
      (withDiagnostic program
         (fieldIndexDiagnostic "out-of-bounds"
            [("index", FormatNumber fieldIndex);
             ("max", FormatNumber MAX_FIELD_INDEX)] target))
  else
    let program' :=
      if number_le (fst IMPLEMENTATION_RESERVED_RANGE) fieldIndex
         && number_le fieldIndex (snd IMPLEMENTATION_RESERVED_RANGE)
      then
        withDiagnostic program
          (fieldIndexDiagnostic "reserved"
             [("index", FormatNumber fieldIndex)] target)
      else program in
    match target_parent target with
    | Some ModelStatement =>
        Returned (setFieldIndex program' (target_id target) fieldIndex)
    | _ => ThrownInternalError program' "model property parent is not a model"
    end.
End Decorators.

(** * Notions used in the properties *)

(** A map node: a type that [addType] hands to [intrinsicToProto] and
    that [intrinsicToProto] takes for an instance of [Cadl.Map]. *)
Definition isMapNode (program : Program) (t : CadlType) : bool :=
  isIntrinsic program t && isCadlMap program t.

(** The map nodes among the key and value arguments of map node [m]:
    the types on which [intrinsicToProto] calls [addType] again without
    a visit in between. *)
Definition nestedMaps (program : Program) (m : nat) : list nat :=
  if isMapNode program (Model m) then
    match templateArguments program (Model m) with
    | keyType :: valueType :: _ =>
        flat_map
          (fun t => match t with
                    | Model m' => if isMapNode program t then [m'] else []
                    | OtherKind _ => []
                    end)
          [keyType; valueType]
    | _ => []
    end
  else [].

(** [rk] ranks the nesting of map instances: an argument of a map that is
    a map itself has a smaller rank.  Template instances are built from
    finite type expressions, so a rank exists for every program of the
    host; a map instance nested in itself would make [intrinsicToProto]
    recurse with no visited-set in the way. *)
Definition ranked (program : Program) (rk : nat -> nat) : bool :=
  forallb
    (fun m => forallb (fun m' => rk m' <? rk m) (nestedMaps program m))
    (seq 0 (length (models program))).

Definition maxRank (program : Program) (rk : nat -> nat) : nat :=
  S (list_max (List.map rk (seq 0 (length (models program))))).

(** Fuel that suffices for every call of [addType] in a pass. *)
Definition enoughFuel (program : Program) (rk : nat -> nat) : nat :=
  S (length (models program) * S (maxRank program rk) + maxRank program rk).

(** The models of the arena that are not visited yet. *)
Definition unvisited (program : Program) (st : Lowering) : nat :=
  size ((set_seq 0 (length (models program)) : gset nat) ∖ visitedTypes st).

(** The returning calls that only add to the visited-set. *)
Definition returns {A : Type} (c : M A) (st : Lowering) : Prop :=
  exists a st', c st = Some (a, st') /\ visitedTypes st ⊆ visitedTypes st'.

(** The rank of a type in the nesting of maps, and the bound on the depth
    of the calls of [addType] that a state and a type allow. *)
Definition mapRank (program : Program) (rk : nat -> nat) (t : CadlType) : nat :=
  match t with
  | Model m => if isMapNode program t then S (rk m) else 0
  | OtherKind _ => 0
  end.

Definition measure (program : Program) (rk : nat -> nat) (st : Lowering)
    (t : CadlType) : nat :=
  unvisited program st * S (maxRank program rk) + mapRank program rk t.

Definition modelName (program : Program) (m : nat) : string :=
  model_name (deref program m).

Definition fileMessages (decls : list ProtoTopDeclaration)
    : list ProtoMessageDeclaration :=
  flat_map (fun d => match d with Message m => [m] | Service _ => [] end) decls.

Definition fileServices (decls : list ProtoTopDeclaration)
    : list ProtoServiceDeclaration :=
  flat_map (fun d => match d with Service s => [s] | Message _ => [] end) decls.

(** [extends program st st']: from [st] to [st'] the visited-set grew by
    the models of the duplicate-free list [L], one message was pushed for
    each of them, under its name, nothing else was pushed, and diagnostics
    were only added. *)
Definition extends (program : Program) (st st' : Lowering) : Prop :=
  exists (L : list nat) (msgs : list ProtoMessageDeclaration)
         (ds : list Diagnostic),
    declarations st' = declarations st ++ List.map Message msgs /\
    List.map message_name msgs = List.map (modelName program) L /\
    NoDup L /\
    (forall m, m ∈ L <-> m ∈ visitedTypes st' /\ m ∉ visitedTypes st) /\
    visitedTypes st ⊆ visitedTypes st' /\
    reported st' = reported st ++ ds.

(** A computation whose every run extends the file. *)
Definition extending (program : Program) {A : Type} (c : M A) : Prop :=
  forall st a st', c st = Some (a, st') -> extends program st st'.

(** The model an operation takes as input: the type of the only property
    of its parameter bag, when that is a model. *)
Definition inputModel (program : Program) (model : nat) : option nat :=
  match model_properties (deref program model) with
  | [param] =>
      match property_type param with
      | Model input => Some input
      | OtherKind _ => None
      end
  | _ => None
  end.

Definition returnModel (t : CadlType) : option nat :=
  match t with
  | Model m => Some m
  | OtherKind _ => None
  end.

(** An operation reaches [M] as its input or as its return type. *)
Definition usesModel (program : Program) (op : OperationType) (M : nat)
    : Prop :=
  inputModel program (operation_parameters op) = Some M \/
  returnModel (operation_returnType op) = Some M.

(** The reference to a model by its name, or the placeholder. *)
Definition refOf (program : Program) (model : option nat) : ProtoType :=
  match model with
  | Some m => ref (modelName program m)
  | None => ref unreachable
  end.

(** The declarations that [toMethodFromOperation] and the service loop
    return, as functions of the operation and the interface alone. *)
Definition methodOf (program : Program) (op : OperationType)
    : ProtoMethodDeclaration :=
  {| method_name := operation_name op;
     method_input := refOf program (inputModel program (operation_parameters op));
     method_returns := refOf program (returnModel (operation_returnType op)) |}.

Definition serviceOf (program : Program) (iface : InterfaceType)
    : ProtoServiceDeclaration :=
  {| service_name := interface_name iface;
     service_operations := List.map (methodOf program) (interface_operations iface) |}.

Definition wrongNumber (model : nat) : Diagnostic :=
  {| code := "unsupported-input-type";
     messageId := Some "wrong-number";
     format := [];
     target := TargetType (Model model) |}.

Definition parameterCount (program : Program) (op : OperationType) : nat :=
  length (model_properties (deref program (operation_parameters op))).

(** Between two calls of [visitType], the messages of the file are, by
    name, the models visited so far, each once. *)
Definition settled (program : Program) (st : Lowering) : Prop :=
  exists L : list nat,
    NoDup L /\
    (forall m, m ∈ L <-> m ∈ visitedTypes st) /\
    List.map message_name (fileMessages (declarations st)) =
    List.map (modelName program) L.

(** [r] names a message that stands before position [i]. *)
Definition declaredBefore (decls : list ProtoTopDeclaration) (i : nat)
    (r : ProtoType) : Prop :=
  exists j message,
    j < i /\ decls !! j = Some (Message message) /\
    r = ref (message_name message).

(** Every service stands after the messages its methods refer to. *)
Definition ordered (decls : list ProtoTopDeclaration) : Prop :=
  forall i s method r,
    decls !! i = Some (Service s) ->
    method ∈ service_operations s ->
    r = method_input method \/ r = method_returns method ->
    r <> ref unreachable ->
    declaredBefore decls i r.

(** What a state owes to the interfaces reified so far: the models their
    operations use are visited, and a parameter bag without exactly one
    property has its diagnostic. *)
Definition covers (program : Program) (ifaces : list InterfaceType)
    (st : Lowering) : Prop :=
  forall iface op,
    iface ∈ ifaces -> op ∈ interface_operations iface ->
    (forall M, usesModel program op M -> M ∈ visitedTypes st) /\
    (parameterCount program op <> 1 ->
     wrongNumber (operation_parameters op) ∈ reported st).

(** Later states keep what earlier ones visited and reported. *)
Definition later (st st' : Lowering) : Prop :=
  visitedTypes st ⊆ visitedTypes st' /\
  exists ds, reported st' = reported st ++ ds.

(** [m] has a field whose type is the model [m']. *)
Definition hasFieldOf (program : Program) (m m' : nat) : Prop :=
  exists property,
    In property (model_properties (deref program m)) /\
    property_type property = Model m'.

(** [m] reaches [m'] through the fields of models, in one step or more. *)
Inductive reachesByFields (program : Program) : nat -> nat -> Prop :=
| reaches_field m m' :
    hasFieldOf program m m' -> reachesByFields program m m'
| reaches_further m m1 m' :
    hasFieldOf program m m1 -> reachesByFields program m1 m' ->
    reachesByFields program m m'.

(** A model that contains a field whose type is itself, directly or
    transitively. *)
Definition inReferenceCycle (program : Program) (m : nat) : Prop :=
  reachesByFields program m m.

(** How a file of the pass comes from its package: its declarations are
    those of the package's namespace, computed from diagnostics [d] that
    extend the program's, and the diagnostics [d'] it ends with are kept
    by the pass. *)
Definition fileOf (program : Program) (fuel : nat)
    (first last : list Diagnostic)
    (entry : NamespaceType * string) (file : ProtoFile) : Prop :=
  file_package file = Some (snd entry) /\
  file_options file = noFileOptions /\
  exists d d',
    declarationsFromNamespace program fuel (fst entry) d
      = Some (file_declarations file, d') /\
    (exists ds, d = first ++ ds) /\ (exists ds, last = d' ++ ds).

(** A method refers to [r] as its input or as what it returns. *)
Definition refersTo (method : ProtoMethodDeclaration) (r : ProtoType) : Prop :=
  method_input method = r \/ method_returns method = r.

(** The messages of a file that bear a given name. *)
Definition messagesNamed (n : string) (decls : list ProtoTopDeclaration)
    : list ProtoMessageDeclaration :=
  List.filter (fun message => String.eqb (message_name message) n)
              (fileMessages decls).

(** Every interface below a namespace, package boundaries ignored. *)
Fixpoint allInterfaces (namespace : NamespaceType) : list InterfaceType :=
  match namespace with
  | Build_NamespaceType _ _ interfaces namespaces =>
      interfaces ++ flat_map allInterfaces namespaces
  end.

(** [scanned program ns iface]: [iface] is a member of [ns] or of a
    namespace reached from [ns] through nested namespaces none of which is
    a package. *)
Inductive scanned (program : Program)
    : NamespaceType -> InterfaceType -> Prop :=
| scanned_member ns iface :
    iface ∈ namespace_interfaces ns -> scanned program ns iface
| scanned_nested ns nested iface :
    nested ∈ namespace_namespaces ns ->
    isPackage program nested = false ->
    scanned program nested iface ->
    scanned program ns iface.

(** [descendant ns d]: [d] is nested in [ns], at any depth. *)
Inductive descendant : NamespaceType -> NamespaceType -> Prop :=
| descendant_child ns nested :
    nested ∈ namespace_namespaces ns -> descendant ns nested
| descendant_deeper ns nested d :
    nested ∈ namespace_namespaces ns -> descendant nested d ->
    descendant ns d.

(** Induction on the namespace tree. *)
Fixpoint NamespaceType_tree_ind (P : NamespaceType -> Prop)
    (step : forall id name interfaces namespaces,
        Forall P namespaces ->
        P (Build_NamespaceType id name interfaces namespaces))
    (namespace : NamespaceType) : P namespace :=
  match namespace with
  | Build_NamespaceType id name interfaces namespaces =>
      step id name interfaces namespaces
        ((fix all (l : list NamespaceType) : Forall P l :=
            match l with
            | [] => @List.Forall_nil _ P
            | n :: l' =>
                @List.Forall_cons _ P n l'
                  (NamespaceType_tree_ind P step n) (all l')
            end) namespaces)
  end.

(** The keys and values that [proto.ts] allows in a [ProtoMap]. *)
Definition allowedMapKey (k : option string) : bool :=
  match k with
  | Some k => existsb (String.eqb k) ("string" :: ScalarIntegralName)
  | None => false
  end.

Definition allowedMapValue (v : ProtoType) : bool :=
  match v with
  | scalar _ | ref _ => true
  | map _ _ | inherited _ => false
  end.

(** The state after [reportDiagnostic]. *)
Definition withReported (st : Lowering) (d : Diagnostic) : Lowering :=
  {| visitedTypes := visitedTypes st;
     declarations := declarations st;
     reported := reported st ++ [d] |}.

(** A call that gives up a node: the placeholder, and one diagnostic. *)
Definition substituted (d : Diagnostic) (st : Lowering)
    : option (ProtoType * Lowering) :=
  Some (ref unreachable, withReported st d).

Definition wrongType (t : CadlType) : Diagnostic :=
  {| code := "unsupported-input-type";
     messageId := Some "wrong-type";
     format := [];
     target := TargetType t |}.

Definition unsupportedReturnType (t : CadlType) : Diagnostic :=
  {| code := "unsupported-return-type";
     messageId := None;
     format := [];
     target := TargetType t |}.

Definition unconvertible (k : string) : Diagnostic :=
  {| code := "unsupported-field-type";
     messageId := Some "unconvertible";
     format := [("type", FormatString k)];
     target := TargetType (OtherKind k) |}.

Definition unknownIntrinsic (name : string) (t : CadlType) : Diagnostic :=
  {| code := "unsupported-field-type";
     messageId := Some "unknown-intrinsic";
     format := [("name", FormatString name)];
     target := TargetType t |}.

(** The field that [toField] makes of a property, given its index. *)
Definition fieldWith (property : ModelTypeProperty) (index : option number)
    (type : ProtoType) : ProtoFieldDeclaration :=
  {| field_name := property_name property;
     field_repeated := false;
     field_options := None;
     field_type := type;
     field_index := index |}.

(** What [$field] leaves behind: the diagnostics it added, the index map,
    and the index that [toField] then gives to the decorated property. *)
Definition fieldOutcome (result : DecoratorResult) (program : Program)
    (target : DecoratorTarget) (added : list Diagnostic)
    (indices : gmap nat number) : Prop :=
  exists program',
    result = Returned program' /\
    diagnostics program' = diagnostics program ++ added /\
    fieldIndices program' = indices /\
    forall rec property,
      property_id property = target_id target ->
      toField program' rec property =
      (type <- rec (property_type property) ;;
       ret (fieldWith property (indices !! target_id target) type)).

(** What [$field] leaves behind when it throws: the diagnostics it added
    before, and an index map in which nothing was recorded, so that
    [toField] gives the property the index it had. *)
Definition fieldThrows (result : DecoratorResult) (program : Program)
    (added : list Diagnostic) : Prop :=
  exists program',
    result = ThrownInternalError program'
               "model property parent is not a model" /\
    diagnostics program' = diagnostics program ++ added /\
    fieldIndices program' = fieldIndices program /\
    forall rec property,
      toField program' rec property = toField program rec property.

(** ** Example programs *)

(** A graph with a package [P] ("a.b") that nests a package [Q]
    ("a.b.q") and a plain namespace [N].  [Node] refers to itself and,
    through [Peer], back to itself; it has a field of the map type
    [Map<string, Node>].  Operation [second] takes two parameters. *)
Definition exProperty (id : nat) (name : string) (type : CadlType)
    : ModelTypeProperty :=
  {| property_id := id; property_name := name; property_type := type |}.

Definition exNode : ModelType :=
  {| model_name := "Node"; model_namespace := Some "P";
     model_properties :=
       [ exProperty 10 "next" (Model 0);
         exProperty 11 "peer" (Model 1);
         exProperty 12 "tags" (Model 5) ];
     model_templateArguments := None |}.

Definition exPeer : ModelType :=
  {| model_name := "Peer"; model_namespace := Some "P";
     model_properties :=
       [ exProperty 13 "back" (Model 0);
         exProperty 14 "name" (Model 2) ];
     model_templateArguments := None |}.

Definition exString : ModelType :=
  {| model_name := "string"; model_namespace := Some "Cadl";
     model_properties := []; model_templateArguments := None |}.

Definition exParameters (properties : list ModelTypeProperty) : ModelType :=
  {| model_name := ""; model_namespace := None;
     model_properties := properties; model_templateArguments := None |}.

Definition exMap (arguments : option (list CadlType)) : ModelType :=
  {| model_name := "Map"; model_namespace := Some "Cadl";
     model_properties := []; model_templateArguments := arguments |}.

Definition exFirst : OperationType :=
  {| operation_name := "first"; operation_parameters := 3;
     operation_returnType := Model 1 |}.
Definition exSecond : OperationType :=
  {| operation_name := "second"; operation_parameters := 4;
     operation_returnType := Model 0 |}.
Definition exThird : OperationType :=
  {| operation_name := "third"; operation_parameters := 3;
     operation_returnType := Model 0 |}.
Definition exPing : OperationType :=
  {| operation_name := "ping"; operation_parameters := 6;
     operation_returnType := Model 1 |}.

Definition exSvc : InterfaceType :=
  {| interface_id := 0; interface_name := "Svc";
     interface_operations := [exFirst; exSecond; exThird] |}.
Definition exInner : InterfaceType :=
  {| interface_id := 1; interface_name := "Inner";
     interface_operations := [exPing] |}.
Definition exSide : InterfaceType :=
  {| interface_id := 2; interface_name := "Side";
     interface_operations := [exPing] |}.

Definition exQ : NamespaceType := Build_NamespaceType 1 "Q" [exInner] [].
Definition exN : NamespaceType := Build_NamespaceType 2 "N" [exSide] [].
Definition exP : NamespaceType := Build_NamespaceType 0 "P" [exSvc] [exQ; exN].

Definition exModels : list ModelType :=
  [ exNode; exPeer; exString;
    exParameters [exProperty 15 "request" (Model 0)];
    exParameters [exProperty 16 "a" (Model 2); exProperty 17 "b" (Model 2)];
    exMap (Some [Model 2; Model 0]);
    exParameters [exProperty 18 "request" (Model 1)] ].

Definition exIsIntrinsic (t : CadlType) : bool :=
  match t with
  | Model 2 | Model 5 => true
  | _ => false
  end.

Definition exIntrinsicName (t : CadlType) : string :=
  match t with
  | Model 5 => "Map"
  | _ => "string"
  end.

Definition exProgram : Program :=
  {| models := exModels;
     packages := [(exP, "a.b"); (exQ, "a.b.q")];
     services := {[0; 1; 2]};
     fieldIndices := {[10 := 1%Q; 11 := 2%Q; 13 := 1%Q]};
     isIntrinsic := exIsIntrinsic;
     getIntrinsicModelName := exIntrinsicName;
     diagnostics := [];
     isError := fun _ => true;
     noEmit := false |}.

Definition exRank (m : nat) : nat := 0.

(** The same graph with no namespace declared a package. *)
Definition exNoPackages : Program :=
  {| models := exModels;
     packages := [];
     services := {[0; 1; 2]};
     fieldIndices := ∅;
     isIntrinsic := exIsIntrinsic;
     getIntrinsicModelName := exIntrinsicName;
     diagnostics := [];
     isError := fun _ => true;
     noEmit := false |}.

(** Models with map types the Protobuf AST rules out, and intrinsics
    outside the table:
    0 is [Map<float64, Map<string, string>>], 1 is [float64],
    2 is [Map<string, string>], 3 is [string], 4 is a [Map] with no
    template arguments, 5 is an intrinsic named ["constructor"], 6 an
    intrinsic named ["plainDate"]. *)
Definition exOddModels : list ModelType :=
  [ exMap (Some [Model 1; Model 2]);
    {| model_name := "float64"; model_namespace := Some "Cadl";
       model_properties := []; model_templateArguments := None |};
    exMap (Some [Model 3; Model 3]);
    exString;
    exMap None;
    {| model_name := "Odd"; model_namespace := Some "P";
       model_properties := []; model_templateArguments := None |};
    {| model_name := "plainDate"; model_namespace := Some "Cadl";
       model_properties := []; model_templateArguments := None |} ].

Definition exOddProgram : Program :=
  {| models := exOddModels;
     packages := [];
     services := ∅;
     fieldIndices := ∅;
     isIntrinsic := fun _ => true;
     getIntrinsicModelName :=
       fun t => match t with
                | Model 1 => "float64"
                | Model 3 => "string"
                | Model 5 => "constructor"
                | Model 6 => "plainDate"
                | _ => "Map"
                end;
     diagnostics := [];
     isError := fun _ => true;
     noEmit := false |}.

(** A map instance that is its own key and value: no program of the host
    has one, and no rank fits it. *)
Definition exSelfNested : Program :=
  {| models := [exMap (Some [Model 0; Model 0])];
     packages := [];
     services := ∅;
     fieldIndices := ∅;
     isIntrinsic := fun _ => true;
     getIntrinsicModelName := fun _ => "Map";
     diagnostics := [];
     isError := fun _ => true;
     noEmit := false |}.

Definition exStart : Lowering :=
  {| visitedTypes := ∅; declarations := []; reported := [] |}.

(** A property of a model statement, as [$field] gets it. *)
Definition exTarget : DecoratorTarget :=
  {| target_id := 12; target_kind := "ModelProperty";
     target_parent := Some ModelStatement |}.

(** A property of a model expression: of an inline model, or a parameter
    of an operation. *)
Definition exInline : DecoratorTarget :=
  {| target_id := 19; target_kind := "ModelProperty";
     target_parent := Some (OtherSyntaxKind "ModelExpression") |}.

Ltac in_list := apply list_elem_of_In; vm_compute; auto 10.

(** * The [$package] and [$service] decorators and [$onEmit] ([grpc.ts]) *)

(** [program.stateMap(packageKey).set(target, name)] on a [Map]: the
    entry of a key that is present gets the new value where it stands, a
    new key is appended. *)
Definition setPackage (entries : list (NamespaceType * string))
    (target : NamespaceType) (name : string)
    : list (NamespaceType * string) :=
  if existsb (fun entry => namespace_id (fst entry) =? namespace_id target)
             entries
  then
    List.map
      (fun entry =>
         if namespace_id (fst entry) =? namespace_id target
         then (fst entry, name)
         else entry)
      entries
  else entries ++ [(target, name)].

Definition withPackage (program : Program) (target : NamespaceType)
    (name : string) : Program :=
  {| models := models program;
     packages := setPackage (packages program) target name;
     services := services program;
     fieldIndices := fieldIndices program;
     isIntrinsic := isIntrinsic program;
     getIntrinsicModelName := getIntrinsicModelName program;
     diagnostics := diagnostics program;
     isError := isError program;
     noEmit := noEmit program |}.

(** [program.stateSet(serviceKey).add(target)] *)
Definition withService (program : Program) (target : InterfaceType)
    : Program :=
  {| models := models program;
     packages := packages program;
     services := {[interface_id target]} ∪ services program;
     fieldIndices := fieldIndices program;
     isIntrinsic := isIntrinsic program;
     getIntrinsicModelName := getIntrinsicModelName program;
     diagnostics := diagnostics program;
     isError := isError program;
     noEmit := noEmit program |}.

Section PackageDecorator.
(** The host's validators, as for [$field]; the decorated type is a
    namespace once they have accepted it. *)
Variable validateDecoratorTarget :
  Program -> NamespaceType -> string -> string -> bool.
Variable validateDecoratorParamType :
  Program -> NamespaceType -> string -> string -> bool.

Definition package (program : Program) (target : NamespaceType)
    (name : string) : Program :=
  if negb (validateDecoratorTarget program target "@package" "Namespace")
     || negb (validateDecoratorParamType program target name "String")
  then program
  else withPackage program target name.
End PackageDecorator.

Section ServiceDecorator.
Variable validateDecoratorTarget :
  Program -> InterfaceType -> string -> string -> bool.

(** The loop over [target.operations] has an empty body. *)
Definition service (program : Program) (target : InterfaceType) : Program :=
  if negb (validateDecoratorTarget program target "@service" "Interface")
  then program
  else withService program target.
End ServiceDecorator.


(** * Further notions used in the properties *)







(** A value that is a [ProtoType] of [proto.ts] all the way down, but for
    the kind of its keys and values: a scalar, a reference, or a map with a
    key and such a value. *)
Fixpoint plain (type : ProtoType) : bool :=
  match type with
  | scalar _ | ref _ => true
  | map k v =>
      match k with
      | Some _ => plain v
      | None => false
      end
  | inherited _ => false
  end.

(** No intrinsic of the program bears the name of a member of
    [Object.prototype]. *)
Definition intrinsicNamesOwn (program : Program) : Prop :=
  forall t,
    isIntrinsic program t = true ->
    existsb (String.eqb (getIntrinsicModelName program t)) objectPrototype
      = false.

(** The wire type of a type, as [addType] and [intrinsicToProto] decide it
    case by case, the shared state left out. *)
Inductive wireType (program : Program) : CadlType -> ProtoType -> Prop :=
| wire_map t keyType valueType rest keyProto value :
    isIntrinsic program t = true ->
    isCadlMap program t = true ->
    templateArguments program t = keyType :: valueType :: rest ->
    wireType program keyType keyProto ->
    wireType program valueType value ->
    wireType program t (map (index1 keyProto) value)
| wire_map_short t :
    isIntrinsic program t = true ->
    isCadlMap program t = true ->
    length (templateArguments program t) < 2 ->
    wireType program t (ref unreachable)
| wire_intrinsic t protoType :
    isIntrinsic program t = true ->
    isCadlMap program t = false ->
    getProperty (getIntrinsicModelName program t) = Some protoType ->
    wireType program t protoType
| wire_unknown t :
    isIntrinsic program t = true ->
    isCadlMap program t = false ->
    getProperty (getIntrinsicModelName program t) = None ->
    wireType program t (ref unreachable)
| wire_model m :
    isIntrinsic program (Model m) = false ->
    wireType program (Model m) (ref (modelName program m))
| wire_other k :
    isIntrinsic program (OtherKind k) = false ->
    wireType program (OtherKind k) (ref unreachable).

(** [touches program t m]: [addType(t)] calls [visitType(m)], at once or
    through the key and the value of map instances. *)
Inductive touches (program : Program) : CadlType -> nat -> Prop :=
| touches_model m :
    isIntrinsic program (Model m) = false ->
    touches program (Model m) m
| touches_argument t keyType valueType rest argument m :
    isMapNode program t = true ->
    templateArguments program t = keyType :: valueType :: rest ->
    argument = keyType \/ argument = valueType ->
    touches program argument m ->
    touches program t m.

(** [m] has a property whose type touches [m']. *)
Definition refersBy (program : Program) (m m' : nat) : Prop :=
  exists property,
    In property (model_properties (deref program m)) /\
    touches program (property_type property) m'.

(** The models that the file of a namespace needs: those that an
    operation of a collected service takes or returns, and those that
    these refer to, in any number of steps. *)
Definition needed (program : Program) (namespace : NamespaceType) (m : nat)
    : Prop :=
  exists iface op root,
    iface ∈ recursiveAddInterfaces program namespace [] /\
    op ∈ interface_operations iface /\
    usesModel program op root /\
    rtc (refersBy program) root m.

(** The field of a property: its name, the index recorded for it, and the
    wire type of its type. *)
Definition fieldOf (program : Program) (property : ModelTypeProperty)
    (f : ProtoFieldDeclaration) : Prop :=
  exists type,
    wireType program (property_type property) type /\
    f = fieldWith property (fieldIndices program !! property_id property) type.

(** A message that mirrors a model: the model's name, and the fields of
    its properties, in their order, nothing else. *)
Definition mirrors (program : Program) (m : nat)
    (message : ProtoMessageDeclaration) : Prop :=
  exists fields,
    message = Build_ProtoMessageDeclaration
                (modelName program m) (List.map MemberField fields) None /\
    Forall2 (fieldOf program) (model_properties (deref program m)) fields.

(** [owes program t d]: [addType(t)] reports [d], at once or through the
    key and the value of map instances. *)
Inductive owes (program : Program) : CadlType -> Diagnostic -> Prop :=
| owes_unknown t :
    isIntrinsic program t = true ->
    isCadlMap program t = false ->
    getProperty (getIntrinsicModelName program t) = None ->
    owes program t (unknownIntrinsic (getIntrinsicModelName program t) t)
| owes_unconvertible k :
    isIntrinsic program (OtherKind k) = false ->
    owes program (OtherKind k) (unconvertible k)
| owes_argument t keyType valueType rest argument d :
    isMapNode program t = true ->
    templateArguments program t = keyType :: valueType :: rest ->
    argument = keyType \/ argument = valueType ->
    owes program argument d ->
    owes program t d.

(** [m] has a property whose type owes [d]. *)
Definition owedBy (program : Program) (m : nat) (d : Diagnostic) : Prop :=
  exists property,
    In property (model_properties (deref program m)) /\
    owes program (property_type property) d.

(** [grows program S D st st']: from [st] to [st'] the visited-set grew
    by the models of the duplicate-free list [L], all in [S]; one message
    was pushed for each of them, in this order, and mirrors it; nothing
    else was pushed; whatever a model of [L] refers to is visited in
    [st'] and whatever it owes reported; and the diagnostics added are in
    [D] or owed by a model of [L]. *)
Definition grows (program : Program) (S : nat -> Prop)
    (D : Diagnostic -> Prop) (st st' : Lowering) : Prop :=
  exists (L : list nat) (msgs : list ProtoMessageDeclaration),
    declarations st' = declarations st ++ List.map Message msgs /\
    Forall2 (mirrors program) L msgs /\
    NoDup L /\
    (forall m, m ∈ L <-> m ∈ visitedTypes st' /\ m ∉ visitedTypes st) /\
    visitedTypes st ⊆ visitedTypes st' /\
    (exists ds,
        reported st' = reported st ++ ds /\
        forall d, d ∈ ds -> D d \/ exists m, m ∈ L /\ owedBy program m d) /\
    (forall m, m ∈ L ->
       S m /\
       (forall m', refersBy program m m' -> m' ∈ visitedTypes st') /\
       (forall d, owedBy program m d -> d ∈ reported st')).

(** What a call of [addType] for [t] that returns [r] leaves behind: [r]
    is the wire type of [t]; the file grew by models that [t] reaches;
    the models that [t] touches are visited and the diagnostics that it
    owes reported, no other. *)
Definition added (program : Program) (t : CadlType) (r : ProtoType)
    (st st' : Lowering) : Prop :=
  wireType program t r /\
  grows program
    (fun x => exists root, touches program t root /\
                           rtc (refersBy program) root x)
    (owes program t) st st' /\
  (forall m, touches program t m -> m ∈ visitedTypes st') /\
  (forall d, owes program t d -> d ∈ reported st').

(** The names that a wire type refers to. *)
Fixpoint refsIn (type : ProtoType) : list string :=
  match type with
  | ref n => [n]
  | map _ value => refsIn value
  | scalar _ | inherited _ => []
  end.

(** The fields of a message. *)
Definition messageFields (message : ProtoMessageDeclaration)
    : list ProtoFieldDeclaration :=
  flat_map (fun member => match member with MemberField f => [f] | _ => [] end)
           (message_declarations message).

(** The models that an operation takes or returns, and those that these
    refer to, in any number of steps. *)
Definition reachedFrom (program : Program) (op : OperationType) (m : nat)
    : Prop :=
  exists root, usesModel program op root /\ rtc (refersBy program) root m.

(** The diagnostics that [toMethodFromOperation] reports for an
    operation itself. *)
Definition operationOwes (program : Program) (op : OperationType)
    (d : Diagnostic) : Prop :=
  (parameterCount program op <> 1 /\
   d = wrongNumber (operation_parameters op)) \/
  (exists param k,
      model_properties (deref program (operation_parameters op)) = [param] /\
      property_type param = OtherKind k /\
      d = wrongType (OtherKind k)) \/
  (exists k,
      operation_returnType op = OtherKind k /\
      d = unsupportedReturnType (OtherKind k)).

(** The diagnostics that the file of a namespace owes: those of the
    operations of its collected services, and those of the models that it
    needs. *)
Definition fileOwes (program : Program) (namespace : NamespaceType)
    (d : Diagnostic) : Prop :=
  (exists iface op,
      iface ∈ recursiveAddInterfaces program namespace [] /\
      op ∈ interface_operations iface /\
      operationOwes program op d) \/
  (exists m, needed program namespace m /\ owedBy program m d).

(** Between two calls of [visitType]: the messages of the file mirror, one
    for one and in this order, the models visited so far, each of which is
    in [S], has whatever it refers to visited as well, and whatever it
    owes reported; the diagnostics reported since [diags] are in [D] or
    owed by a visited model. *)
Definition complete (program : Program) (S : nat -> Prop)
    (D : Diagnostic -> Prop) (diags : list Diagnostic) (st : Lowering)
    : Prop :=
  exists L : list nat,
    NoDup L /\
    (forall m, m ∈ L <-> m ∈ visitedTypes st) /\
    Forall2 (mirrors program) L (fileMessages (declarations st)) /\
    (exists ds,
        reported st = diags ++ ds /\
        forall d, d ∈ ds -> D d \/ exists m, m ∈ L /\ owedBy program m d) /\
    (forall m, m ∈ L ->
       S m /\
       (forall m', refersBy program m m' -> m' ∈ visitedTypes st) /\
       (forall d, owedBy program m d -> d ∈ reported st)).

(** Every index recorded for a property is a field number of Protobuf: a
    positive integer, at most [MAX_FIELD_INDEX]. *)
Definition validIndices (program : Program) : Prop :=
  forall key i,
    fieldIndices program !! key = Some i ->
    Number_isInteger i = true /\ (0 < i)%Q /\ (i <= MAX_FIELD_INDEX)%Q.



(** ** Further example programs *)

(** A Greeter service as the client and the server of the example
    directory use it: package [com.azure.greeter], operations [sayHello]
    (a request with a [name]) and [sayHelloFrom] (a request with a [name]
    and a [from]), each answered with a [message]. *)
Definition exGreeterModels : list ModelType :=
  [ {| model_name := "HelloRequest"; model_namespace := Some "greeter";
       model_properties := [exProperty 20 "name" (Model 2)];
       model_templateArguments := None |};
    {| model_name := "HelloReply"; model_namespace := Some "greeter";
       model_properties := [exProperty 21 "message" (Model 2)];
       model_templateArguments := None |};
    exString;
    exParameters [exProperty 24 "request" (Model 0)];
    {| model_name := "HelloFromRequest"; model_namespace := Some "greeter";
       model_properties :=
         [exProperty 22 "name" (Model 2); exProperty 23 "from" (Model 2)];
       model_templateArguments := None |};
    exParameters [exProperty 25 "request" (Model 4)] ].

Definition exGreeterInterface : InterfaceType :=
  {| interface_id := 0; interface_name := "Greeter";
     interface_operations :=
       [ {| operation_name := "sayHello"; operation_parameters := 3;
            operation_returnType := Model 1 |};
         {| operation_name := "sayHelloFrom"; operation_parameters := 5;
            operation_returnType := Model 1 |} ] |}.

Definition exGreeterNamespace : NamespaceType :=
  Build_NamespaceType 0 "greeter" [exGreeterInterface] [].

Definition exGreeter : Program :=
  {| models := exGreeterModels;
     packages := [(exGreeterNamespace, "com.azure.greeter")];
     services := {[0]};
     fieldIndices := {[20 := 1%Q; 21 := 1%Q; 22 := 1%Q; 23 := 2%Q]};
     isIntrinsic := fun t => match t with Model 2 => true | _ => false end;
     getIntrinsicModelName := fun _ => "string";
     diagnostics := [];
     isError := fun _ => true;
     noEmit := false |}.

(** The same graph before [@package] and before [@service]. *)
Definition exGreeterNoPackage : Program :=
  {| models := exGreeterModels;
     packages := [];
     services := {[0]};
     fieldIndices := fieldIndices exGreeter;
     isIntrinsic := isIntrinsic exGreeter;
     getIntrinsicModelName := getIntrinsicModelName exGreeter;
     diagnostics := [];
     isError := fun _ => true;
     noEmit := false |}.

Definition exGreeterNoService : Program :=
  {| models := exGreeterModels;
     packages := [(exGreeterNamespace, "com.azure.greeter")];
     services := ∅;
     fieldIndices := fieldIndices exGreeter;
     isIntrinsic := isIntrinsic exGreeter;
     getIntrinsicModelName := getIntrinsicModelName exGreeter;
     diagnostics := [];
     isError := fun _ => true;
     noEmit := false |}.

(** A state in which [Node] and [Peer] are visited already. *)
Definition exSeen : Lowering :=
  {| visitedTypes := {[0; 1]}; declarations := []; reported := [] |}.

(** * Properties *)

Local Set Warnings "-clear-no-such-hyp".

(** ** Running computations *)

Lemma bind_Some {A B : Type} (c : M A) (k : A -> M B) st b st2 :
  bind c k st = Some (b, st2) <->
  exists a st1, c st = Some (a, st1) /\ k a st1 = Some (b, st2).
Proof.
  unfold bind. split.
  - destruct (c st) as [[a st1]|] eqn:E; [|discriminate].
    intros H. exists a, st1. auto.
  - intros (a & st1 & -> & H). exact H.
Qed.

Lemma bind_run {A B : Type} (c : M A) (k : A -> M B) st a st1 :
  c st = Some (a, st1) -> bind c k st = k a st1.
Proof. unfold bind. intros ->. reflexivity. Qed.

(** [mapM] under an invariant of the state that each call preserves. *)
Lemma mapM_returns {A B : Type} (f : A -> M B) (I : Lowering -> Prop) xs :
  (forall x st, In x xs -> I st ->
     exists y st', f x st = Some (y, st') /\ I st') ->
  forall st, I st ->
    exists ys st', mapM f xs st = Some (ys, st') /\ I st'.
Proof.
  induction xs as [|x xs IH]; intros Hf st HI; simpl.
  - exists [], st. auto.
  - destruct (Hf x st (or_introl eq_refl) HI) as (y & st1 & E1 & HI1).
    destruct IH with (st := st1) as (ys & st2 & E2 & HI2); auto.
    { intros x' st' Hin. apply Hf. right. exact Hin. }
    exists (y :: ys), st2. split; [|exact HI2].
    rewrite (bind_run _ _ _ _ _ E1), (bind_run _ _ _ _ _ E2). reflexivity.
Qed.

Lemma visitType_visited program rec m st :
  m ∈ visitedTypes st -> visitType program rec m st = Some (tt, st).
Proof.
  intros H. unfold visitType. destruct (decide (m ∈ visitedTypes st)); [|tauto].
  reflexivity.
Qed.

Lemma visitType_fresh program rec m st :
  m ∉ visitedTypes st ->
  visitType program rec m st =
  (markVisited m ;;;
   message <- toMessage program rec m ;;
   push (Message message)) st.
Proof.
  intros H. unfold visitType. destruct (decide (m ∈ visitedTypes st)); [tauto|].
  reflexivity.
Qed.

(** ** Termination of [addType] *)

Lemma deref_outside program m :
  length (models program) <= m -> deref program m = emptyModel.
Proof. intros H. unfold deref. apply nth_overflow. exact H. Qed.

Lemma unvisited_mono program st st' :
  visitedTypes st ⊆ visitedTypes st' ->
  unvisited program st' <= unvisited program st.
Proof.
  intros H. unfold unvisited. apply subseteq_size. set_solver.
Qed.

Lemma unvisited_mark program m st st' :
  m < length (models program) -> m ∉ visitedTypes st ->
  {[m]} ∪ visitedTypes st ⊆ visitedTypes st' ->
  unvisited program st' < unvisited program st.
Proof.
  intros Hm Hnot H. unfold unvisited. apply subset_size.
  apply strict_spec_alt. split; [set_solver|].
  intros Heq. 
  assert (Hin : m ∈ (set_seq 0 (length (models program)) : gset nat) ∖ visitedTypes st).
  { apply elem_of_difference. split; [|exact Hnot].
    apply elem_of_set_seq. lia. }
  rewrite <- Heq in Hin. set_solver.
Qed.

Lemma unvisited_le program st : unvisited program st <= length (models program).
Proof.
  unfold unvisited.
  transitivity (size (set_seq 0 (length (models program)) : gset nat)).
  - apply subseteq_size. set_solver.
  - rewrite size_set_seq. lia.
Qed.

Lemma returns_bind {A B : Type} (c : M A) (k : A -> M B) st :
  returns c st ->
  (forall a st', c st = Some (a, st') ->
     visitedTypes st ⊆ visitedTypes st' -> returns (k a) st') ->
  returns (bind c k) st.
Proof.
  intros (a & st1 & E & Hsub) Hk.
  destruct (Hk a st1 E Hsub) as (b & st2 & E2 & Hsub2).
  exists b, st2. split; [|set_solver].
  rewrite (bind_run _ _ _ _ _ E). exact E2.
Qed.

Lemma returns_ext {A : Type} (c c' : M A) st :
  c st = c' st -> returns c' st -> returns c st.
Proof. unfold returns. intros ->. auto. Qed.

Lemma returns_ret {A : Type} (a : A) st : returns (ret a) st.
Proof. exists a, st. split; [reflexivity|set_solver]. Qed.

Lemma returns_report d st : returns (reportDiagnostic d) st.
Proof. eexists tt, _. split; [reflexivity|simpl; set_solver]. Qed.

Lemma returns_push d st : returns (push d) st.
Proof. eexists tt, _. split; [reflexivity|simpl; set_solver]. Qed.

Lemma returns_mapM {A B : Type} (f : A -> M B) xs st :
  (forall x st', In x xs -> visitedTypes st ⊆ visitedTypes st' ->
     returns (f x) st') ->
  returns (mapM f xs) st.
Proof.
  intros Hf.
  destruct (mapM_returns f (fun s => visitedTypes st ⊆ visitedTypes s) xs)
    with (st := st) as (ys & st' & E & H); [|set_solver|].
  - intros x s Hin Hs. destruct (Hf x s Hin Hs) as (y & s' & E & H).
    exists y, s'. split; [exact E|set_solver].
  - exists ys, st'. auto.
Qed.

Section Termination.
Variable program : Program.
Variable rk : nat -> nat.
Hypothesis Hranked : ranked program rk = true.

Local Abbreviation N := (length (models program)).
Local Abbreviation R := (maxRank program rk).

Lemma isMapNode_inside m : isMapNode program (Model m) = true -> m < N.
Proof.
  intros H. destruct (Nat.lt_ge_cases m N) as [|Hge]; [assumption|].
  unfold isMapNode, isCadlMap in H. rewrite (deref_outside program m Hge) in H.
  simpl in H. rewrite andb_false_r in H. discriminate.
Qed.

Lemma mapRank_le t : mapRank program rk t <= R.
Proof.
  unfold mapRank, maxRank. destruct t as [m|k]; [|lia].
  destruct (isMapNode program (Model m)) eqn:E; [|lia].
  apply isMapNode_inside in E.
  assert (H : In (rk m) (List.map rk (seq 0 N))).
  { apply in_map. apply in_seq. lia. }
  pose proof (proj1 (list_max_le (List.map rk (seq 0 N)) _) (Nat.le_refl _))
    as Hall.
  rewrite List.Forall_forall in Hall. apply Hall in H. lia.
Qed.

Lemma nested_rank m t :
  isMapNode program (Model m) = true ->
  (exists keyType valueType rest,
      templateArguments program (Model m) = keyType :: valueType :: rest /\
      (t = keyType \/ t = valueType)) ->
  mapRank program rk t < mapRank program rk (Model m).
Proof.
  intros Hm (k & v & rest & Hargs & Ht).
  unfold mapRank at 2. rewrite Hm.
  unfold mapRank. destruct t as [m'|]; [|lia].
  destruct (isMapNode program (Model m')) eqn:Em'; [|lia].
  assert (Hin : In m' (nestedMaps program m)).
  { unfold nestedMaps. rewrite Hm, Hargs. simpl.
    destruct Ht as [<-|<-].
    - rewrite Em'. simpl. auto.
    - apply in_or_app. right. rewrite Em'. simpl. auto. }
  unfold ranked in Hranked. rewrite forallb_forall in Hranked.
  specialize (Hranked m).
  rewrite forallb_forall in Hranked.
  assert (Hlt : (rk m' <? rk m) = true).
  { apply Hranked; [|exact Hin]. apply in_seq.
    apply isMapNode_inside in Hm. lia. }
  apply Nat.ltb_lt in Hlt. lia.
Qed.

Section Body.
Variable rec : CadlType -> M ProtoType.
Variable B : nat.
Hypothesis Hrec : forall t st, measure program rk st t < B -> returns (rec t) st.

Lemma visitType_returns m st :
  unvisited program st * S R <= B -> returns (visitType program rec m) st.
Proof.
  intros HB.
  destruct (decide (m ∈ visitedTypes st)) as [Hin|Hnot].
  { exists tt, st. split; [apply visitType_visited, Hin|set_solver]. }
  apply returns_ext with (1 := visitType_fresh program rec m st Hnot).
  apply returns_bind.
  { eexists tt, _. split; [reflexivity|simpl; set_solver]. }
  intros [] st1 E1 _. injection E1 as <-.
  apply returns_bind; [|intros; apply returns_push].
  unfold toMessage. apply returns_bind; [|intros; apply returns_ret].
  apply returns_mapM. intros property st2 Hin Hsub. simpl in Hsub.
  unfold toField. apply returns_bind; [|intros; apply returns_ret].
  apply Hrec.
  assert (Hm : m < N).
  { destruct (Nat.lt_ge_cases m N) as [|Hge]; [assumption|].
    rewrite (deref_outside program m Hge) in Hin. destruct Hin. }
  pose proof (unvisited_mark program m st st2 Hm Hnot Hsub) as Hlt.
  pose proof (mapRank_le (property_type property)) as Hle.
  unfold measure. nia.
Qed.

Lemma addType_body_returns t st :
  measure program rk st t <= B -> returns (addType_body program rec t) st.
Proof.
  intros HB. unfold addType_body.
  destruct (isIntrinsic program t) eqn:Ei.
  - unfold intrinsicToProto.
    destruct (isCadlMap program t) eqn:Em.
    + destruct (templateArguments program t) as [|keyType [|valueType rest]]
        eqn:Eargs; try apply returns_ret.
      assert (Hnode : isMapNode program t = true).
      { unfold isMapNode. rewrite Ei, Em. reflexivity. }
      destruct t as [m|k]; [|discriminate].
      apply returns_bind.
      { apply Hrec.
        assert (mapRank program rk keyType < mapRank program rk (Model m)).
        { apply nested_rank; [exact Hnode|]. eauto 6. }
        unfold measure in *. lia. }
      intros keyProto st1 _ Hsub.
      apply returns_bind; [|intros; apply returns_ret].
      apply Hrec.
      assert (mapRank program rk valueType < mapRank program rk (Model m)).
      { apply nested_rank; [exact Hnode|]. eauto 6. }
      pose proof (unvisited_mono program st st1 Hsub).
      unfold measure in *. nia.
    + destruct (getProperty _).
      * apply returns_ret.
      * apply returns_bind; [apply returns_report|].
        intros; apply returns_ret.
  - destruct t as [m|k].
    + apply returns_bind; [|intros; apply returns_ret].
      apply visitType_returns. unfold measure in HB. lia.
    + apply returns_bind; [apply returns_report|].
      intros; apply returns_ret.
Qed.
End Body.

Lemma addType_returns fuel :
  forall t st, measure program rk st t < fuel -> returns (addType program fuel t) st.
Proof.
  induction fuel as [|fuel IH]; intros t st H; [lia|].
  simpl. apply addType_body_returns with (B := fuel); [exact IH|lia].
Qed.

Lemma enoughFuel_measure fuel st t :
  enoughFuel program rk <= fuel -> measure program rk st t < fuel.
Proof.
  unfold enoughFuel, measure. intros H.
  pose proof (unvisited_le program st). pose proof (mapRank_le t). nia.
Qed.

Lemma enoughFuel_visit fuel st :
  enoughFuel program rk <= fuel -> unvisited program st * S R <= fuel.
Proof.
  unfold enoughFuel. intros H.
  pose proof (unvisited_le program st). nia.
Qed.
End Termination.

(** ** What a call adds to the file *)

Section Extends.
Variable program : Program.

Lemma extends_refl st : extends program st st.
Proof.
  exists [], [], []. simpl. rewrite !app_nil_r.
  repeat split; try constructor; try tauto; set_solver.
Qed.

Lemma extends_trans st1 st2 st3 :
  extends program st1 st2 -> extends program st2 st3 ->
  extends program st1 st3.
Proof.
  intros (L1 & msgs1 & ds1 & Hd1 & Hn1 & Hnd1 & HL1 & Hs1 & Hr1)
         (L2 & msgs2 & ds2 & Hd2 & Hn2 & Hnd2 & HL2 & Hs2 & Hr2).
  exists (L1 ++ L2), (msgs1 ++ msgs2), (ds1 ++ ds2).
  split; [rewrite Hd2, Hd1, List.map_app, app_assoc; reflexivity|].
  split; [rewrite !List.map_app, Hn1, Hn2; reflexivity|].
  split.
  { apply NoDup_app. repeat split; try assumption.
    intros m H1 H2. apply HL1 in H1. apply HL2 in H2. tauto. }
  split.
  { intros m. rewrite elem_of_app, HL1, HL2.
    destruct (decide (m ∈ visitedTypes st2)); set_solver. }
  split; [set_solver|].
  rewrite Hr2, Hr1, app_assoc. reflexivity.
Qed.

Lemma extends_report d st st' :
  reportDiagnostic d st = Some (tt, st') -> extends program st st'.
Proof.
  intros H. injection H as <-. exists [], [], [d]. simpl.
  rewrite app_nil_r.
  repeat split; try constructor; try tauto; set_solver.
Qed.

Lemma extends_reported d st st' :
  extends program st st' -> d ∈ reported st -> d ∈ reported st'.
Proof.
  intros (L & msgs & ds & _ & _ & _ & _ & _ & Hr) H.
  rewrite Hr. apply elem_of_app. auto.
Qed.

Lemma extends_visited m st st' :
  extends program st st' -> m ∈ visitedTypes st -> m ∈ visitedTypes st'.
Proof.
  intros (L & msgs & ds & _ & _ & _ & _ & Hs & _) H. set_solver.
Qed.

Lemma extending_ret {A : Type} (a : A) : extending program (ret a).
Proof. intros st a' st' H. injection H as _ <-. apply extends_refl. Qed.

Lemma extending_bind {A B : Type} (c : M A) (k : A -> M B) :
  extending program c -> (forall a, extending program (k a)) -> extending program (bind c k).
Proof.
  intros Hc Hk st b st' H. apply bind_Some in H as (a & st1 & E1 & E2).
  eapply extends_trans; [eapply Hc|eapply Hk]; eassumption.
Qed.

Lemma extending_report d : extending program (reportDiagnostic d).
Proof. intros st [] st' H. eapply extends_report; eassumption. Qed.

Lemma extending_mapM {A B : Type} (f : A -> M B) xs :
  (forall x, extending program (f x)) -> extending program (mapM f xs).
Proof.
  intros Hf. induction xs as [|x xs IH]; simpl.
  - apply extending_ret.
  - apply extending_bind; [apply Hf|]. intros y.
    apply extending_bind; [apply IH|]. intros ys. apply extending_ret.
Qed.

Section Body.
Variable rec : CadlType -> M ProtoType.
Hypothesis Hrec : forall t, extending program (rec t).

Lemma toMessage_extending m : extending program (toMessage program rec m).
Proof.
  unfold toMessage. apply extending_bind; [|intros; apply extending_ret].
  apply extending_mapM. intros property. unfold toField.
  apply extending_bind; [apply Hrec|intros; apply extending_ret].
Qed.

Lemma toMessage_name m st message st' :
  toMessage program rec m st = Some (message, st') ->
  message_name message = modelName program m.
Proof.
  unfold toMessage. intros H.
  apply bind_Some in H as (fields & st1 & _ & E).
  injection E as <- _. reflexivity.
Qed.

Lemma visitType_extending m : extending program (visitType program rec m).
Proof.
  intros st [] st' H.
  destruct (decide (m ∈ visitedTypes st)) as [Hin|Hnot].
  { rewrite visitType_visited in H by exact Hin. injection H as <-.
    apply extends_refl. }
  rewrite visitType_fresh in H by exact Hnot.
  apply bind_Some in H as ([] & st1 & E1 & H). injection E1 as <-.
  apply bind_Some in H as (message & st2 & E2 & E3). injection E3 as <-.
  pose proof (toMessage_name _ _ _ _ E2) as Hname.
  apply toMessage_extending in E2
    as (L & msgs & ds & Hd & Hn & Hnd & HL & Hs & Hr).
  simpl in *.
  exists (L ++ [m]), (msgs ++ [message]), ds. simpl.
  split; [rewrite Hd, List.map_app, app_assoc; reflexivity|].
  split; [rewrite !List.map_app, Hn; simpl; rewrite Hname; reflexivity|].
  split.
  { apply NoDup_app. repeat split; try assumption.
    - intros m' H1 H2. apply HL in H1.
      apply list_elem_of_singleton in H2 as ->. set_solver.
    - apply NoDup_singleton. }
  split.
  { intros m'. rewrite elem_of_app, HL, list_elem_of_singleton.
    destruct (decide (m' = m)) as [->|Hne]; set_solver. }
  split; [set_solver|exact Hr].
Qed.

Lemma visitType_marks m st st' :
  visitType program rec m st = Some (tt, st') -> m ∈ visitedTypes st'.
Proof.
  intros H.
  destruct (decide (m ∈ visitedTypes st)) as [Hin|Hnot].
  { rewrite visitType_visited in H by exact Hin. injection H as <-.
    exact Hin. }
  rewrite visitType_fresh in H by exact Hnot.
  apply bind_Some in H as ([] & st1 & E1 & H). injection E1 as <-.
  apply bind_Some in H as (message & st2 & E2 & E3). injection E3 as <-.
  apply toMessage_extending in E2. simpl.
  eapply extends_visited; [exact E2|]. simpl. set_solver.
Qed.

Lemma addType_body_extending t : extending program (addType_body program rec t).
Proof.
  unfold addType_body. destruct (isIntrinsic program t).
  - unfold intrinsicToProto. destruct (isCadlMap program t).
    + destruct (templateArguments program t) as [|keyType [|valueType ?]];
        try apply extending_ret.
      apply extending_bind; [apply Hrec|]. intros keyProto.
      apply extending_bind; [apply Hrec|]. intros; apply extending_ret.
    + destruct (getProperty _); [apply extending_ret|].
      apply extending_bind; [apply extending_report|].
      intros; apply extending_ret.
  - destruct t as [m|k].
    + apply extending_bind; [apply visitType_extending|].
      intros; apply extending_ret.
    + apply extending_bind; [apply extending_report|].
      intros; apply extending_ret.
Qed.
End Body.

Lemma addType_extending fuel : forall t, extending program (addType program fuel t).
Proof.
  induction fuel as [|fuel IH]; intros t.
  - intros st a st' H. discriminate.
  - simpl. apply addType_body_extending. exact IH.
Qed.
End Extends.

(** ** Methods and services *)

Section Methods.
Variable program : Program.
Variable fuel : nat.

Lemma visitType_run m st st' :
  visitType program (addType program fuel) m st = Some (tt, st') ->
  extends program st st' /\ m ∈ visitedTypes st'.
Proof.
  intros H. split.
  - eapply visitType_extending; [apply addType_extending|exact H].
  - eapply visitType_marks; [apply addType_extending|exact H].
Qed.

Lemma addReturnType_spec t st r st' :
  addReturnType program fuel t st = Some (r, st') ->
  r = refOf program (returnModel t) /\
  extends program st st' /\
  (forall M, returnModel t = Some M -> M ∈ visitedTypes st').
Proof.
  unfold addReturnType. destruct t as [m|k]; intros H.
  - apply bind_Some in H as ([] & st1 & E1 & E2). injection E2 as <- <-.
    apply visitType_run in E1 as [Hext Hin].
    repeat split; try assumption. intros M HM. injection HM as <-. exact Hin.
  - apply bind_Some in H as ([] & st1 & E1 & E2). injection E2 as <- <-.
    repeat split; [eapply extends_report; exact E1|discriminate].
Qed.

Lemma addModelAsInput_wrongNumber model st :
  length (model_properties (deref program model)) <> 1 ->
  addModelAsInput program fuel model st =
  Some (ref unreachable,
        {| visitedTypes := visitedTypes st;
           declarations := declarations st;
           reported := reported st ++ [wrongNumber model] |}).
Proof.
  intros H. unfold addModelAsInput.
  destruct (length (model_properties (deref program model)) =? 1) eqn:E.
  - apply Nat.eqb_eq in E. contradiction.
  - reflexivity.
Qed.

Lemma addModelAsInput_spec model st r st' :
  addModelAsInput program fuel model st = Some (r, st') ->
  r = refOf program (inputModel program model) /\
  extends program st st' /\
  (forall M, inputModel program model = Some M -> M ∈ visitedTypes st') /\
  (length (model_properties (deref program model)) <> 1 ->
   wrongNumber model ∈ reported st').
Proof.
  intros H.
  destruct (Nat.eq_dec (length (model_properties (deref program model))) 1)
    as [Hone|Hne].
  - unfold addModelAsInput, inputModel in *.
    destruct (model_properties (deref program model)) as [|param [|? ?]];
      try discriminate.
    simpl in H. destruct (property_type param) as [input|k].
    + apply bind_Some in H as ([] & st1 & E1 & E2). injection E2 as <- <-.
      apply visitType_run in E1 as [Hext Hin].
      repeat split; try assumption; try tauto.
      intros M HM. injection HM as <-. exact Hin.
    + apply bind_Some in H as ([] & st1 & E1 & E2). injection E2 as <- <-.
      repeat split; try tauto; try discriminate.
      eapply extends_report; exact E1.
  - rewrite addModelAsInput_wrongNumber in H by exact Hne.
    injection H as <- <-.
    assert (Hin : inputModel program model = None).
    { unfold inputModel.
      destruct (model_properties (deref program model)) as [|param [|? ?]];
        try reflexivity. simpl in Hne. lia. }
    rewrite Hin. repeat split; try discriminate.
    + exists [], [], [wrongNumber model]. simpl. rewrite app_nil_r.
      repeat split; try constructor; try tauto; set_solver.
    + intros _. simpl. apply elem_of_app. right. apply list_elem_of_singleton.
      reflexivity.
Qed.

Lemma toMethodFromOperation_spec op st method st' :
  toMethodFromOperation program fuel op st = Some (method, st') ->
  method = methodOf program op /\
  extends program st st' /\
  (forall M, usesModel program op M -> M ∈ visitedTypes st') /\
  (parameterCount program op <> 1 ->
   wrongNumber (operation_parameters op) ∈ reported st').
Proof.
  unfold toMethodFromOperation. intros H.
  apply bind_Some in H as (input & st1 & E1 & H).
  apply bind_Some in H as (returns & st2 & E2 & E3). injection E3 as <- <-.
  apply addModelAsInput_spec in E1 as (-> & Hext1 & Hin1 & Hd1).
  apply addReturnType_spec in E2 as (-> & Hext2 & Hin2).
  split; [reflexivity|]. split; [eapply extends_trans; eassumption|].
  split.
  - intros M [HM|HM]; [|auto].
    eapply extends_visited; [exact Hext2|auto].
  - intros Hne. eapply extends_reported; [exact Hext2|auto].
Qed.

Lemma methods_spec ops : forall st methods st',
  mapM (toMethodFromOperation program fuel) ops st = Some (methods, st') ->
  methods = List.map (methodOf program) ops /\
  extends program st st' /\
  (forall op M, op ∈ ops -> usesModel program op M -> M ∈ visitedTypes st') /\
  (forall op, op ∈ ops -> parameterCount program op <> 1 ->
     wrongNumber (operation_parameters op) ∈ reported st').
Proof.
  induction ops as [|op ops IH]; simpl; intros st methods st' H.
  - injection H as <- <-. split; [reflexivity|].
    split; [apply extends_refl|]. split; intros ? ; set_solver.
  - apply bind_Some in H as (method & st1 & E1 & H).
    apply bind_Some in H as (rest & st2 & E2 & E3). injection E3 as <- <-.
    apply toMethodFromOperation_spec in E1 as (-> & Hext1 & Hin1 & Hd1).
    apply IH in E2 as (-> & Hext2 & Hin2 & Hd2).
    split; [reflexivity|]. split; [eapply extends_trans; eassumption|].
    split.
    + intros op' M Hop HM. apply elem_of_cons in Hop as [->|Hop].
      * eapply extends_visited; [exact Hext2|auto].
      * eauto.
    + intros op' Hop Hne. apply elem_of_cons in Hop as [->|Hop].
      * eapply extends_reported; [exact Hext2|auto].
      * eauto.
Qed.
End Methods.

(** ** The declarations of a file *)

Lemma fileMessages_app d1 d2 :
  fileMessages (d1 ++ d2) = fileMessages d1 ++ fileMessages d2.
Proof. unfold fileMessages. apply flat_map_app. Qed.

Lemma fileServices_app d1 d2 :
  fileServices (d1 ++ d2) = fileServices d1 ++ fileServices d2.
Proof. unfold fileServices. apply flat_map_app. Qed.

Lemma fileMessages_messages msgs : fileMessages (List.map Message msgs) = msgs.
Proof. induction msgs as [|m msgs IH]; simpl; [|rewrite IH]; reflexivity. Qed.

Lemma fileServices_messages msgs : fileServices (List.map Message msgs) = [].
Proof. induction msgs as [|m msgs IH]; simpl; [|rewrite IH]; reflexivity. Qed.

Lemma elem_of_fileMessages message decls :
  message ∈ fileMessages decls <-> Message message ∈ decls.
Proof.
  induction decls as [|d decls IH]; simpl.
  - split; intros H; inversion H.
  - rewrite elem_of_app, IH, elem_of_cons. destruct d as [s|m]; simpl.
    + split; [intros [H|H]; [inversion H|auto]|].
      intros [H|H]; [discriminate|auto].
    + rewrite list_elem_of_singleton. split.
      * intros [->|H]; auto.
      * intros [H|H]; [injection H as ->|]; auto.
Qed.

Section File.
Variable program : Program.

Lemma settled_extends st st' :
  settled program st -> extends program st st' -> settled program st'.
Proof.
  intros (L & Hnd & HL & Hn)
         (L' & msgs & ds & Hd' & Hn' & Hnd' & HL' & Hs' & _).
  exists (L ++ L'). split.
  { apply NoDup_app. repeat split; try assumption.
    intros m H1 H2. apply HL in H1. apply HL' in H2. tauto. }
  split.
  { intros m. rewrite elem_of_app, HL, HL'.
    destruct (decide (m ∈ visitedTypes st)); set_solver. }
  rewrite Hd', fileMessages_app, fileMessages_messages, !List.map_app.
  rewrite Hn, Hn'. reflexivity.
Qed.

Lemma settled_declared st M :
  settled program st -> M ∈ visitedTypes st ->
  exists message,
    Message message ∈ declarations st /\
    message_name message = modelName program M.
Proof.
  intros (L & _ & HL & Hn) HM. apply HL in HM.
  assert (H : modelName program M
              ∈ List.map message_name (fileMessages (declarations st))).
  { rewrite Hn. apply list_elem_of_fmap. exists M. auto. }
  apply list_elem_of_fmap in H as (message & Hname & Hin).
  exists message. split; [apply elem_of_fileMessages, Hin|auto].
Qed.

Lemma declaredBefore_app decls more i r :
  declaredBefore decls i r -> declaredBefore (decls ++ more) i r.
Proof.
  intros (j & message & Hj & Hlook & Hr). exists j, message.
  repeat split; try assumption.
  rewrite lookup_app_l; [exact Hlook|]. eapply lookup_lt_Some, Hlook.
Qed.

Lemma ordered_messages decls msgs :
  ordered decls -> ordered (decls ++ List.map Message msgs).
Proof.
  intros Hord i s method r Hlook Hm Hr Hne.
  destruct (decide (i < length decls)) as [Hlt|Hge].
  - rewrite lookup_app_l in Hlook by exact Hlt.
    apply declaredBefore_app. eapply Hord; eassumption.
  - rewrite lookup_app_r in Hlook by lia.
    apply list_elem_of_lookup_2, list_elem_of_fmap in Hlook
      as (message & Heq & _).
    discriminate.
Qed.

Lemma ordered_service decls s :
  ordered decls ->
  (forall method r,
      method ∈ service_operations s ->
      r = method_input method \/ r = method_returns method ->
      r <> ref unreachable ->
      exists message,
        Message message ∈ decls /\ r = ref (message_name message)) ->
  ordered (decls ++ [Service s]).
Proof.
  intros Hord Hs i s' method r Hlook Hm Hr Hne.
  destruct (decide (i < length decls)) as [Hlt|Hge].
  - rewrite lookup_app_l in Hlook by exact Hlt.
    apply declaredBefore_app. eapply Hord; eassumption.
  - rewrite lookup_app_r in Hlook by lia.
    destruct (i - length decls) as [|n] eqn:Ei; [|destruct n; discriminate].
    injection Hlook as <-.
    destruct (Hs method r Hm Hr Hne) as (message & Hin & ->).
    apply list_elem_of_lookup in Hin as [j Hj].
    exists j, message. repeat split.
    + apply lookup_lt_Some in Hj. lia.
    + rewrite lookup_app_l; [exact Hj|]. eapply lookup_lt_Some, Hj.
Qed.

Lemma later_refl st : later st st.
Proof. split; [set_solver|]. exists []. rewrite app_nil_r. reflexivity. Qed.

Lemma later_trans st1 st2 st3 : later st1 st2 -> later st2 st3 -> later st1 st3.
Proof.
  intros [H1 [ds1 E1]] [H2 [ds2 E2]]. split; [set_solver|].
  exists (ds1 ++ ds2). rewrite E2, E1, app_assoc. reflexivity.
Qed.

Lemma extends_later st st' : extends program st st' -> later st st'.
Proof.
  intros (L & msgs & ds & _ & _ & _ & _ & Hs & Hr). split; eauto.
Qed.

Lemma covers_later ifaces st st' :
  covers program ifaces st -> later st st' -> covers program ifaces st'.
Proof.
  intros Hc [Hs [ds Hr]] iface op Hi Ho.
  destruct (Hc iface op Hi Ho) as [H1 H2]. split.
  - intros M HM. specialize (H1 M HM). set_solver.
  - intros Hne. rewrite Hr. apply elem_of_app. auto.
Qed.

Variable fuel : nat.

Lemma reifyServices_spec ifaces : forall st st',
  reifyServices program fuel ifaces st = Some (tt, st') ->
  settled program st -> ordered (declarations st) ->
  settled program st' /\ ordered (declarations st') /\
  fileServices (declarations st') =
    fileServices (declarations st) ++ List.map (serviceOf program) ifaces /\
  later st st' /\ covers program ifaces st'.
Proof.
  induction ifaces as [|iface ifaces IH]; simpl; intros st st' H Hset Hord.
  - injection H as <-. rewrite app_nil_r.
    repeat split; try assumption; try apply later_refl.
    all: intros; set_solver.
  - apply bind_Some in H as (methods & st1 & E1 & H).
    apply bind_Some in H as ([] & st2 & E2 & E3). injection E2 as <-.
    apply methods_spec in E1 as (-> & Hext & Hin & Hd).
    pose proof (settled_extends _ _ Hset Hext) as Hset1.
    assert (Hord1 : ordered (declarations st1)).
    { destruct Hext as (L & msgs & ds & -> & _). apply ordered_messages, Hord. }
    apply IH in E3 as (Hset' & Hord' & Hsrv & Hlater & Hcov); simpl.
    + split; [exact Hset'|]. split; [exact Hord'|]. split.
      { rewrite Hsrv. simpl. rewrite fileServices_app. simpl.
        destruct Hext as (L & msgs & ds & -> & _).
        rewrite fileServices_app, fileServices_messages, app_nil_r.
        rewrite <- app_assoc. reflexivity. }
      split.
      { eapply later_trans; [apply extends_later, Hext|].
        destruct Hlater as [Hs Hr]. split; assumption. }
      intros iface' op Hi Ho. apply elem_of_cons in Hi as [->|Hi].
      * assert (Hc1 : covers program [iface] st').
        { apply covers_later
            with (st := {| visitedTypes := visitedTypes st1;
                           declarations := declarations st1 ++
                             [Service {| service_name := interface_name iface;
                                         service_operations :=
                                           List.map (methodOf program)
                                             (interface_operations iface) |}];
                           reported := reported st1 |}); [|exact Hlater].
          intros i o Hi Ho'. apply list_elem_of_singleton in Hi as ->.
          simpl. split; eauto. }
        apply (Hc1 iface op); [apply list_elem_of_singleton; reflexivity|exact Ho].
      * apply (Hcov iface' op); assumption.
    + destruct Hset1 as (L & Hnd & HL & Hn). exists L.
      repeat split; try assumption; try apply HL.
      simpl. rewrite fileMessages_app. simpl. rewrite app_nil_r. exact Hn.
    + simpl. apply ordered_service; [exact Hord1|].
      intros method r Hm Hr Hne. simpl in Hm.
      apply list_elem_of_fmap in Hm as (op & -> & Hop).
      assert (HM : exists M, usesModel program op M /\
                             r = ref (modelName program M)).
      { unfold usesModel. destruct Hr as [->| ->]; simpl in *.
        - destruct (inputModel program (operation_parameters op)) as [M|];
            [eauto|contradiction].
        - destruct (returnModel (operation_returnType op)) as [M|];
            [eauto|contradiction]. }
      destruct HM as (M & HM & ->).
      destruct (settled_declared st1 M Hset1 (Hin op M Hop HM))
        as (message & Hmsg & Hname).
      exists message. rewrite Hname. auto.
Qed.

(** The file of a namespace, when the pass returns it. *)
Lemma declarationsFromNamespace_spec namespace diags decls diags' :
  declarationsFromNamespace program fuel namespace diags
    = Some (decls, diags') ->
  let ifaces := recursiveAddInterfaces program namespace [] in
  fileServices decls = List.map (serviceOf program) ifaces /\
  ordered decls /\
  (exists L : list nat,
      NoDup L /\
      List.map message_name (fileMessages decls)
        = List.map (modelName program) L /\
      forall iface op M,
        iface ∈ ifaces -> op ∈ interface_operations iface ->
        usesModel program op M -> M ∈ L) /\
  (exists ds, diags' = diags ++ ds) /\
  (forall iface op,
      iface ∈ ifaces -> op ∈ interface_operations iface ->
      parameterCount program op <> 1 ->
      wrongNumber (operation_parameters op) ∈ diags').
Proof.
  intros H ifaces. subst ifaces. unfold declarationsFromNamespace in H.
  destruct (reifyServices program fuel _ _) as [[[] st]|] eqn:E;
    [|discriminate].
  injection H as <- <-.
  apply reifyServices_spec in E
    as ((L & Hnd & HL & Hn) & Hord & Hsrv & [_ Hr] & Hcov).
  - simpl in *. repeat split; try assumption.
    + exists L. repeat split; try assumption.
      intros iface op M Hi Ho HM. apply HL. eapply Hcov; eassumption.
    + intros iface op Hi Ho. apply (Hcov iface op); assumption.
  - exists []. simpl. repeat split; try constructor; set_solver.
  - intros i s method r Hlook. simpl in Hlook. discriminate.
Qed.
End File.

(** ** Termination of the pass *)

Section PassReturns.
Variable program : Program.
Variable rk : nat -> nat.
Variable fuel : nat.
Hypothesis Hranked : ranked program rk = true.
Hypothesis Hfuel : enoughFuel program rk <= fuel.

Lemma visitType_enough m st :
  returns (visitType program (addType program fuel) m) st.
Proof.
  apply (visitType_returns program rk Hranked (addType program fuel) fuel).
  - intros t st' _. apply (addType_returns program rk Hranked).
    apply (enoughFuel_measure program rk), Hfuel.
  - apply (enoughFuel_visit program rk), Hfuel.
Qed.

Lemma toMethodFromOperation_returns op st :
  returns (toMethodFromOperation program fuel op) st.
Proof.
  unfold toMethodFromOperation. apply returns_bind.
  { unfold addModelAsInput.
    destruct (negb _).
    - apply returns_bind; [apply returns_report|intros; apply returns_ret].
    - destruct (model_properties _) as [|param ?]; [apply returns_ret|].
      destruct (property_type param).
      + apply returns_bind; [apply visitType_enough|intros; apply returns_ret].
      + apply returns_bind; [apply returns_report|intros; apply returns_ret]. }
  intros input st1 _ _. apply returns_bind; [|intros; apply returns_ret].
  unfold addReturnType. destruct (operation_returnType op).
  - apply returns_bind; [apply visitType_enough|intros; apply returns_ret].
  - apply returns_bind; [apply returns_report|intros; apply returns_ret].
Qed.

Lemma reifyServices_returns ifaces : forall st,
  returns (reifyServices program fuel ifaces) st.
Proof.
  induction ifaces as [|iface ifaces IH]; intros st; simpl.
  - apply returns_ret.
  - apply returns_bind.
    { apply returns_mapM. intros; apply toMethodFromOperation_returns. }
    intros methods st1 _ _. apply returns_bind; [apply returns_push|].
    intros; apply IH.
Qed.

Lemma declarationsFromNamespace_returns namespace diags :
  exists decls diags',
    declarationsFromNamespace program fuel namespace diags
      = Some (decls, diags').
Proof.
  unfold declarationsFromNamespace.
  destruct (reifyServices_returns (recursiveAddInterfaces program namespace [])
              {| visitedTypes := ∅; declarations := []; reported := diags |})
    as ([] & st & -> & _).
  eauto.
Qed.

Lemma filesOfPackages_returns entries : forall diags,
  exists files diags',
    filesOfPackages program fuel entries diags = Some (files, diags') /\
    length files = length entries.
Proof.
  induction entries as [|[namespace packageName] entries IH]; intros diags;
    simpl.
  - exists [], diags. auto.
  - destruct (declarationsFromNamespace_returns namespace diags)
      as (decls & diags1 & ->).
    destruct (IH diags1) as (files & diags2 & -> & Hlen).
    eexists _, _. split; [reflexivity|]. simpl. rewrite Hlen. reflexivity.
Qed.
End PassReturns.

(** C1. Termination of the lowering pass, reference cycles among the
    models included.  For every program (its models may refer to
    themselves or to each other through their fields in any way) whose
    nesting of map instances is ranked, [cadlToProto] returns a file for
    each package once the fuel reaches [enoughFuel], and so does every
    single [visitType], which leaves its model in the visited-set.  The
    model is marked before its fields are translated: a [visitType] of an
    unvisited model is [toMessage] run from the state that already holds
    the mark, and a [visitType] of a marked model returns at once. *)
Theorem cadlToProto_terminates (program : Program) (rk : nat -> nat)
    (fuel : nat) :
  ranked program rk = true ->
  enoughFuel program rk <= fuel ->
  (exists files diags,
      cadlToProto program fuel = Some (files, diags) /\
      length files = length (packages program)) /\
  (forall model st,
      exists st',
        visitType program (addType program fuel) model st = Some (tt, st') /\
        model ∈ visitedTypes st') /\
  (forall rec model st,
      visitType program rec model st =
      if decide (model ∈ visitedTypes st) then Some (tt, st)
      else
        (message <- toMessage program rec model ;; push (Message message))
          {| visitedTypes := {[model]} ∪ visitedTypes st;
             declarations := declarations st;
             reported := reported st |}).
Proof.
  intros Hranked Hfuel. split; [|split].
  - unfold cadlToProto. apply filesOfPackages_returns with (rk := rk); assumption.
  - intros model st.
    destruct (visitType_enough program rk fuel Hranked Hfuel model st)
      as ([] & st' & E & _).
    exists st'. split; [exact E|].
    eapply visitType_marks; [apply addType_extending|exact E].
  - intros rec model st. unfold visitType.
    destruct (decide (model ∈ visitedTypes st)); reflexivity.
Qed.

(** The rank is what the theorem needs: on a map instance nested in
    itself, which no rank fits, [addType] exhausts any fuel. *)
Remark self_nested_map_exhausts_fuel :
  (forall rk, ranked exSelfNested rk = false) /\
  (forall fuel, addType exSelfNested fuel (Model 0) exStart = None).
Proof.
  split.
  - intros rk. unfold ranked. simpl. rewrite Nat.ltb_irrefl. reflexivity.
  - induction fuel as [|fuel IH]; [reflexivity|].
    change (addType exSelfNested (S fuel) (Model 0) exStart)
      with (addType_body exSelfNested (addType exSelfNested fuel)
              (Model 0) exStart).
    unfold addType_body, intrinsicToProto. simpl. unfold bind.
    rewrite IH. reflexivity.
Qed.

(** ** The files of the pass *)

Lemma filesOfPackages_spec program fuel entries : forall diags files diags',
  filesOfPackages program fuel entries diags = Some (files, diags') ->
  (exists ds, diags' = diags ++ ds) /\
  Forall2 (fileOf program fuel diags diags') entries files.
Proof.
  induction entries as [|[namespace packageName] entries IH];
    intros diags files diags' H; simpl in H.
  - injection H as <- <-. split; [|constructor].
    exists []. rewrite app_nil_r. reflexivity.
  - destruct (declarationsFromNamespace program fuel namespace diags)
      as [[decls d1]|] eqn:E1; [|discriminate].
    destruct (filesOfPackages program fuel entries d1)
      as [[rest d2]|] eqn:E2; [|discriminate].
    injection H as <- <-.
    apply IH in E2 as [[ds2 ->] Hrest].
    pose proof (declarationsFromNamespace_spec _ _ _ _ _ _ E1)
      as (_ & _ & _ & [ds1 ->] & _).
    split; [exists (ds1 ++ ds2); rewrite app_assoc; reflexivity|].
    constructor.
    + split; [reflexivity|]. split; [reflexivity|].
      exists diags, (diags ++ ds1). simpl. split; [exact E1|].
      split; [exists []; rewrite app_nil_r; reflexivity|eauto].
    + eapply Forall2_impl; [exact Hrest|].
      intros entry file (Hp & Ho & d & d' & Hd & [ds ->] & Hlast).
      split; [exact Hp|]. split; [exact Ho|]. exists (diags ++ ds1 ++ ds), d'.
      rewrite app_assoc. split; [exact Hd|]. split; [|exact Hlast].
      exists (ds1 ++ ds). rewrite app_assoc. reflexivity.
Qed.

(** With enough fuel the pass returns one file for each package, in the
    order of the packages. *)
Lemma cadlToProto_files program rk fuel :
  ranked program rk = true ->
  enoughFuel program rk <= fuel ->
  exists files diags,
    cadlToProto program fuel = Some (files, diags) /\
    Forall2 (fileOf program fuel (diagnostics program) diags)
      (packages program) files.
Proof.
  intros Hranked Hfuel. unfold cadlToProto.
  destruct (filesOfPackages_returns program rk fuel Hranked Hfuel
              (packages program) (diagnostics program))
    as (files & diags & E & _).
  exists files, diags. split; [exact E|].
  apply filesOfPackages_spec in E as [_ H]. exact H.
Qed.

Lemma cadlToProto_file program rk fuel entry :
  ranked program rk = true ->
  enoughFuel program rk <= fuel ->
  entry ∈ packages program ->
  exists files diags file,
    cadlToProto program fuel = Some (files, diags) /\
    file ∈ files /\
    fileOf program fuel (diagnostics program) diags entry file.
Proof.
  intros Hranked Hfuel Hentry.
  destruct (cadlToProto_files program rk fuel Hranked Hfuel)
    as (files & diags & E & Hall).
  apply list_elem_of_lookup in Hentry as [i Hi].
  destruct (Forall2_lookup_l _ _ _ _ _ Hall Hi) as (file & Hfile & Hof).
  exists files, diags, file. split; [exact E|].
  split; [eapply list_elem_of_lookup_2, Hfile|exact Hof].
Qed.

Lemma usesModel_refersTo program op M :
  usesModel program op M ->
  refersTo (methodOf program op) (ref (modelName program M)).
Proof.
  unfold usesModel, refersTo, methodOf. simpl.
  intros [-> | ->]; simpl; auto.
Qed.

Lemma named_once (f : nat -> string) (g : ProtoMessageDeclaration -> string)
    (L : list nat) : forall (msgs : list ProtoMessageDeclaration) (M : nat),
  NoDup L -> List.map g msgs = List.map f L -> M ∈ L ->
  (forall M', M' ∈ L -> f M' = f M -> M' = M) ->
  length (List.filter (fun message => String.eqb (g message) (f M)) msgs) = 1.
Proof.
  induction L as [|m L IH]; intros msgs M Hnd Hmap HM Hinj.
  - inversion HM.
  - destruct msgs as [|message msgs]; [discriminate|].
    simpl in Hmap. injection Hmap as Hhead Htail.
    apply NoDup_cons in Hnd as [Hnot Hnd]. simpl. rewrite Hhead.
    destruct (decide (m = M)) as [->|Hne].
    + rewrite String.eqb_refl. simpl. f_equal.
      apply length_zero_iff_nil.
      destruct (List.filter _ msgs) as [|x xs] eqn:Ef; [reflexivity|].
      assert (Hx : In x (List.filter
                (fun message => String.eqb (g message) (f M)) msgs)).
      { rewrite Ef. left. reflexivity. }
      apply filter_In in Hx as [Hx Hname]. apply String.eqb_eq in Hname.
      assert (Hin : f M ∈ List.map f L).
      { rewrite <- Htail, <- Hname. apply list_elem_of_fmap.
        exists x. split; [reflexivity|apply list_elem_of_In, Hx]. }
      apply list_elem_of_fmap in Hin as (M' & Heq & HM').
      assert (M' = M) by (apply Hinj; [right; exact HM'|auto]).
      subst M'. contradiction.
    + apply elem_of_cons in HM as [->|HM]; [contradiction|].
      destruct (String.eqb (f m) (f M)) eqn:Ename.
      * apply String.eqb_eq in Ename.
        exfalso. apply Hne. apply Hinj; [left|exact Ename].
      * apply IH; try assumption.
        intros M' HM' Heq. apply Hinj; [right; exact HM'|exact Heq].
Qed.

(** C2. A model shared by two operations.  Let [M] be the input or the
    return model of two operations of services of a package's namespace.
    With enough fuel the pass returns, and in the file of that package:
    both method declarations (the file's services are the [serviceOf] of
    the collected interfaces, whose methods are the [methodOf] of their
    operations) refer to [M] by the same reference, [M]'s name; the
    messages of the file are, in order and by name, the models of a
    duplicate-free list [L] that holds [M], so that one message and no
    more was declared for [M]; and when no other model of [L] bears
    [M]'s name, exactly one message of the file is named so. *)
Theorem shared_model_declared_once (program : Program) (rk : nat -> nat)
    (fuel : nat) (namespace : NamespaceType) (packageName : string)
    (iface1 iface2 : InterfaceType) (op1 op2 : OperationType) (M : nat) :
  ranked program rk = true ->
  enoughFuel program rk <= fuel ->
  (namespace, packageName) ∈ packages program ->
  iface1 ∈ recursiveAddInterfaces program namespace [] ->
  op1 ∈ interface_operations iface1 ->
  iface2 ∈ recursiveAddInterfaces program namespace [] ->
  op2 ∈ interface_operations iface2 ->
  usesModel program op1 M ->
  usesModel program op2 M ->
  exists files diags file,
    cadlToProto program fuel = Some (files, diags) /\
    file ∈ files /\
    file_package file = Some packageName /\
    fileServices (file_declarations file)
      = List.map (serviceOf program)
          (recursiveAddInterfaces program namespace []) /\
    refersTo (methodOf program op1) (ref (modelName program M)) /\
    refersTo (methodOf program op2) (ref (modelName program M)) /\
    exists L : list nat,
      NoDup L /\ M ∈ L /\
      List.map message_name (fileMessages (file_declarations file))
        = List.map (modelName program) L /\
      ((forall M', M' ∈ L ->
          modelName program M' = modelName program M -> M' = M) ->
       length (messagesNamed (modelName program M) (file_declarations file))
         = 1).
Proof.
  intros Hranked Hfuel Hentry Hi1 Ho1 Hi2 Ho2 HM1 HM2.
  destruct (cadlToProto_file program rk fuel _ Hranked Hfuel Hentry)
    as (files & diags & file & E & Hfile & Hp & _ & d & d' & Hd & _).
  exists files, diags, file.
  apply declarationsFromNamespace_spec in Hd
    as (Hsrv & _ & (L & Hnd & Hn & HL) & _).
  simpl in *.
  repeat (split; [first [assumption | apply usesModel_refersTo; assumption]|]).
  exists L. split; [exact Hnd|].
  assert (HML : M ∈ L) by (eapply HL; eassumption).
  split; [exact HML|]. split; [exact Hn|].
  intros Hinj. unfold messagesNamed.
  apply named_once with (L := L); assumption.
Qed.


(** C6. A parameter bag that does not have exactly one property.  For an
    operation of a service of a package's namespace whose parameter bag
    has a number of properties other than one: [addModelAsInput] returns
    the placeholder from any state and with any fuel, having added the
    [wrong-number] diagnostic and nothing else; with enough fuel the pass
    returns, its diagnostics hold that diagnostic, the operation's method
    has the placeholder as input, and the file of the package declares
    every collected service with a method for each of its operations. *)
Theorem wrong_number_reported (program : Program) (rk : nat -> nat)
    (fuel : nat) (namespace : NamespaceType) (packageName : string)
    (iface : InterfaceType) (op : OperationType) :
  ranked program rk = true ->
  enoughFuel program rk <= fuel ->
  (namespace, packageName) ∈ packages program ->
  iface ∈ recursiveAddInterfaces program namespace [] ->
  op ∈ interface_operations iface ->
  parameterCount program op <> 1 ->
  (forall fuel' st,
      addModelAsInput program fuel' (operation_parameters op) st =
      Some (ref unreachable,
            {| visitedTypes := visitedTypes st;
               declarations := declarations st;
               reported :=
                 reported st ++ [wrongNumber (operation_parameters op)] |})) /\
  exists files diags file,
    cadlToProto program fuel = Some (files, diags) /\
    wrongNumber (operation_parameters op) ∈ diags /\
    method_input (methodOf program op) = ref unreachable /\
    file ∈ files /\
    file_package file = Some packageName /\
    fileServices (file_declarations file)
      = List.map (serviceOf program)
          (recursiveAddInterfaces program namespace []).
Proof.
  intros Hranked Hfuel Hentry Hi Ho Hne. split.
  { intros fuel' st. apply addModelAsInput_wrongNumber. exact Hne. }
  destruct (cadlToProto_file program rk fuel _ Hranked Hfuel Hentry)
    as (files & diags & file & E & Hfile & Hp & _ & d & d' & Hd & _ & [ds Hds]).
  exists files, diags, file.
  apply declarationsFromNamespace_spec in Hd as (Hsrv & _ & _ & _ & Hdiag).
  simpl in *. split; [exact E|]. split.
  { rewrite Hds. apply elem_of_app. left. eapply Hdiag; eassumption. }
  split; [|auto].
  unfold methodOf, inputModel, parameterCount in *. simpl.
  destruct (model_properties _) as [|param [|? ?]]; try reflexivity.
  simpl in Hne. lia.
Qed.

(** ** The scan of the namespaces *)

Section Scan.
Variable program : Program.

Lemma recursiveAddInterfaces_unfold id name interfaces namespaces acc :
  recursiveAddInterfaces program
    (Build_NamespaceType id name interfaces namespaces) acc =
  fold_left
    (fun acc nested =>
       if isPackage program nested then acc
       else recursiveAddInterfaces program nested acc)
    namespaces (addServices program interfaces acc).
Proof.
  simpl. generalize (addServices program interfaces acc).
  induction namespaces as [|nested rest IH]; intros acc'; simpl.
  - reflexivity.
  - apply IH.
Qed.

Lemma setAdd_elem acc iface x :
  x ∈ setAdd acc iface -> x ∈ acc \/ x = iface.
Proof.
  unfold setAdd. destruct (existsb _ acc); [auto|].
  rewrite elem_of_app, list_elem_of_singleton. auto.
Qed.

Lemma setAdd_mono acc iface x : x ∈ acc -> x ∈ setAdd acc iface.
Proof.
  unfold setAdd. destruct (existsb _ acc); [auto|].
  rewrite elem_of_app. auto.
Qed.

Lemma setAdd_holds acc iface :
  exists iface', iface' ∈ setAdd acc iface /\
                 interface_id iface' = interface_id iface.
Proof.
  unfold setAdd. destruct (existsb _ acc) eqn:E.
  - apply existsb_exists in E as (iface' & Hin & Hid).
    apply Nat.eqb_eq in Hid. exists iface'.
    split; [apply list_elem_of_In, Hin|exact Hid].
  - exists iface. rewrite elem_of_app, list_elem_of_singleton. auto.
Qed.

Lemma addServices_elem interfaces : forall acc x,
  x ∈ addServices program interfaces acc ->
  x ∈ acc \/ (x ∈ interfaces /\ interface_id x ∈ services program).
Proof.
  unfold addServices.
  induction interfaces as [|iface interfaces IH]; intros acc x; simpl.
  - auto.
  - intros H. apply IH in H as [H|[H Hs]].
    + destruct (decide (interface_id iface ∈ services program)) as [Hs|Hs].
      * apply setAdd_elem in H as [H| ->]; [auto|].
        right. split; [left|exact Hs].
      * auto.
    + right. split; [right; exact H|exact Hs].
Qed.

Lemma addServices_mono interfaces : forall acc x,
  x ∈ acc -> x ∈ addServices program interfaces acc.
Proof.
  unfold addServices.
  induction interfaces as [|iface interfaces IH]; intros acc x H; simpl.
  - exact H.
  - apply IH. destruct (decide _); [apply setAdd_mono|]; exact H.
Qed.

Lemma addServices_holds interfaces : forall acc iface,
  iface ∈ interfaces -> interface_id iface ∈ services program ->
  exists iface', iface' ∈ addServices program interfaces acc /\
                 interface_id iface' = interface_id iface.
Proof.
  induction interfaces as [|i interfaces IH]; intros acc iface Hin Hs.
  - inversion Hin.
  - apply elem_of_cons in Hin as [->|Hin].
    + unfold addServices. simpl.
      destruct (decide (interface_id i ∈ services program)); [|contradiction].
      destruct (setAdd_holds acc i) as (iface' & H & Hid).
      exists iface'. split; [|exact Hid].
      apply (addServices_mono interfaces). exact H.
    + unfold addServices. simpl. apply IH; assumption.
Qed.

(** Every interface that the scan adds is a marked interface that the
    scan reached. *)
Lemma scan_elem namespace : forall acc x,
  x ∈ recursiveAddInterfaces program namespace acc ->
  x ∈ acc \/
  (scanned program namespace x /\ interface_id x ∈ services program).
Proof.
  induction namespace as [id name interfaces namespaces IH]
    using NamespaceType_tree_ind.
  intros acc x. rewrite recursiveAddInterfaces_unfold.
  assert (Hloop : forall nss acc',
    (forall n, n ∈ nss -> n ∈ namespaces) ->
    x ∈ fold_left
          (fun acc nested =>
             if isPackage program nested then acc
             else recursiveAddInterfaces program nested acc) nss acc' ->
    x ∈ acc' \/
    (exists nested, nested ∈ namespaces /\
        isPackage program nested = false /\
        scanned program nested x /\ interface_id x ∈ services program)).
  { induction nss as [|nested nss IHn]; intros acc' Hsub; simpl; [auto|].
    intros H. apply IHn in H; [|intros n Hn; apply Hsub; right; exact Hn].
    destruct H as [H|H]; [|auto].
    destruct (isPackage program nested) eqn:Ep; [auto|].
    assert (Hnested : nested ∈ namespaces) by (apply Hsub; left).
    rewrite List.Forall_forall in IH.
    apply IH in H; [|apply list_elem_of_In, Hnested].
    destruct H as [H|[H Hs]]; [auto|]. right. exists nested. auto. }
  intros H. apply Hloop in H; [|auto].
  destruct H as [H|(nested & Hn & Hp & Hscan & Hs)].
  - apply addServices_elem in H as [H|[H Hs]]; [auto|].
    right. split; [apply scanned_member; exact H|exact Hs].
  - right. split; [|exact Hs].
    eapply scanned_nested; [exact Hn|exact Hp|exact Hscan].
Qed.

Lemma scan_loop_mono nss : forall acc x,
  x ∈ acc ->
  (forall n acc', n ∈ nss -> x ∈ acc' ->
     x ∈ recursiveAddInterfaces program n acc') ->
  x ∈ fold_left
        (fun acc nested =>
           if isPackage program nested then acc
           else recursiveAddInterfaces program nested acc) nss acc.
Proof.
  induction nss as [|nested nss IH]; intros acc x Hx Hrec; simpl; [exact Hx|].
  apply IH.
  - destruct (isPackage program nested); [exact Hx|].
    apply Hrec; [left|exact Hx].
  - intros n acc' Hn. apply Hrec. right. exact Hn.
Qed.

Lemma scan_mono namespace : forall acc x,
  x ∈ acc -> x ∈ recursiveAddInterfaces program namespace acc.
Proof.
  induction namespace as [id name interfaces namespaces IH]
    using NamespaceType_tree_ind.
  intros acc x Hx. rewrite recursiveAddInterfaces_unfold.
  apply scan_loop_mono; [apply addServices_mono, Hx|].
  intros n acc' Hn. rewrite List.Forall_forall in IH.
  apply IH. apply list_elem_of_In, Hn.
Qed.

(** Every marked interface that the scan reaches is held by the result,
    as the object of that identity. *)
Lemma scan_holds namespace iface :
  scanned program namespace iface ->
  interface_id iface ∈ services program ->
  forall acc,
  exists iface',
    iface' ∈ recursiveAddInterfaces program namespace acc /\
    interface_id iface' = interface_id iface.
Proof.
  intros Hscan Hs. induction Hscan as [ns iface Hin|ns nested iface Hn Hp _ IH];
    intros acc; destruct ns as [id name interfaces namespaces];
    rewrite recursiveAddInterfaces_unfold.
  - simpl in Hin. destruct (addServices_holds interfaces acc iface Hin Hs)
      as (iface' & H & Hid).
    exists iface'. split; [|exact Hid].
    apply scan_loop_mono; [exact H|]. intros; apply scan_mono; assumption.
  - simpl in Hn. specialize (IH Hs).
    generalize (addServices program interfaces acc).
    induction namespaces as [|n nss IHn]; intros acc'; [inversion Hn|].
    simpl. apply elem_of_cons in Hn as [<-|Hn].
    + rewrite Hp. destruct (IH acc') as (iface' & H & Hid).
      exists iface'. split; [|exact Hid].
      apply scan_loop_mono; [exact H|]. intros; apply scan_mono; assumption.
    + apply IHn. exact Hn.
Qed.

Lemma elem_of_allInterfaces namespace x :
  x ∈ allInterfaces namespace <->
  x ∈ namespace_interfaces namespace \/
  exists nested, nested ∈ namespace_namespaces namespace /\
                 x ∈ allInterfaces nested.
Proof.
  destruct namespace as [id name interfaces namespaces]. simpl.
  rewrite elem_of_app. apply or_iff_compat_l.
  rewrite list_elem_of_In, in_flat_map. split.
  - intros (n & Hn & Hx). exists n. rewrite !list_elem_of_In. auto.
  - intros (n & Hn & Hx). exists n. rewrite <- !list_elem_of_In. auto.
Qed.

Lemma scanned_all namespace x :
  scanned program namespace x -> x ∈ allInterfaces namespace.
Proof.
  induction 1 as [ns iface H|ns nested iface Hn _ _ IH];
    apply elem_of_allInterfaces; eauto.
Qed.

Lemma descendant_all namespace d x :
  descendant namespace d -> x ∈ allInterfaces d ->
  x ∈ allInterfaces namespace.
Proof.
  induction 1 as [ns nested Hn|ns nested d Hn _ IH]; intros Hx;
    apply elem_of_allInterfaces; eauto.
Qed.
End Scan.

(** Where the identities of a tree are distinct, an interface has one
    place in it. *)
Lemma NoDup_ids_app (l1 l2 : list InterfaceType) x :
  NoDup (List.map interface_id (l1 ++ l2)) -> x ∈ l1 -> x ∈ l2 -> False.
Proof.
  rewrite List.map_app. intros H H1 H2. apply NoDup_app in H as (_ & H & _).
  apply (H (interface_id x)); apply list_elem_of_fmap; eauto.
Qed.

Lemma NoDup_ids_nested (f : NamespaceType -> list InterfaceType) l :
  NoDup (List.map interface_id (flat_map f l)) ->
  forall a b x, a ∈ l -> b ∈ l -> x ∈ f a -> x ∈ f b ->
  a = b /\ NoDup (List.map interface_id (f a)).
Proof.
  induction l as [|c l IH]; intros Hnd a b x Ha Hb Hxa Hxb; [inversion Ha|].
  simpl in Hnd.
  assert (Hin : forall n, n ∈ l -> x ∈ f n -> x ∈ flat_map f l).
  { intros n Hn Hx. apply list_elem_of_In, in_flat_map. exists n.
    rewrite <- !list_elem_of_In. auto. }
  pose proof Hnd as Hnd'. rewrite List.map_app in Hnd'.
  apply NoDup_app in Hnd' as (Hc & _ & Hl).
  apply elem_of_cons in Ha as [->|Ha]; apply elem_of_cons in Hb as [->|Hb].
  - auto.
  - exfalso. eapply NoDup_ids_app; [exact Hnd|exact Hxa|eauto].
  - exfalso. eapply NoDup_ids_app; [exact Hnd|exact Hxb|eauto].
  - apply IH with (x := x); assumption.
Qed.

Lemma NoDup_ids_same (l : list InterfaceType) x y :
  NoDup (List.map interface_id l) -> x ∈ l -> y ∈ l ->
  interface_id x = interface_id y -> x = y.
Proof.
  induction l as [|z l IH]; intros Hnd Hx Hy Hid; [inversion Hx|].
  simpl in Hnd. apply NoDup_cons in Hnd as [Hz Hnd].
  apply elem_of_cons in Hx as [->|Hx]; apply elem_of_cons in Hy as [->|Hy].
  - reflexivity.
  - exfalso. apply Hz. rewrite Hid. apply list_elem_of_fmap. eauto.
  - exfalso. apply Hz. rewrite <- Hid. apply list_elem_of_fmap. eauto.
  - apply IH; assumption.
Qed.

Lemma descendant_inv namespace d :
  descendant namespace d ->
  exists nested, nested ∈ namespace_namespaces namespace /\
                 (d = nested \/ descendant nested d).
Proof. destruct 1; eauto. Qed.

Lemma scanned_outside_packages program namespace x :
  scanned program namespace x ->
  forall Q,
    descendant namespace Q -> isPackage program Q = true ->
    x ∈ allInterfaces Q ->
    NoDup (List.map interface_id (allInterfaces namespace)) -> False.
Proof.
  induction 1 as [ns iface Hin|ns nested iface Hn Hp Hscan IH];
    intros Q Hdesc HQ Hx Hnd;
    apply descendant_inv in Hdesc as (C & HC & Hdesc);
    assert (HxC : iface ∈ allInterfaces C)
      by (destruct Hdesc as [<-|Hdesc];
          [exact Hx|eapply descendant_all; eassumption]);
    destruct ns as [id name interfaces namespaces]; simpl in *.
  - eapply NoDup_ids_app; [exact Hnd|exact Hin|].
    apply list_elem_of_In, in_flat_map. exists C.
    rewrite <- !list_elem_of_In. auto.
  - rewrite List.map_app in Hnd. apply NoDup_app in Hnd as (_ & _ & Hnd).
    destruct (NoDup_ids_nested allInterfaces namespaces Hnd nested C iface)
      as [-> Hnd']; try assumption.
    { apply scanned_all with (program := program). exact Hscan. }
    destruct Hdesc as [->|Hdesc]; [congruence|].
    eapply IH; eassumption.
Qed.

Lemma descendant_NoDup namespace d :
  descendant namespace d ->
  NoDup (List.map interface_id (allInterfaces namespace)) ->
  NoDup (List.map interface_id (allInterfaces d)).
Proof.
  assert (Hchild : forall ns nested,
    nested ∈ namespace_namespaces ns ->
    NoDup (List.map interface_id (allInterfaces ns)) ->
    NoDup (List.map interface_id (allInterfaces nested))).
  { intros [id name interfaces namespaces] nested Hn Hnd. simpl in *.
    rewrite List.map_app in Hnd. apply NoDup_app in Hnd as (_ & _ & Hnd).
    clear interfaces. induction namespaces as [|c l IH]; [inversion Hn|].
    simpl in Hnd. rewrite List.map_app in Hnd.
    apply NoDup_app in Hnd as (Hc & _ & Hl).
    apply elem_of_cons in Hn as [->|Hn]; auto. }
  induction 1 as [ns nested Hn|ns nested d Hn _ IH]; intros Hnd; eauto.
Qed.

Lemma scan_exact program namespace :
  NoDup (List.map interface_id (allInterfaces namespace)) ->
  forall iface,
    iface ∈ recursiveAddInterfaces program namespace [] <->
    scanned program namespace iface /\
    interface_id iface ∈ services program.
Proof.
  intros Hnd iface. split.
  - intros H. apply scan_elem in H as [H|H]; [inversion H|exact H].
  - intros [Hscan Hs].
    destruct (scan_holds program namespace iface Hscan Hs [])
      as (iface' & H & Hid).
    assert (iface' = iface); [|subst; exact H].
    apply NoDup_ids_same with (l := allInterfaces namespace); try assumption.
    + apply scan_elem in H as [H|[H _]]; [inversion H|].
      apply scanned_all with (program := program). exact H.
    + apply scanned_all with (program := program). exact Hscan.
Qed.

(** C9. The scan stops at package boundaries.  Let the interfaces below a
    namespace [P] be distinct objects.  The interfaces collected for [P]
    are exactly the marked interfaces that are members of [P] or of a
    namespace reached from [P] through namespaces that are not packages,
    so the services of such namespaces are collected; an interface
    anywhere below a descendant of [P] that is a package is not collected
    for [P]; and the scan of any descendant [Q], which is the one run for
    [Q]'s own file when [Q] is a package, collects the marked members of
    [Q] by the same rule.  With enough fuel, the service declarations of
    the file of a package are those of the interfaces collected for its
    namespace, in order. *)
Theorem scan_stops_at_packages (program : Program) (P : NamespaceType) :
  NoDup (List.map interface_id (allInterfaces P)) ->
  (forall iface,
      iface ∈ recursiveAddInterfaces program P [] <->
      scanned program P iface /\ interface_id iface ∈ services program) /\
  (forall Q iface,
      descendant P Q -> isPackage program Q = true ->
      iface ∈ allInterfaces Q ->
      iface ∉ recursiveAddInterfaces program P []) /\
  (forall Q iface,
      descendant P Q ->
      (iface ∈ recursiveAddInterfaces program Q [] <->
       scanned program Q iface /\ interface_id iface ∈ services program)) /\
  (forall rk fuel packageName,
      ranked program rk = true ->
      enoughFuel program rk <= fuel ->
      (P, packageName) ∈ packages program ->
      exists files diags file,
        cadlToProto program fuel = Some (files, diags) /\
        file ∈ files /\
        file_package file = Some packageName /\
        fileServices (file_declarations file)
          = List.map (serviceOf program)
              (recursiveAddInterfaces program P [])).
Proof.
  intros Hnd. split; [apply scan_exact, Hnd|]. split; [|split].
  - intros Q iface Hdesc HQ Hin Hcollected.
    apply scan_exact in Hcollected as [Hscan _]; [|exact Hnd].
    eapply scanned_outside_packages; eassumption.
  - intros Q iface Hdesc. apply scan_exact.
    eapply descendant_NoDup; eassumption.
  - intros rk fuel packageName Hranked Hfuel Hentry.
    destruct (cadlToProto_file program rk fuel _ Hranked Hfuel Hentry)
      as (files & diags & file & E & Hfile & Hp & _ & d & d' & Hd & _).
    exists files, diags, file.
    apply declarationsFromNamespace_spec in Hd as (Hsrv & _).
    simpl in *. auto.
Qed.

(** ** Files and their paths *)

Lemma fileOf_packages program fuel first last entries files :
  Forall2 (fileOf program fuel first last) entries files ->
  List.map file_package files
    = List.map (fun entry => Some (snd entry)) entries.
Proof.
  induction 1 as [|entry file entries files (Hp & _) _ IH]; simpl.
  - reflexivity.
  - rewrite Hp, IH. reflexivity.
Qed.

(** C3, as the code has it.  The pass makes a file per declared package
    and nothing else.  A program with no package yields no file, whatever
    services it holds, and the emitter asks nothing of the host.  With
    enough fuel the files of the pass are those of the packages, in
    order, each under its package's name.  The default stem is what
    [doEmit] uses for a file without a package name, which it writes to
    [main.proto] in the output directory itself. *)
Theorem no_packages_no_files (program : Program) (fuel : nat) :
  (packages program = [] ->
   cadlToProto program fuel = Some ([], diagnostics program) /\
   forall emitterOptions, doEmit program fuel emitterOptions = Some []) /\
  (forall rk,
      ranked program rk = true -> enoughFuel program rk <= fuel ->
      exists files diags,
        cadlToProto program fuel = Some (files, diags) /\
        List.map file_package files
          = List.map (fun entry => Some (snd entry)) (packages program)) /\
  (forall dir file,
      file_package file = None ->
      emitFile dir file = [mkdirp [dir]; writeFile [dir; "main.proto"] file]).
Proof.
  split; [|split].
  - intros Hnone. unfold doEmit, cadlToProto. rewrite Hnone. simpl.
    split; [reflexivity|].
    intros emitterOptions. destruct (negb _ && negb _); reflexivity.
  - intros rk Hranked Hfuel.
    destruct (cadlToProto_files program rk fuel Hranked Hfuel)
      as (files & diags & E & Hall).
    exists files, diags. split; [exact E|].
    eapply fileOf_packages, Hall.
  - intros dir file Hfile. unfold emitFile, packageSlug. rewrite Hfile.
    reflexivity.
Qed.

Lemma no_packages_no_files_witness :
  packages exNoPackages = [] /\
  cadlToProto exNoPackages 16 = Some ([], []) /\
  doEmit exNoPackages 16 None = Some [].
Proof.
  split; [reflexivity|].
  destruct (no_packages_no_files exNoPackages 16) as (H & _).
  destruct (H eq_refl) as (H1 & H2).
  split; [exact H1|apply H2].
Defined.

(** C3 as stated fails: the graph of [exNoPackages] declares no package
    and holds three marked interfaces, and the pass yields no file where
    the claim wants one, written to [main]; nothing is asked of the host. *)
Lemma no_packages_not_one_file :
  packages exNoPackages = [] /\
  interface_id exSvc ∈ services exNoPackages /\
  cadlToProto exNoPackages 16 = Some ([], []) /\
  doEmit exNoPackages 16 None = Some [] /\
  ~ exists file diags, cadlToProto exNoPackages 16 = Some ([file], diags).
Proof.
  split; [reflexivity|]. split; [vm_compute; set_solver|].
  split; [reflexivity|]. split; [reflexivity|].
  intros (file & diags & H). discriminate H.
Qed.

(** ** The map constructor *)

(** C4 fails on the code: [map] builds the tuple from whatever it is
    given, and [intrinsicToProto] hands it the casts of any key and value.
    The type [Map<float64, Map<string, string>>] becomes a map whose key is
    ["double"] and whose value is a map. *)
Theorem map_constructor_unchecked :
  addType exOddProgram 3 (Model 0) exStart
    = Some (map (Some "double") (map (Some "string") (scalar "string")),
            exStart) /\
  allowedMapKey (Some "double") = false /\
  allowedMapValue (map (Some "string") (scalar "string")) = false.
Proof. repeat split; reflexivity. Qed.

(** For every map node with a key and a value argument the constructor is
    applied to whatever the two calls of [addType] returned. *)
Lemma intrinsicToProto_map program rec name t keyType valueType rest st :
  isCadlMap program t = true ->
  templateArguments program t = keyType :: valueType :: rest ->
  intrinsicToProto program rec name t st =
  (keyProto <- rec keyType ;;
   value <- rec valueType ;;
   ret (map (index1 keyProto) value)) st.
Proof.
  intros Hmap Hargs. unfold intrinsicToProto. rewrite Hmap, Hargs. reflexivity.
Qed.

(** ** The placeholder and its diagnostics *)

(** C5 as stated fails: an instance of [Cadl.Map] without template
    arguments becomes the placeholder and no diagnostic is reported. *)
Lemma placeholder_without_diagnostic :
  isIntrinsic exOddProgram (Model 4) = true /\
  exists st',
    addType exOddProgram 3 (Model 4) exStart = Some (ref unreachable, st') /\
    reported st' = reported exStart /\
    ~ exists d, reported st' = reported exStart ++ [d].
Proof.
  split; [reflexivity|]. exists exStart. repeat split.
  intros [d H]. discriminate.
Qed.

(** C5, as the code has it.  Each of the calls that may put the
    placeholder for a node returns, with whatever fuel it has, and:
    - a parameter bag without exactly one property, a parameter that is
      no model, a return type that is no model, a field type that is
      neither intrinsic nor a model, and an intrinsic outside the table
      each give the placeholder and add exactly one diagnostic, touching
      nothing else;
    - an intrinsic [Cadl.Map] that lacks its key or value argument gives
      the placeholder and leaves the state as it was;
    - in every other case the value returned is the translation of the
      node: the reference to the model by its name, the value that the
      table yields, or a map. *)
Theorem placeholder_paths (program : Program) (fuel : nat) (st : Lowering) :
  (forall model,
      length (model_properties (deref program model)) <> 1 ->
      addModelAsInput program fuel model st
        = substituted (wrongNumber model) st) /\
  (forall model param k,
      model_properties (deref program model) = [param] ->
      property_type param = OtherKind k ->
      addModelAsInput program fuel model st
        = substituted (wrongType (OtherKind k)) st) /\
  (forall k,
      addReturnType program fuel (OtherKind k) st
        = substituted (unsupportedReturnType (OtherKind k)) st) /\
  (forall k,
      isIntrinsic program (OtherKind k) = false ->
      addType program (S fuel) (OtherKind k) st
        = substituted (unconvertible k) st) /\
  (forall t,
      isIntrinsic program t = true -> isCadlMap program t = false ->
      getProperty (getIntrinsicModelName program t) = None ->
      addType program (S fuel) t st
        = substituted (unknownIntrinsic (getIntrinsicModelName program t) t)
            st) /\
  (forall t,
      isIntrinsic program t = true -> isCadlMap program t = true ->
      length (templateArguments program t) < 2 ->
      addType program (S fuel) t st = Some (ref unreachable, st)) /\
  (forall model input r st',
      inputModel program model = Some input ->
      addModelAsInput program fuel model st = Some (r, st') ->
      r = ref (modelName program input)) /\
  (forall m r st',
      addReturnType program fuel (Model m) st = Some (r, st') ->
      r = ref (modelName program m)) /\
  (forall m r st',
      isIntrinsic program (Model m) = false ->
      addType program (S fuel) (Model m) st = Some (r, st') ->
      r = ref (modelName program m)) /\
  (forall t value,
      isIntrinsic program t = true -> isCadlMap program t = false ->
      getProperty (getIntrinsicModelName program t) = Some value ->
      addType program (S fuel) t st = Some (value, st)) /\
  (forall t r st',
      isIntrinsic program t = true -> isCadlMap program t = true ->
      2 <= length (templateArguments program t) ->
      addType program (S fuel) t st = Some (r, st') ->
      exists k v, r = map k v).
Proof.
  repeat split.
  - intros model H. apply addModelAsInput_wrongNumber. exact H.
  - intros model param k Hp Ht. unfold addModelAsInput. rewrite Hp. simpl.
    rewrite Ht. reflexivity.
  - intros k Hi. simpl. unfold addType_body. rewrite Hi. reflexivity.
  - intros t Hi Hm Hg. simpl. unfold addType_body, intrinsicToProto.
    rewrite Hi, Hm, Hg. reflexivity.
  - intros t Hi Hm Hlen. simpl. unfold addType_body, intrinsicToProto.
    rewrite Hi, Hm.
    destruct (templateArguments program t) as [|? [|? ?]]; try reflexivity.
    simpl in Hlen. lia.
  - intros model input r st' Hin H.
    apply addModelAsInput_spec in H as (-> & _). rewrite Hin. reflexivity.
  - intros m r st' H. apply addReturnType_spec in H as (-> & _). reflexivity.
  - intros m r st' Hi H. simpl in H. unfold addType_body in H.
    rewrite Hi in H. apply bind_Some in H as ([] & st1 & _ & H).
    injection H as <- _. reflexivity.
  - intros t value Hi Hm Hg. simpl. unfold addType_body, intrinsicToProto.
    rewrite Hi, Hm, Hg. reflexivity.
  - intros t r st' Hi Hm Hlen H. simpl in H.
    unfold addType_body, intrinsicToProto in H. rewrite Hi, Hm in H.
    destruct (templateArguments program t) as [|keyType [|valueType ?]];
      [simpl in Hlen; lia|simpl in Hlen; lia|].
    apply bind_Some in H as (keyProto & st1 & _ & H).
    apply bind_Some in H as (value & st2 & _ & H).
    injection H as <- _. eauto.
Qed.

Lemma placeholder_paths_witness :
  length (model_properties (deref exProgram 4)) <> 1 /\
  addModelAsInput exProgram 16 4 exStart
    = Some (ref unreachable, withReported exStart (wrongNumber 4)) /\
  isIntrinsic exOddProgram (Model 6) = true /\
  addType exOddProgram 17 (Model 6) exStart
    = Some (ref unreachable,
            withReported exStart (unknownIntrinsic "plainDate" (Model 6))) /\
  addType exOddProgram 17 (Model 4) exStart = Some (ref unreachable, exStart).
Proof.
  destruct (placeholder_paths exProgram 16 exStart) as (H1 & _).
  destruct (placeholder_paths exOddProgram 16 exStart)
    as (_ & _ & _ & _ & H5 & H6 & _).
  split; [simpl; lia|]. split; [apply H1; simpl; lia|].
  split; [reflexivity|].
  split; [apply (H5 (Model 6)); reflexivity|].
  apply (H6 (Model 4)); [reflexivity|reflexivity|simpl; lia].
Defined.

(** ** The table of intrinsics *)

(** The first half of C8: an intrinsic that is no map and whose name is in
    the table becomes the scalar listed there, with no diagnostic. *)
Lemma intrinsic_table program rec t st name value :
  isCadlMap program t = false ->
  In (name, value)
     [ ("bytes", scalar "bytes"); ("boolean", scalar "bool");
       ("int32", scalar "int32"); ("int64", scalar "int64");
       ("uint32", scalar "uint32"); ("uint64", scalar "uint64");
       ("string", scalar "string"); ("float32", scalar "float");
       ("float64", scalar "double") ] ->
  intrinsicToProto program rec name t st = Some (value, st).
Proof.
  intros Hm Hin. unfold intrinsicToProto. rewrite Hm.
  simpl in Hin.
  repeat (destruct Hin as [Hin|Hin]; [injection Hin as <- <-; reflexivity|]).
  destruct Hin.
Qed.

(** The second half holds for the names that an object literal does not
    inherit either. *)
Lemma unknown_intrinsic_reported program rec t st name :
  isCadlMap program t = false ->
  ownProperty protoTypeTable name = None ->
  existsb (String.eqb name) objectPrototype = false ->
  intrinsicToProto program rec name t st
    = substituted (unknownIntrinsic name t) st.
Proof.
  intros Hm Hown Hproto. unfold intrinsicToProto, getProperty.
  rewrite Hm, Hown, Hproto. reflexivity.
Qed.

(** C8 fails on the code for the names of the members of
    [Object.prototype]: the table is an object literal, indexing it with
    such a name finds the inherited member, which is not falsy, so no
    diagnostic is raised and the member itself is returned where the
    placeholder was due.  ["constructor"] is not in the table, and the
    intrinsic of that name is neither reported nor replaced. *)
Theorem inherited_name_not_reported :
  ownProperty protoTypeTable "constructor" = None /\
  isCadlMap exOddProgram (Model 5) = false /\
  getIntrinsicModelName exOddProgram (Model 5) = "constructor" /\
  addType exOddProgram 3 (Model 5) exStart
    = Some (inherited "constructor", exStart) /\
  forall program rec t st name,
    isCadlMap program t = false ->
    In name objectPrototype ->
    intrinsicToProto program rec name t st = Some (inherited name, st).
Proof.
  repeat split.
  intros program rec t st name Hm Hin. unfold intrinsicToProto. rewrite Hm.
  simpl in Hin.
  repeat (destruct Hin as [Hin|Hin]; [subst name; reflexivity|]).
  destruct Hin.
Qed.

(** ** Field indices *)

Lemma number_le_spec a b : number_le a b = true <-> (a <= b)%Q.
Proof. apply Qle_bool_iff. Qed.

Lemma number_gt_spec a b : number_gt a b = true <-> (b < a)%Q.
Proof.
  unfold number_gt. rewrite negb_true_iff, <- not_true_iff_false, Qle_bool_iff.
  split; [apply Qnot_le_lt|apply Qlt_not_le].
Qed.

Section FieldIndex.
Variable validateDecoratorTarget :
  Program -> DecoratorTarget -> string -> string -> bool.
Variable validateDecoratorParamType :
  Program -> DecoratorTarget -> number -> string -> bool.
Variable program : Program.
Variable target : DecoratorTarget.
Variable i : number.
Hypothesis HvalidTarget :
  validateDecoratorTarget program target "@field" "ModelProperty" = true.
Hypothesis HvalidParam :
  validateDecoratorParamType program target i "Number" = true.

Local Abbreviation run :=
  (field validateDecoratorTarget validateDecoratorParamType program target i).

Lemma fieldOutcome_intro program' added :
  diagnostics program' = diagnostics program ++ added ->
  fieldOutcome (Returned program') program target added
    (fieldIndices program').
Proof.
  intros Hd. exists program'. repeat split; try assumption.
  intros rec property Hid. unfold toField, fieldWith. rewrite Hid.
  reflexivity.
Qed.

(** C7. The checks of [$field] on a property that the host's validators
    accept.
    - An index that is not an integer, or is not positive: the [invalid]
      diagnostic is added and the index map is left as it was.
    - A positive integer above 2^29-1: the [out-of-bounds] diagnostic is
      added and the index map is left as it was.
    For a positive integer up to 2^29-1 the parent of the property
    decides.  Where it is a model statement:
    - within 19000..19999 the [reserved] diagnostic is added and the
      index is recorded;
    - otherwise no diagnostic is added and the index is recorded.
    Where it is anything else (the property of a model expression, such
    as an inline model or the parameters of an operation), [$field]
    throws its internal error and records no index, having added the
    [reserved] diagnostic first within 19000..19999 and none otherwise.
    In each case the field that [toField] declares for the property has
    the index that the map then holds for it: [i] where it was recorded,
    and what it had before (none, if it was never given one) where it was
    not. *)
Theorem field_index_checked :
  (Number_isInteger i = false \/ (i <= 0)%Q ->
   fieldOutcome run program target
     [fieldIndexDiagnostic "invalid" [("index", FormatNumber i)] target]
     (fieldIndices program)) /\
  (Number_isInteger i = true -> (0 < i)%Q -> (MAX_FIELD_INDEX < i)%Q ->
   fieldOutcome run program target
     [fieldIndexDiagnostic "out-of-bounds"
        [("index", FormatNumber i); ("max", FormatNumber MAX_FIELD_INDEX)]
        target]
     (fieldIndices program)) /\
  (Number_isInteger i = true -> (0 < i)%Q -> (i <= MAX_FIELD_INDEX)%Q ->
   target_parent target = Some ModelStatement ->
   ((inject_Z 19000 <= i)%Q /\ (i <= inject_Z 19999)%Q ->
    fieldOutcome run program target
      [fieldIndexDiagnostic "reserved" [("index", FormatNumber i)] target]
      (<[target_id target := i]> (fieldIndices program)) /\
    <[target_id target := i]> (fieldIndices program) !! target_id target
      = Some i) /\
   (~ ((inject_Z 19000 <= i)%Q /\ (i <= inject_Z 19999)%Q) ->
    fieldOutcome run program target []
      (<[target_id target := i]> (fieldIndices program)) /\
    <[target_id target := i]> (fieldIndices program) !! target_id target
      = Some i)) /\
  (Number_isInteger i = true -> (0 < i)%Q -> (i <= MAX_FIELD_INDEX)%Q ->
   target_parent target <> Some ModelStatement ->
   ((inject_Z 19000 <= i)%Q /\ (i <= inject_Z 19999)%Q ->
    fieldThrows run program
      [fieldIndexDiagnostic "reserved" [("index", FormatNumber i)] target]) /\
   (~ ((inject_Z 19000 <= i)%Q /\ (i <= inject_Z 19999)%Q) ->
    fieldThrows run program [])).
Proof.
  unfold field. rewrite HvalidTarget, HvalidParam. simpl.
  split; [|split; [|split]].
  - intros H.
    assert (E : negb (Number_isInteger i) || number_le i 0%Q = true).
    { destruct H as [->|H]; [reflexivity|].
      apply number_le_spec in H. rewrite H. apply orb_true_r. }
    rewrite E. apply (fieldOutcome_intro (withDiagnostic program _)).
    reflexivity.
  - intros Hint Hpos Hmax.
    assert (E1 : number_le i 0%Q = false).
    { apply not_true_iff_false. rewrite number_le_spec.
      apply Qlt_not_le, Hpos. }
    assert (E2 : number_gt i MAX_FIELD_INDEX = true)
      by (apply number_gt_spec, Hmax).
    rewrite Hint, E1, E2. simpl.
    apply (fieldOutcome_intro (withDiagnostic program _)). reflexivity.
  - intros Hint Hpos Hmax Hparent.
    assert (E1 : number_le i 0%Q = false).
    { apply not_true_iff_false. rewrite number_le_spec.
      apply Qlt_not_le, Hpos. }
    assert (E2 : number_gt i MAX_FIELD_INDEX = false).
    { apply not_true_iff_false. rewrite number_gt_spec.
      apply Qle_not_lt, Hmax. }
    rewrite Hint, E1, E2, Hparent. simpl. split.
    + intros [Hlo Hhi].
      apply number_le_spec in Hlo, Hhi. rewrite Hlo, Hhi. simpl.
      split; [|apply lookup_insert_eq].
      apply (fieldOutcome_intro
               (setFieldIndex (withDiagnostic program _) _ _)).
      reflexivity.
    + intros Hout.
      assert (E3 : number_le (inject_Z 19000) i
                   && number_le i (inject_Z 19999) = false).
      { apply not_true_iff_false. rewrite andb_true_iff, !number_le_spec.
        exact Hout. }
      rewrite E3. split; [|apply lookup_insert_eq].
      apply (fieldOutcome_intro (setFieldIndex program _ _)).
      simpl. rewrite app_nil_r. reflexivity.
  - intros Hint Hpos Hmax Hparent.
    assert (E1 : number_le i 0%Q = false).
    { apply not_true_iff_false. rewrite number_le_spec.
      apply Qlt_not_le, Hpos. }
    assert (E2 : number_gt i MAX_FIELD_INDEX = false).
    { apply not_true_iff_false. rewrite number_gt_spec.
      apply Qle_not_lt, Hmax. }
    rewrite Hint, E1, E2. simpl. split.
    + intros [Hlo Hhi].
      apply number_le_spec in Hlo, Hhi. rewrite Hlo, Hhi. simpl.
      exists (withDiagnostic program
                (fieldIndexDiagnostic "reserved"
                   [("index", FormatNumber i)] target)).
      split; [|split; [reflexivity|split; reflexivity]].
      destruct (target_parent target) as [[|other]|];
        [contradiction|reflexivity|reflexivity].
    + intros Hout.
      assert (E3 : number_le (inject_Z 19000) i
                   && number_le i (inject_Z 19999) = false).
      { apply not_true_iff_false. rewrite andb_true_iff, !number_le_spec.
        exact Hout. }
      rewrite E3.
      exists program. split; [|split; [|split; reflexivity]].
      * destruct (target_parent target) as [[|other]|];
          [contradiction|reflexivity|reflexivity].
      * rewrite app_nil_r. reflexivity.
Qed.
End FieldIndex.

Lemma field_index_checked_witness :
  Number_isInteger (inject_Z 19500) = true /\
  (0 < inject_Z 19500)%Q /\
  (inject_Z 19500 <= MAX_FIELD_INDEX)%Q /\
  target_parent exTarget = Some ModelStatement /\
  ((inject_Z 19000 <= inject_Z 19500)%Q /\
   (inject_Z 19500 <= inject_Z 19999)%Q) /\
  fieldOutcome
    (field (fun _ _ _ _ => true) (fun _ _ _ _ => true) exProgram exTarget
       (inject_Z 19500))
    exProgram exTarget
    [fieldIndexDiagnostic "reserved"
       [("index", FormatNumber (inject_Z 19500))] exTarget]
    (<[12 := inject_Z 19500]> (fieldIndices exProgram)).
Proof.
  assert (Hint : Number_isInteger (inject_Z 19500) = true) by reflexivity.
  assert (Hpos : (0 < inject_Z 19500)%Q) by reflexivity.
  assert (Hmax : (inject_Z 19500 <= MAX_FIELD_INDEX)%Q)
    by (intros H; discriminate H).
  assert (Hrange : (inject_Z 19000 <= inject_Z 19500)%Q /\
                   (inject_Z 19500 <= inject_Z 19999)%Q)
    by (split; intros H; discriminate H).
  repeat (split; [first [assumption | reflexivity | apply Hrange]|]).
  destruct (field_index_checked (fun _ _ _ _ => true) (fun _ _ _ _ => true)
              exProgram exTarget (inject_Z 19500) eq_refl eq_refl)
    as (_ & _ & H & _).
  destruct (H Hint Hpos Hmax eq_refl) as [Hreserved _].
  apply Hreserved. exact Hrange.
Defined.

(** C7 as it was put does not hold of a property whose parent is not a
    model statement: with an index the checks let through, 5 or the
    reserved 19500, [$field] throws and the index is not recorded. *)
Lemma field_throws_outside_model_statement :
  target_parent exInline = Some (OtherSyntaxKind "ModelExpression") /\
  field (fun _ _ _ _ => true) (fun _ _ _ _ => true) exProgram exInline
    (inject_Z 5)
    = ThrownInternalError exProgram "model property parent is not a model" /\
  field (fun _ _ _ _ => true) (fun _ _ _ _ => true) exProgram exInline
    (inject_Z 19500)
    = ThrownInternalError
        (withDiagnostic exProgram
           (fieldIndexDiagnostic "reserved"
              [("index", FormatNumber (inject_Z 19500))] exInline))
        "model property parent is not a model" /\
  fieldIndices exProgram !! target_id exInline = None /\
  (~ fieldOutcome
       (field (fun _ _ _ _ => true) (fun _ _ _ _ => true) exProgram exInline
          (inject_Z 5))
       exProgram exInline []
       (<[target_id exInline := inject_Z 5]> (fieldIndices exProgram))) /\
  (~ fieldOutcome
       (field (fun _ _ _ _ => true) (fun _ _ _ _ => true) exProgram exInline
          (inject_Z 19500))
       exProgram exInline
       [fieldIndexDiagnostic "reserved"
          [("index", FormatNumber (inject_Z 19500))] exInline]
       (<[target_id exInline := inject_Z 19500]> (fieldIndices exProgram))).
Proof.
  split; [reflexivity|]. split; [reflexivity|]. split; [reflexivity|].
  split; [reflexivity|].
  split; intros (program' & H & _); discriminate H.
Qed.

(** ** The properties on the example graph *)

Lemma exProgram_ranked : ranked exProgram exRank = true.
Proof. vm_compute. reflexivity. Qed.

Lemma exProgram_fuel : enoughFuel exProgram exRank <= 16.
Proof. vm_compute. lia. Qed.

Lemma exNode_in_cycle : inReferenceCycle exProgram 0.
Proof.
  apply reaches_field. exists (exProperty 10 "next" (Model 0)).
  split; [left; reflexivity|reflexivity].
Qed.

Lemma exPeer_in_cycle : inReferenceCycle exProgram 1.
Proof.
  apply reaches_further with (m1 := 0).
  - exists (exProperty 13 "back" (Model 0)).
    split; [left; reflexivity|reflexivity].
  - apply reaches_field. exists (exProperty 11 "peer" (Model 1)).
    split; [right; left; reflexivity|reflexivity].
Qed.

Lemma cadlToProto_terminates_witness :
  ranked exProgram exRank = true /\
  enoughFuel exProgram exRank <= 16 /\
  inReferenceCycle exProgram 0 /\
  inReferenceCycle exProgram 1 /\
  (exists files diags,
      cadlToProto exProgram 16 = Some (files, diags) /\
      length files = length (packages exProgram)) /\
  (exists st',
      visitType exProgram (addType exProgram 16) 0 exStart = Some (tt, st') /\
      0 ∈ visitedTypes st') /\
  (exists st',
      visitType exProgram (addType exProgram 16) 1 exStart = Some (tt, st') /\
      1 ∈ visitedTypes st').
Proof.
  destruct (cadlToProto_terminates exProgram exRank 16
              exProgram_ranked exProgram_fuel) as (H1 & H2 & _).
  split; [exact exProgram_ranked|]. split; [exact exProgram_fuel|].
  split; [exact exNode_in_cycle|]. split; [exact exPeer_in_cycle|].
  split; [exact H1|]. split; apply H2.
Defined.

Lemma shared_model_declared_once_witness :
  usesModel exProgram exFirst 0 /\
  usesModel exProgram exThird 0 /\
  exFirst <> exThird /\
  exists files diags file,
    cadlToProto exProgram 16 = Some (files, diags) /\
    file ∈ files /\
    file_package file = Some "a.b" /\
    refersTo (methodOf exProgram exFirst) (ref "Node") /\
    refersTo (methodOf exProgram exThird) (ref "Node") /\
    exists L : list nat,
      NoDup L /\ 0 ∈ L /\
      List.map message_name (fileMessages (file_declarations file))
        = List.map (modelName exProgram) L.
Proof.
  assert (H1 : usesModel exProgram exFirst 0) by (left; reflexivity).
  assert (H3 : usesModel exProgram exThird 0) by (left; reflexivity).
  split; [exact H1|]. split; [exact H3|]. split; [discriminate|].
  destruct (shared_model_declared_once exProgram exRank 16 exP "a.b"
              exSvc exSvc exFirst exThird 0
              exProgram_ranked exProgram_fuel)
    as (files & diags & file & E & Hfile & Hp & _ & R1 & R3 & L & Hnd & HL
        & Hn & _);
    try assumption; try in_list.
  exists files, diags, file. repeat (split; [assumption|]).
  exists L. auto.
Defined.

Lemma wrong_number_reported_witness :
  parameterCount exProgram exSecond <> 1 /\
  exists files diags file,
    cadlToProto exProgram 16 = Some (files, diags) /\
    wrongNumber 4 ∈ diags /\
    method_input (methodOf exProgram exSecond) = ref unreachable /\
    file ∈ files /\
    file_package file = Some "a.b" /\
    fileServices (file_declarations file)
      = List.map (serviceOf exProgram) [exSvc; exSide].
Proof.
  assert (Hne : parameterCount exProgram exSecond <> 1)
    by (vm_compute; lia).
  split; [exact Hne|].
  destruct (wrong_number_reported exProgram exRank 16 exP "a.b"
              exSvc exSecond exProgram_ranked exProgram_fuel)
    as (_ & H); try assumption; try in_list.
Defined.


Lemma scan_stops_at_packages_witness :
  NoDup (List.map interface_id (allInterfaces exP)) /\
  descendant exP exQ /\
  isPackage exProgram exQ = true /\
  isPackage exProgram exN = false /\
  (exInner ∉ recursiveAddInterfaces exProgram exP []) /\
  (exInner ∈ recursiveAddInterfaces exProgram exQ []) /\
  (exSide ∈ recursiveAddInterfaces exProgram exP []).
Proof.
  assert (Hnd : NoDup (List.map interface_id (allInterfaces exP))).
  { apply (bool_decide_unpack _). vm_compute. reflexivity. }
  assert (HQ : descendant exP exQ) by (apply descendant_child; in_list).
  assert (HN : descendant exP exN) by (apply descendant_child; in_list).
  destruct (scan_stops_at_packages exProgram exP Hnd) as (H1 & H2 & H3 & _).
  split; [exact Hnd|]. split; [exact HQ|].
  split; [reflexivity|]. split; [reflexivity|].
  split; [|split].
  - apply (H2 exQ exInner HQ); [reflexivity|in_list].
  - apply (H3 exQ exInner HQ). split.
    + apply scanned_member. in_list.
    + vm_compute. set_solver.
  - apply H1. split.
    + apply scanned_nested with (nested := exN);
        [in_list|reflexivity|apply scanned_member; in_list].
    + vm_compute. set_solver.
Defined.

(** * Further properties *)

(** ** The wire type of a type *)

Lemma wireType_functional program t r1 :
  wireType program t r1 -> forall r2, wireType program t r2 -> r1 = r2.
Proof.
  induction 1 as [t keyType valueType rest keyProto value Hi Hm Hargs _ IHk _ IHv
                 |t Hi Hm Hlen|t protoType Hi Hm Hp|t Hi Hm Hp|m Hi|k Hi];
    intros r2 H2; inversion H2; subst; try congruence.
  - match goal with
    | Ha : templateArguments program t = _ :: _ :: _ |- _ =>
        rewrite Hargs in Ha; injection Ha as <- <- <-
    end.
    f_equal; [f_equal; apply IHk|apply IHv]; assumption.
  - match goal with
    | Hl : length (templateArguments program t) < 2 |- _ =>
        rewrite Hargs in Hl; simpl in Hl; lia
    end.
  - match goal with
    | Ha : templateArguments program t = _ :: _ :: _ |- _ =>
        rewrite Ha in Hlen; simpl in Hlen; lia
    end.
Qed.

(** ** The walk of [addType] over the models *)

Lemma touches_intrinsic program t m :
  isIntrinsic program t = true -> touches program t m ->
  exists keyType valueType rest argument,
    isCadlMap program t = true /\
    templateArguments program t = keyType :: valueType :: rest /\
    (argument = keyType \/ argument = valueType) /\
    touches program argument m.
Proof.
  intros Hi H. inversion H as [m0 Hn|t0 k v rest a m0 Hnode Hargs Ha Ht]; subst.
  - congruence.
  - unfold isMapNode in Hnode. apply andb_true_iff in Hnode as [_ Hm].
    exists k, v, rest, a. auto.
Qed.

Lemma touches_plain program t m :
  isIntrinsic program t = false -> touches program t m -> t = Model m.
Proof.
  intros Hi H. inversion H as [m0 Hn|t0 k v rest a m0 Hnode Hargs Ha Ht]; subst.
  - reflexivity.
  - unfold isMapNode in Hnode. rewrite Hi in Hnode. discriminate.
Qed.

Lemma owes_map program t d :
  isIntrinsic program t = true -> isCadlMap program t = true ->
  owes program t d ->
  exists keyType valueType rest argument,
    templateArguments program t = keyType :: valueType :: rest /\
    (argument = keyType \/ argument = valueType) /\
    owes program argument d.
Proof.
  intros Hi Hm H.
  inversion H as [t0 Hi' Hm' Hp|k Hn|t0 k v rest a d0 Hnode Hargs Ha Ho]; subst.
  - congruence.
  - congruence.
  - exists k, v, rest, a. auto.
Qed.

Lemma owes_intrinsic program t d :
  isIntrinsic program t = true -> isCadlMap program t = false ->
  owes program t d ->
  getProperty (getIntrinsicModelName program t) = None /\
  d = unknownIntrinsic (getIntrinsicModelName program t) t.
Proof.
  intros Hi Hm H.
  inversion H as [t0 Hi' Hm' Hp|k Hn|t0 k v rest a d0 Hnode Hargs Ha Ho]; subst.
  - auto.
  - congruence.
  - unfold isMapNode in Hnode. rewrite Hi, Hm in Hnode. discriminate.
Qed.

Lemma owes_plain program t d :
  isIntrinsic program t = false -> owes program t d ->
  exists k, t = OtherKind k /\ d = unconvertible k.
Proof.
  intros Hi H.
  inversion H as [t0 Hi' Hm' Hp|k Hn|t0 k v rest a d0 Hnode Hargs Ha Ho]; subst.
  - congruence.
  - eauto.
  - unfold isMapNode in Hnode. rewrite Hi in Hnode. discriminate.
Qed.

Section Grows.
Variable program : Program.

Lemma grows_refl (S : nat -> Prop) (D : Diagnostic -> Prop) st :
  grows program S D st st.
Proof.
  exists [], []. simpl. rewrite app_nil_r.
  repeat split; try constructor; try set_solver.
  exists []. rewrite app_nil_r. split; [reflexivity|set_solver].
Qed.

Lemma grows_report (S : nat -> Prop) (D : Diagnostic -> Prop) d st st' :
  D d -> reportDiagnostic d st = Some (tt, st') -> grows program S D st st'.
Proof.
  intros HD H. injection H as <-. exists [], []. simpl. rewrite app_nil_r.
  repeat split; try constructor; try set_solver.
  exists [d]. split; [reflexivity|]. intros d' Hd'.
  apply list_elem_of_singleton in Hd' as ->. auto.
Qed.

Lemma grows_trans (S : nat -> Prop) (D : Diagnostic -> Prop) st1 st2 st3 :
  grows program S D st1 st2 -> grows program S D st2 st3 ->
  grows program S D st1 st3.
Proof.
  intros (L1 & msgs1 & Hd1 & Hm1 & Hnd1 & HL1 & Hs1 & (ds1 & Hr1 & HD1) & Hc1)
         (L2 & msgs2 & Hd2 & Hm2 & Hnd2 & HL2 & Hs2 & (ds2 & Hr2 & HD2) & Hc2).
  exists (L1 ++ L2), (msgs1 ++ msgs2).
  split; [rewrite Hd2, Hd1, List.map_app, app_assoc; reflexivity|].
  split; [apply Forall2_app; assumption|].
  split.
  { apply NoDup_app. repeat split; try assumption.
    intros m H1 H2. apply HL1 in H1. apply HL2 in H2. tauto. }
  split.
  { intros m. rewrite elem_of_app, HL1, HL2.
    destruct (decide (m ∈ visitedTypes st2)); set_solver. }
  split; [set_solver|].
  split.
  { exists (ds1 ++ ds2). split; [rewrite Hr2, Hr1, app_assoc; reflexivity|].
    intros d Hd. apply elem_of_app in Hd as [Hd|Hd].
    - destruct (HD1 d Hd) as [H|(m & Hm & H)]; [auto|]. right. exists m.
      split; [apply elem_of_app; auto|exact H].
    - destruct (HD2 d Hd) as [H|(m & Hm & H)]; [auto|]. right. exists m.
      split; [apply elem_of_app; auto|exact H]. }
  intros m Hm. apply elem_of_app in Hm as [Hm|Hm].
  - destruct (Hc1 m Hm) as (HS & Hc & Ho). split; [exact HS|]. split.
    + intros m' Hr. specialize (Hc m' Hr). set_solver.
    + intros d Hd. rewrite Hr2. apply elem_of_app. left. apply Ho, Hd.
  - apply Hc2, Hm.
Qed.

Lemma grows_weaken (S S' : nat -> Prop) (D D' : Diagnostic -> Prop) st st' :
  (forall m, S m -> S' m) -> (forall d, D d -> D' d) ->
  grows program S D st st' -> grows program S' D' st st'.
Proof.
  intros HS HD (L & msgs & Hd & Hm & Hnd & HL & Hs & (ds & Hr & Hds) & Hc).
  exists L, msgs. do 5 (split; [assumption|]). split.
  - exists ds. split; [exact Hr|]. intros d Hin.
    destruct (Hds d Hin) as [H|H]; auto.
  - intros m Hin. destruct (Hc m Hin) as (H1 & H2 & H3). auto.
Qed.

Lemma grows_visited S D st st' m :
  grows program S D st st' -> m ∈ visitedTypes st -> m ∈ visitedTypes st'.
Proof. intros (L & msgs & _ & _ & _ & _ & Hs & _) H. set_solver. Qed.

Lemma grows_reported S D st st' d :
  grows program S D st st' -> d ∈ reported st -> d ∈ reported st'.
Proof.
  intros (L & msgs & _ & _ & _ & _ & _ & (ds & Hr & _) & _) H.
  rewrite Hr. apply elem_of_app. auto.
Qed.

Section Body.
Variable rec : CadlType -> M ProtoType.
Hypothesis Hrec : forall t st r st',
  rec t st = Some (r, st') -> added program t r st st'.

Lemma fields_grow m : forall ps,
  (forall p, In p ps -> In p (model_properties (deref program m))) ->
  forall st fields st',
  mapM (toField program rec) ps st = Some (fields, st') ->
  Forall2 (fieldOf program) ps fields /\
  grows program
    (fun x => exists root, refersBy program m root /\
                           rtc (refersBy program) root x)
    (owedBy program m) st st' /\
  (forall p m', In p ps -> touches program (property_type p) m' ->
     m' ∈ visitedTypes st') /\
  (forall p d, In p ps -> owes program (property_type p) d ->
     d ∈ reported st').
Proof.
  induction ps as [|p ps IH]; intros Hps st fields st' H; simpl in H.
  - injection H as <- <-. split; [constructor|].
    split; [apply grows_refl|]. split; intros p ? [].
  - apply bind_Some in H as (f & st1 & E1 & H).
    apply bind_Some in H as (fs & st2 & E2 & E3). injection E3 as <- <-.
    unfold toField in E1.
    apply bind_Some in E1 as (type & st0 & E0 & E1). injection E1 as <- <-.
    apply Hrec in E0 as (Hw & Hg & Ht & Ho).
    apply IH in E2 as (Hfs & Hg2 & Ht2 & Ho2);
      [|intros q Hq; apply Hps; right; exact Hq].
    split.
    { constructor; [|exact Hfs]. exists type. split; [exact Hw|reflexivity]. }
    split.
    { apply (grows_trans _ _ st st0 st2); [|exact Hg2].
      eapply grows_weaken; [| |exact Hg].
      - intros x (root & Hroot & Hreach). exists root. split; [|exact Hreach].
        exists p. split; [apply Hps; left; reflexivity|exact Hroot].
      - intros d Hd. exists p. split; [apply Hps; left; reflexivity|exact Hd]. }
    split.
    + intros q m' [<-|Hq] Hm'.
      * eapply grows_visited; [exact Hg2|]. apply Ht, Hm'.
      * eapply Ht2; eassumption.
    + intros q d [<-|Hq] Hd.
      * eapply grows_reported; [exact Hg2|]. apply Ho, Hd.
      * eapply Ho2; eassumption.
Qed.

Lemma visitType_grows m st st' :
  visitType program rec m st = Some (tt, st') ->
  grows program (fun x => rtc (refersBy program) m x) (fun _ => False)
    st st' /\
  m ∈ visitedTypes st'.
Proof.
  intros H.
  destruct (decide (m ∈ visitedTypes st)) as [Hin|Hnot].
  { rewrite visitType_visited in H by exact Hin. injection H as <-.
    split; [apply grows_refl|exact Hin]. }
  rewrite visitType_fresh in H by exact Hnot.
  apply bind_Some in H as ([] & st1 & E1 & H). injection E1 as <-.
  apply bind_Some in H as (message & st2 & E2 & E3). injection E3 as <-.
  unfold toMessage in E2.
  apply bind_Some in E2 as (fields & st3 & E2 & E3). injection E3 as <- <-.
  apply (fields_grow m) in E2
    as (Hfs & (L & msgs & Hd & Hm & Hnd & HL & Hs & (ds & Hr & Hds) & Hc)
        & Ht & Ho);
    [|auto].
  simpl in *. split; [|set_solver].
  exists (L ++ [m]), (msgs ++ [Build_ProtoMessageDeclaration
                                 (model_name (deref program m))
                                 (List.map MemberField fields) None]).
  simpl.
  split; [rewrite Hd, List.map_app, app_assoc; reflexivity|].
  split.
  { apply Forall2_app; [exact Hm|]. constructor; [|constructor].
    exists fields. split; [reflexivity|exact Hfs]. }
  split.
  { apply NoDup_app. repeat split; try assumption.
    - intros m' H1 H2. apply HL in H1.
      apply list_elem_of_singleton in H2 as ->. set_solver.
    - apply NoDup_singleton. }
  split.
  { intros m'. rewrite elem_of_app, HL, list_elem_of_singleton.
    destruct (decide (m' = m)) as [->|Hne]; set_solver. }
  split; [set_solver|]. split.
  { exists ds. split; [exact Hr|]. intros d Hin. right.
    destruct (Hds d Hin) as [H|(x & Hx & H)].
    - exists m. split; [apply elem_of_app; right; left|exact H].
    - exists x. split; [apply elem_of_app; left; exact Hx|exact H]. }
  intros x Hx. apply elem_of_app in Hx as [Hx|Hx].
  - destruct (Hc x Hx) as ((root & Hroot & Hreach) & Hclosed & Howed).
    split; [eapply rtc_l; eassumption|]. auto.
  - apply list_elem_of_singleton in Hx as ->. split; [apply rtc_refl|]. split.
    + intros m' (p & Hp & Hm'). eapply Ht; eassumption.
    + intros d (p & Hp & Hd'). eapply Ho; eassumption.
Qed.

Lemma addType_body_added t st r st' :
  addType_body program rec t st = Some (r, st') -> added program t r st st'.
Proof.
  unfold addType_body, added. intros H.
  destruct (isIntrinsic program t) eqn:Hi.
  - unfold intrinsicToProto in H. destruct (isCadlMap program t) eqn:Hm.
    + assert (Hnode : isMapNode program t = true)
        by (unfold isMapNode; rewrite Hi, Hm; reflexivity).
      destruct (templateArguments program t) as [|keyType [|valueType rest]]
        eqn:Hargs.
      * injection H as <- <-.
        split; [apply wire_map_short; try assumption; rewrite Hargs; simpl; lia|].
        split; [apply grows_refl|]. split.
        -- intros m Ht.
           apply touches_intrinsic in Ht as (? & ? & ? & ? & _ & E & _);
             [congruence|exact Hi].
        -- intros d Hd.
           apply owes_map in Hd as (? & ? & ? & ? & E & _); congruence.
      * injection H as <- <-.
        split; [apply wire_map_short; try assumption; rewrite Hargs; simpl; lia|].
        split; [apply grows_refl|]. split.
        -- intros m Ht.
           apply touches_intrinsic in Ht as (? & ? & ? & ? & _ & E & _);
             [congruence|exact Hi].
        -- intros d Hd.
           apply owes_map in Hd as (? & ? & ? & ? & E & _); congruence.
      * apply bind_Some in H as (keyProto & st1 & E1 & H).
        apply bind_Some in H as (value & st2 & E2 & E3).
        injection E3 as <- <-.
        apply Hrec in E1 as (Hw1 & Hg1 & Ht1 & Ho1).
        apply Hrec in E2 as (Hw2 & Hg2 & Ht2 & Ho2).
        split; [eapply wire_map; eassumption|].
        split.
        { apply (grows_trans _ _ st st1 st2);
            (eapply grows_weaken; [| |eassumption]).
          - intros x (root & Hroot & Hreach). exists root.
            split; [|exact Hreach].
            eapply touches_argument; [exact Hnode|exact Hargs|left; reflexivity|].
            exact Hroot.
          - intros d Hd.
            eapply owes_argument; [exact Hnode|exact Hargs|left; reflexivity|].
            exact Hd.
          - intros x (root & Hroot & Hreach). exists root.
            split; [|exact Hreach].
            eapply touches_argument; [exact Hnode|exact Hargs|right; reflexivity|].
            exact Hroot.
          - intros d Hd.
            eapply owes_argument; [exact Hnode|exact Hargs|right; reflexivity|].
            exact Hd. }
        split.
        -- intros m Ht.
           apply touches_intrinsic in Ht
             as (k & v & rest' & a & _ & E & Ha & Ht); [|exact Hi].
           rewrite Hargs in E. injection E as <- <- <-.
           destruct Ha as [-> | ->].
           ++ eapply grows_visited; [exact Hg2|]. apply Ht1, Ht.
           ++ apply Ht2, Ht.
        -- intros d Hd.
           apply owes_map in Hd as (k & v & rest' & a & E & Ha & Hd);
             try assumption.
           rewrite Hargs in E. injection E as <- <- <-.
           destruct Ha as [-> | ->].
           ++ eapply grows_reported; [exact Hg2|]. apply Ho1, Hd.
           ++ apply Ho2, Hd.
    + assert (Hno : forall m, ~ touches program t m).
      { intros m Ht.
        apply touches_intrinsic in Ht as (? & ? & ? & ? & E & _); [|exact Hi].
        congruence. }
      destruct (getProperty _) as [protoType|] eqn:Hp.
      * injection H as <- <-. split; [apply wire_intrinsic; assumption|].
        split; [apply grows_refl|]. split.
        -- intros m Ht. destruct (Hno m Ht).
        -- intros d Hd. apply owes_intrinsic in Hd as [E _]; try assumption.
           congruence.
      * apply bind_Some in H as ([] & st1 & E1 & E). injection E as <- <-.
        split; [apply wire_unknown; assumption|].
        split.
        { eapply grows_report; [|exact E1]. apply owes_unknown; assumption. }
        split.
        -- intros m Ht. destruct (Hno m Ht).
        -- intros d Hd. apply owes_intrinsic in Hd as [_ ->]; try assumption.
           injection E1 as <-. simpl. apply elem_of_app. right.
           apply list_elem_of_singleton. reflexivity.
  - destruct t as [m|k].
    + apply bind_Some in H as ([] & st1 & E1 & E). injection E as <- <-.
      apply visitType_grows in E1 as [Hg Hin].
      split; [apply wire_model; exact Hi|].
      split.
      { eapply grows_weaken; [| |exact Hg].
        - intros x Hx. exists m.
          split; [apply touches_model; exact Hi|exact Hx].
        - intros d []. }
      split.
      * intros m' Ht. apply touches_plain in Ht; [|exact Hi].
        injection Ht as <-. exact Hin.
      * intros d Hd. apply owes_plain in Hd as (k & E & _); [|exact Hi].
        discriminate.
    + apply bind_Some in H as ([] & st1 & E1 & E). injection E as <- <-.
      split; [apply wire_other; exact Hi|].
      split.
      { eapply grows_report; [|exact E1]. apply owes_unconvertible, Hi. }
      split.
      * intros m Ht. apply touches_plain in Ht; [discriminate|exact Hi].
      * intros d Hd. apply owes_plain in Hd as (k' & E & ->); [|exact Hi].
        injection E as <-. injection E1 as <-. simpl. apply elem_of_app.
        right. apply list_elem_of_singleton. reflexivity.
Qed.
End Body.

Lemma addType_added fuel : forall t st r st',
  addType program fuel t st = Some (r, st') -> added program t r st st'.
Proof.
  induction fuel as [|fuel IH]; intros t st r st' H; [discriminate|].
  simpl in H. eapply addType_body_added; [exact IH|exact H].
Qed.

Variable fuel : nat.

Lemma report_In d st st' :
  reportDiagnostic d st = Some (tt, st') -> d ∈ reported st'.
Proof.
  intros H. injection H as <-. simpl. apply elem_of_app. right.
  apply list_elem_of_singleton. reflexivity.
Qed.

Lemma toMethodFromOperation_grows op st method st' :
  toMethodFromOperation program fuel op st = Some (method, st') ->
  grows program (reachedFrom program op) (operationOwes program op) st st' /\
  (forall d, operationOwes program op d -> d ∈ reported st').
Proof.
  unfold toMethodFromOperation. intros H.
  apply bind_Some in H as (input & st1 & E1 & H).
  apply bind_Some in H as (returns & st2 & E2 & E3). injection E3 as <- <-.
  assert (H1 : grows program (reachedFrom program op)
                 (operationOwes program op) st st1 /\
               (forall d,
                  (parameterCount program op <> 1 /\
                   d = wrongNumber (operation_parameters op)) \/
                  (exists param k,
                     model_properties
                       (deref program (operation_parameters op)) = [param] /\
                     property_type param = OtherKind k /\
                     d = wrongType (OtherKind k)) ->
                  d ∈ reported st1)).
  { unfold addModelAsInput in E1.
    destruct (negb (length _ =? 1)) eqn:Hlen.
    { apply bind_Some in E1 as ([] & st0 & E0 & E). injection E as _ <-.
      apply negb_true_iff, Nat.eqb_neq in Hlen. split.
      - eapply grows_report; [|exact E0]. left. split; [exact Hlen|reflexivity].
      - intros d [[_ ->]|(param & k & Hps & _)].
        + eapply report_In. exact E0.
        + rewrite Hps in Hlen. simpl in Hlen. lia. }
    apply negb_false_iff, Nat.eqb_eq in Hlen.
    destruct (model_properties (deref program (operation_parameters op)))
      as [|param [|? ?]] eqn:Hps; try discriminate Hlen.
    destruct (property_type param) as [input'|k] eqn:Hty.
    + apply bind_Some in E1 as ([] & st0 & E0 & E). injection E as _ <-.
      apply (visitType_grows _ (addType_added fuel)) in E0 as [Hg _].
      split.
      * eapply grows_weaken; [| |exact Hg].
        -- intros x Hx. exists input'.
           split; [|exact Hx]. left. unfold inputModel. rewrite Hps, Hty.
           reflexivity.
        -- intros d [].
      * intros d [[Hne _]|(param' & k & E & Hk & _)].
        -- unfold parameterCount in Hne. rewrite Hps in Hne. simpl in Hne. lia.
        -- injection E as <-. congruence.
    + apply bind_Some in E1 as ([] & st0 & E0 & E). injection E as _ <-.
      split.
      * eapply grows_report; [|exact E0]. right. left. exists param, k.
        auto.
      * intros d [[Hne _]|(param' & k' & E & Hk & ->)].
        -- unfold parameterCount in Hne. rewrite Hps in Hne. simpl in Hne. lia.
        -- injection E as <-. rewrite Hty in Hk. injection Hk as <-.
           eapply report_In. exact E0. }
  assert (H2 : grows program (reachedFrom program op)
                 (operationOwes program op) st1 st2 /\
               (forall k, operation_returnType op = OtherKind k ->
                  unsupportedReturnType (OtherKind k) ∈ reported st2)).
  { unfold addReturnType in E2.
    destruct (operation_returnType op) as [m|k] eqn:Hty.
    + apply bind_Some in E2 as ([] & st0 & E0 & E). injection E as _ <-.
      apply (visitType_grows _ (addType_added fuel)) in E0 as [Hg _].
      split; [|discriminate].
      eapply grows_weaken; [| |exact Hg].
      * intros x Hx. exists m. split; [|exact Hx]. right. rewrite Hty.
        reflexivity.
      * intros d [].
    + apply bind_Some in E2 as ([] & st0 & E0 & E). injection E as _ <-.
      split.
      * eapply grows_report; [|exact E0]. right. right. exists k. auto.
      * intros k' [= <-]. eapply report_In. exact E0. }
  destruct H1 as [Hg1 Hd1], H2 as [Hg2 Hd2].
  split; [apply (grows_trans _ _ st st1 st2); assumption|].
  intros d [Hd|[Hd|(k & Hk & ->)]].
  - eapply grows_reported; [exact Hg2|]. apply Hd1. auto.
  - eapply grows_reported; [exact Hg2|]. apply Hd1. auto.
  - apply Hd2, Hk.
Qed.

Lemma methods_grow (S : nat -> Prop) (D : Diagnostic -> Prop) ops :
  (forall op m, op ∈ ops -> reachedFrom program op m -> S m) ->
  (forall op d, op ∈ ops -> operationOwes program op d -> D d) ->
  forall st methods st',
  mapM (toMethodFromOperation program fuel) ops st = Some (methods, st') ->
  grows program S D st st' /\
  (forall op d, op ∈ ops -> operationOwes program op d -> d ∈ reported st').
Proof.
  induction ops as [|op ops IH]; simpl; intros HS HD st methods st' H.
  - injection H as _ <-. split; [apply grows_refl|]. intros op d Hop.
    inversion Hop.
  - apply bind_Some in H as (method & st1 & E1 & H).
    apply bind_Some in H as (rest & st2 & E2 & E3). injection E3 as _ <-.
    apply toMethodFromOperation_grows in E1 as [Hg1 Hd1].
    apply IH in E2 as [Hg2 Hd2].
    + split.
      * apply (grows_trans _ _ st st1 st2); [|exact Hg2].
        eapply grows_weaken; [| |exact Hg1].
        -- intros m. apply HS. left.
        -- intros d. apply HD. left.
      * intros op' d Hop Hd. apply elem_of_cons in Hop as [->|Hop].
        -- eapply grows_reported; [exact Hg2|]. apply Hd1, Hd.
        -- eapply Hd2; eassumption.
    + intros op' m Hop. apply HS. right. exact Hop.
    + intros op' d Hop. apply HD. right. exact Hop.
Qed.

Lemma complete_grows (S : nat -> Prop) (D : Diagnostic -> Prop) diags st st' :
  complete program S D diags st -> grows program S D st st' ->
  complete program S D diags st'.
Proof.
  intros (L0 & Hnd0 & HL0 & Hm0 & (ds0 & Hr0 & Hds0) & Hc0)
         (L & msgs & Hd & Hm & Hnd & HL & Hs & (ds & Hr & Hds) & Hc).
  exists (L0 ++ L).
  split.
  { apply NoDup_app. repeat split; try assumption.
    intros m H1 H2. apply HL0 in H1. apply HL in H2. tauto. }
  split.
  { intros m. rewrite elem_of_app, HL0, HL.
    destruct (decide (m ∈ visitedTypes st)); set_solver. }
  split.
  { rewrite Hd, fileMessages_app, fileMessages_messages.
    apply Forall2_app; assumption. }
  split.
  { exists (ds0 ++ ds). split; [rewrite Hr, Hr0, app_assoc; reflexivity|].
    intros d Hin. apply elem_of_app in Hin as [Hin|Hin].
    - destruct (Hds0 d Hin) as [H|(m & Hm' & H)]; [auto|]. right. exists m.
      split; [apply elem_of_app; auto|exact H].
    - destruct (Hds d Hin) as [H|(m & Hm' & H)]; [auto|]. right. exists m.
      split; [apply elem_of_app; auto|exact H]. }
  intros m Hin. apply elem_of_app in Hin as [Hin|Hin].
  - destruct (Hc0 m Hin) as (HS & Hcl & Ho). split; [exact HS|]. split.
    + intros m' Hr'. specialize (Hcl m' Hr'). set_solver.
    + intros d Hd'. rewrite Hr. apply elem_of_app. left. apply Ho, Hd'.
  - apply Hc, Hin.
Qed.

Lemma reifyServices_complete (S : nat -> Prop) (D : Diagnostic -> Prop)
    diags ifaces :
  (forall iface op m,
     iface ∈ ifaces -> op ∈ interface_operations iface ->
     reachedFrom program op m -> S m) ->
  (forall iface op d,
     iface ∈ ifaces -> op ∈ interface_operations iface ->
     operationOwes program op d -> D d) ->
  forall st st',
  reifyServices program fuel ifaces st = Some (tt, st') ->
  complete program S D diags st ->
  complete program S D diags st' /\
  (forall d, d ∈ reported st -> d ∈ reported st') /\
  (forall iface op d,
     iface ∈ ifaces -> op ∈ interface_operations iface ->
     operationOwes program op d -> d ∈ reported st').
Proof.
  induction ifaces as [|iface ifaces IH]; simpl; intros HS HD st st' H Hc.
  - injection H as <-. split; [exact Hc|]. split; [auto|].
    intros iface op d Hi. inversion Hi.
  - apply bind_Some in H as (methods & st1 & E1 & H).
    apply bind_Some in H as ([] & st2 & E2 & E3). injection E2 as <-.
    apply (methods_grow S D) in E1 as [Hg Hd1];
      [|intros op m Hop; apply (HS iface op m); [left|exact Hop]
       |intros op d Hop; apply (HD iface op d); [left|exact Hop]].
    pose proof (complete_grows S D diags st st1 Hc Hg)
      as (L & Hnd & HL & Hm & Hr & Hcl).
    apply IH in E3 as (Hc' & Hmono & Hd2).
    + split; [exact Hc'|]. split.
      * intros d Hd. apply Hmono. simpl. eapply grows_reported; eassumption.
      * intros iface' op d Hi Ho Hd. apply elem_of_cons in Hi as [->|Hi].
        -- apply Hmono. simpl. eapply Hd1; eassumption.
        -- eapply Hd2; eassumption.
    + intros iface' op m Hi. apply HS. right. exact Hi.
    + intros iface' op d Hi. apply HD. right. exact Hi.
    + exists L. simpl. rewrite fileMessages_app. simpl. rewrite app_nil_r.
      auto.
Qed.

(** The messages of the file of a namespace, and the diagnostics that
    the pass adds for it. *)
Lemma declarationsFromNamespace_messages namespace diags decls diags' :
  declarationsFromNamespace program fuel namespace diags
    = Some (decls, diags') ->
  (exists L : list nat,
      NoDup L /\
      (forall m, m ∈ L <-> needed program namespace m) /\
      Forall2 (mirrors program) L (fileMessages decls)) /\
  (exists ds,
      diags' = diags ++ ds /\
      forall d, d ∈ ds -> fileOwes program namespace d) /\
  (forall d, fileOwes program namespace d -> d ∈ diags').
Proof.
  intros H. unfold declarationsFromNamespace in H.
  destruct (reifyServices program fuel _ _) as [[[] st]|] eqn:E;
    [|discriminate].
  injection H as <- <-.
  pose proof E as Hspec.
  apply reifyServices_spec in Hspec as (_ & _ & _ & _ & Hcov).
  2:{ exists []. simpl. repeat split; try constructor; set_solver. }
  2:{ intros i s method r Hlook. simpl in Hlook. discriminate. }
  apply (reifyServices_complete
           (needed program namespace)
           (fun d => exists iface op,
                iface ∈ recursiveAddInterfaces program namespace [] /\
                op ∈ interface_operations iface /\
                operationOwes program op d) diags) in E
    as ((L & Hnd & HL & Hm & (ds & Hr & Hds) & Hcl) & _ & Hops).
  - assert (Hneeded : forall m, m ∈ L <-> needed program namespace m).
    { intros m. split; [intros Hin; apply Hcl, Hin|].
      intros (iface & op & root & Hi & Ho & Hu & Hreach). apply HL.
      assert (Hroot : root ∈ visitedTypes st)
        by (eapply (Hcov iface op); eassumption).
      clear Hu. induction Hreach as [x|x y z Hxy _ IHr]; [exact Hroot|].
      apply IHr. apply (Hcl x); [apply HL; exact Hroot|exact Hxy]. }
    split; [exists L; auto|]. split.
    + exists ds. split; [exact Hr|]. intros d Hin.
      destruct (Hds d Hin) as [H|(m & Hin' & H)]; [left; exact H|].
      right. exists m. split; [apply Hneeded, Hin'|exact H].
    + intros d [(iface & op & Hi & Ho & Hd)|(m & Hm' & Hd)].
      * eapply Hops; eassumption.
      * apply (Hcl m); [apply Hneeded, Hm'|exact Hd].
  - intros iface op m Hi Ho (root & Hu & Hreach).
    exists iface, op, root. auto.
  - intros iface op d Hi Ho Hd. exists iface, op. auto.
  - exists []. simpl. split; [constructor|]. split; [set_solver|].
    split; [constructor|]. split; [|set_solver].
    exists []. rewrite app_nil_r. split; [reflexivity|set_solver].
Qed.
End Grows.

(** ** The messages of a file *)

Lemma ownProperty_In table name value :
  ownProperty table name = Some value -> In (name, value) table.
Proof.
  induction table as [|[key value'] table IH]; simpl; [discriminate|].
  destruct (String.eqb key name) eqn:E.
  - apply String.eqb_eq in E as ->. intros [= <-]. left. reflexivity.
  - intros H. right. apply IH, H.
Qed.

Lemma protoTypeTable_scalar name value :
  ownProperty protoTypeTable name = Some value -> exists s, value = scalar s.
Proof.
  intros H. apply ownProperty_In in H. unfold protoTypeTable in H.
  simpl in H. repeat destruct H as [[= <- <-]|H]; try destruct H; eauto.
Qed.

Lemma getProperty_refs name protoType :
  getProperty name = Some protoType -> refsIn protoType = [].
Proof.
  unfold getProperty.
  destruct (ownProperty protoTypeTable name) as [value|] eqn:E.
  - intros [= <-]. apply protoTypeTable_scalar in E as [s ->]. reflexivity.
  - destruct (existsb (String.eqb name) objectPrototype);
      [intros [= <-]; reflexivity|discriminate].
Qed.

Lemma wireType_refs program t r n :
  wireType program t r -> n ∈ refsIn r ->
  n = unreachable \/ exists m, touches program t m /\ n = modelName program m.
Proof.
  induction 1 as [t keyType valueType rest keyProto value Hi Hm Hargs _ _ _ IHv
                 |t Hi Hm Hlen|t protoType Hi Hm Hp|t Hi Hm Hp|m Hi|k Hi];
    simpl; intros Hn.
  - destruct (IHv Hn) as [->|(m & Ht & ->)]; [auto|]. right. exists m.
    split; [|reflexivity].
    eapply touches_argument; [|exact Hargs|right; reflexivity|exact Ht].
    unfold isMapNode. rewrite Hi, Hm. reflexivity.
  - apply list_elem_of_singleton in Hn. auto.
  - rewrite (getProperty_refs _ _ Hp) in Hn. set_solver.
  - apply list_elem_of_singleton in Hn. auto.
  - apply list_elem_of_singleton in Hn as ->. right. exists m.
    split; [apply touches_model; exact Hi|reflexivity].
  - apply list_elem_of_singleton in Hn. auto.
Qed.

Lemma needed_refersBy program namespace m m' :
  needed program namespace m -> refersBy program m m' ->
  needed program namespace m'.
Proof.
  intros (iface & op & root & Hi & Ho & Hu & Hreach) Hr.
  exists iface, op, root. repeat (split; [assumption|]).
  eapply rtc_r; eassumption.
Qed.

Lemma mirrors_field program m message f :
  mirrors program m message -> f ∈ messageFields message ->
  exists property,
    In property (model_properties (deref program m)) /\
    fieldOf program property f.
Proof.
  intros (fields & -> & Hfields) Hf.
  unfold messageFields in Hf. simpl in Hf.
  assert (Hf' : f ∈ fields).
  { clear -Hf. induction fields as [|g fields IH]; simpl in Hf; [set_solver|].
    apply elem_of_cons in Hf as [->|Hf]; [left|right; auto]. }
  apply list_elem_of_lookup in Hf' as [j Hj].
  destruct (Forall2_lookup_r _ _ _ _ _ Hfields Hj) as (property & Hp & Hof).
  exists property. split; [|exact Hof].
  apply list_elem_of_In. eapply list_elem_of_lookup_2, Hp.
Qed.

(** A field of a message of a file of the pass is the field of a property
    of a model that the file needs. *)
Lemma file_field program fuel namespace diags decls diags' message f :
  declarationsFromNamespace program fuel namespace diags
    = Some (decls, diags') ->
  message ∈ fileMessages decls -> f ∈ messageFields message ->
  exists m property,
    needed program namespace m /\
    In property (model_properties (deref program m)) /\
    fieldOf program property f.
Proof.
  intros Hd Hmsg Hf.
  apply declarationsFromNamespace_messages in Hd as ((L & _ & HL & Hm) & _).
  apply list_elem_of_lookup in Hmsg as [i Hi].
  destruct (Forall2_lookup_r _ _ _ _ _ Hm Hi) as (m & Hmi & Hmirror).
  destruct (mirrors_field _ _ _ _ Hmirror Hf) as (property & Hp & Hof).
  exists m, property. split; [|auto].
  apply HL. eapply list_elem_of_lookup_2, Hmi.
Qed.

(** X1. The messages of a file.  With enough fuel the pass returns, and
    the messages of the file of each package are, one for one, the models
    that the file needs: those that an operation of a service of the
    package takes or returns and those they refer to through properties
    and the arguments of maps, each once and no other.  The message of a
    model bears its name and has one field for each property, in the
    order of the properties, with the property's name, the index recorded
    for it (none, if none was) and the wire type of its type. *)
Theorem file_messages_mirror_needed_models (program : Program)
    (rk : nat -> nat) (fuel : nat) :
  ranked program rk = true ->
  enoughFuel program rk <= fuel ->
  exists files diags,
    cadlToProto program fuel = Some (files, diags) /\
    Forall2
      (fun entry file =>
         exists L : list nat,
           NoDup L /\
           (forall m, m ∈ L <-> needed program (fst entry) m) /\
           Forall2 (mirrors program) L
             (fileMessages (file_declarations file)))
      (packages program) files.
Proof.
  intros Hranked Hfuel.
  destruct (cadlToProto_files program rk fuel Hranked Hfuel)
    as (files & diags & E & Hall).
  exists files, diags. split; [exact E|].
  eapply Forall2_impl; [exact Hall|].
  intros entry file (_ & _ & d & d' & Hd & _).
  apply declarationsFromNamespace_messages in Hd as [HL _]. exact HL.
Qed.

(** X2. No reference of a field dangles.  With enough fuel the pass
    returns, and in each of its files every name that the type of a field
    of a message refers to, at once or as the value of a map, is the name
    of a message of the same file, or the placeholder. *)
Theorem field_references_are_declared (program : Program)
    (rk : nat -> nat) (fuel : nat) :
  ranked program rk = true ->
  enoughFuel program rk <= fuel ->
  exists files diags,
    cadlToProto program fuel = Some (files, diags) /\
    forall file message f n,
      file ∈ files ->
      message ∈ fileMessages (file_declarations file) ->
      f ∈ messageFields message ->
      n ∈ refsIn (field_type f) ->
      n = unreachable \/
      exists message',
        message' ∈ fileMessages (file_declarations file) /\
        message_name message' = n.
Proof.
  intros Hranked Hfuel.
  destruct (cadlToProto_files program rk fuel Hranked Hfuel)
    as (files & diags & E & Hall).
  exists files, diags. split; [exact E|].
  intros file message f n Hfile Hmsg Hf Hn.
  apply list_elem_of_lookup in Hfile as [k Hk].
  destruct (Forall2_lookup_r _ _ _ _ _ Hall Hk)
    as (entry & _ & _ & _ & d & d' & Hd & _).
  destruct (file_field _ _ _ _ _ _ _ _ Hd Hmsg Hf)
    as (m & property & Hneeded & Hp & type & Hw & ->).
  simpl in Hn.
  destruct (wireType_refs _ _ _ _ Hw Hn) as [->|(m' & Ht & ->)]; [auto|].
  right.
  assert (Hneeded' : needed program (fst entry) m').
  { apply needed_refersBy with (m := m); [exact Hneeded|].
    exists property. auto. }
  apply declarationsFromNamespace_messages in Hd as ((L & _ & HL & Hm) & _).
  apply HL in Hneeded'. apply list_elem_of_lookup in Hneeded' as [i' Hi'].
  destruct (Forall2_lookup_l _ _ _ _ _ Hm Hi')
    as (message' & Hmsg' & fields' & -> & _).
  exists (Build_ProtoMessageDeclaration (modelName program m')
            (List.map MemberField fields') None).
  split; [eapply list_elem_of_lookup_2, Hmsg'|reflexivity].
Qed.

(** X3. The wire type that [addType] returns for a type is fixed by the
    program: it is the same whatever was visited, declared or reported
    before the call, and whatever the depth left for the recursion. *)
Theorem wire_type_fixed (program : Program) (fuel1 fuel2 : nat)
    (t : CadlType) (st1 st2 : Lowering) (r1 r2 : ProtoType)
    (st1' st2' : Lowering) :
  addType program fuel1 t st1 = Some (r1, st1') ->
  addType program fuel2 t st2 = Some (r2, st2') ->
  r1 = r2.
Proof.
  intros H1 H2. apply addType_added in H1 as [H1 _], H2 as [H2 _].
  eapply wireType_functional; eassumption.
Qed.
(** ** Types that the writer can match *)

Lemma plain_index1 type : plain type = true -> exists k, index1 type = Some k.
Proof.
  destruct type as [s|n|[k|] v|member]; simpl; try discriminate; eauto.
Qed.

Lemma plain_matchType {T : Type} type (pat : ProtoTypeMatchPattern T) :
  plain type = true -> exists r, matchType type pat = Matched r.
Proof.
  destruct type as [s|n|k v|member]; simpl; try discriminate; eauto.
Qed.

Lemma wireType_plain program t r :
  intrinsicNamesOwn program -> wireType program t r -> plain r = true.
Proof.
  intros Hown.
  induction 1 as [t keyType valueType rest keyProto value Hi Hm Hargs _ IHk _ IHv
                 |t Hi Hm Hlen|t protoType Hi Hm Hp|t Hi Hm Hp|m Hi|k Hi];
    try reflexivity.
  - destruct (plain_index1 _ IHk) as [k ->]. exact IHv.
  - unfold getProperty in Hp.
    destruct (ownProperty protoTypeTable _) as [value|] eqn:E.
    + injection Hp as <-. apply protoTypeTable_scalar in E as [s ->].
      reflexivity.
    + rewrite (Hown t Hi) in Hp. discriminate.
Qed.

(** X4. What the writer is handed.  If no intrinsic of the program bears
    the name of a member of [Object.prototype], then with enough fuel the
    pass returns, and the type of every field of every message of its
    files is a scalar, a reference or a map with a key, down through the
    values of maps; [matchType] finds a case for it and does not throw. *)
Theorem field_types_match (program : Program) (rk : nat -> nat)
    (fuel : nat) :
  intrinsicNamesOwn program ->
  ranked program rk = true ->
  enoughFuel program rk <= fuel ->
  exists files diags,
    cadlToProto program fuel = Some (files, diags) /\
    forall file message f,
      file ∈ files ->
      message ∈ fileMessages (file_declarations file) ->
      f ∈ messageFields message ->
      plain (field_type f) = true /\
      forall (T : Type) (pat : ProtoTypeMatchPattern T),
        exists r, matchType (field_type f) pat = Matched r.
Proof.
  intros Hown Hranked Hfuel.
  destruct (cadlToProto_files program rk fuel Hranked Hfuel)
    as (files & diags & E & Hall).
  exists files, diags. split; [exact E|].
  intros file message f Hfile Hmsg Hf.
  apply list_elem_of_lookup in Hfile as [k Hk].
  destruct (Forall2_lookup_r _ _ _ _ _ Hall Hk)
    as (entry & _ & _ & _ & d & d' & Hd & _).
  destruct (file_field _ _ _ _ _ _ _ _ Hd Hmsg Hf)
    as (m & property & _ & _ & type & Hw & ->).
  simpl. pose proof (wireType_plain _ _ _ Hown Hw) as Hplain.
  split; [exact Hplain|]. intros T pat. apply plain_matchType, Hplain.
Qed.

(** ** The diagnostics of the pass *)

Lemma filesOfPackages_owes program fuel entries : forall diags files diags',
  filesOfPackages program fuel entries diags = Some (files, diags') ->
  exists ds,
    diags' = diags ++ ds /\
    forall d, d ∈ ds ->
      exists entry, entry ∈ entries /\ fileOwes program (fst entry) d.
Proof.
  induction entries as [|[namespace packageName] entries IH];
    intros diags files diags' H; simpl in H.
  - injection H as <- <-. exists []. rewrite app_nil_r.
    split; [reflexivity|set_solver].
  - destruct (declarationsFromNamespace program fuel namespace diags)
      as [[decls d1]|] eqn:E1; [|discriminate].
    destruct (filesOfPackages program fuel entries d1)
      as [[rest d2]|] eqn:E2; [|discriminate].
    injection H as <- <-.
    apply IH in E2 as (ds2 & -> & H2).
    apply declarationsFromNamespace_messages in E1
      as (_ & (ds1 & -> & H1) & _).
    exists (ds1 ++ ds2). split; [rewrite app_assoc; reflexivity|].
    intros d Hd. apply elem_of_app in Hd as [Hd|Hd].
    + exists (namespace, packageName). split; [left|apply H1, Hd].
    + destruct (H2 d Hd) as (entry & He & Ho). exists entry.
      split; [right; exact He|exact Ho].
Qed.

Lemma owed_is_returned program rk fuel files diags entry d :
  ranked program rk = true ->
  enoughFuel program rk <= fuel ->
  cadlToProto program fuel = Some (files, diags) ->
  entry ∈ packages program ->
  fileOwes program (fst entry) d ->
  d ∈ diags.
Proof.
  intros Hranked Hfuel E Hentry Hd.
  destruct (cadlToProto_files program rk fuel Hranked Hfuel)
    as (files' & diags' & E' & Hall).
  rewrite E in E'. injection E' as <- <-.
  apply list_elem_of_lookup in Hentry as [i Hi].
  destruct (Forall2_lookup_l _ _ _ _ _ Hall Hi)
    as (file & _ & _ & _ & d0 & d' & Hd0 & _ & [rest ->]).
  apply declarationsFromNamespace_messages in Hd0 as (_ & _ & Hin).
  apply elem_of_app. left. apply Hin, Hd.
Qed.

(** X5. The diagnostics of the pass.  With enough fuel the pass returns
    the diagnostics the program had, in their order, followed by
    diagnostics each of which is owed by the file of a package: by an
    operation of one of its collected services ([wrong-number],
    [wrong-type], [unsupported-return-type]) or by the type of a property
    of a model the file needs ([unconvertible], [unknown-intrinsic], also
    through the arguments of maps).  And every diagnostic so owed is among
    those returned. *)
Theorem diagnostics_are_what_files_owe (program : Program)
    (rk : nat -> nat) (fuel : nat) :
  ranked program rk = true ->
  enoughFuel program rk <= fuel ->
  exists files diags ds,
    cadlToProto program fuel = Some (files, diags) /\
    diags = diagnostics program ++ ds /\
    (forall d, d ∈ ds ->
       exists entry,
         entry ∈ packages program /\ fileOwes program (fst entry) d) /\
    (forall entry d,
       entry ∈ packages program -> fileOwes program (fst entry) d ->
       d ∈ diags).
Proof.
  intros Hranked Hfuel.
  destruct (cadlToProto_files program rk fuel Hranked Hfuel)
    as (files & diags & E & _).
  pose proof E as E'. unfold cadlToProto in E'.
  apply filesOfPackages_owes in E' as (ds & Hds & Howed).
  exists files, diags, ds. split; [exact E|]. split; [exact Hds|].
  split; [exact Howed|].
  intros entry d. apply (owed_is_returned program rk fuel files); assumption.
Qed.

(** ** Programs that lower without a diagnostic *)





(** ** All files or none *)




(** ** The set of service interfaces *)

Lemma setAdd_NoDup acc iface :
  NoDup (List.map interface_id acc) ->
  NoDup (List.map interface_id (setAdd acc iface)).
Proof.
  intros Hnd. unfold setAdd.
  destruct (existsb _ acc) eqn:E; [exact Hnd|].
  rewrite List.map_app. apply NoDup_app. split; [exact Hnd|]. split.
  - intros id Hin Hid. simpl in Hid. apply list_elem_of_singleton in Hid as ->.
    apply list_elem_of_fmap in Hin as (x & Hx & Hin).
    assert (Hex : existsb (fun i => interface_id i =? interface_id iface) acc
                  = true).
    { apply existsb_exists. exists x.
      split; [apply list_elem_of_In, Hin|]. apply Nat.eqb_eq. auto. }
    congruence.
  - simpl. apply NoDup_singleton.
Qed.

Lemma addServices_NoDup program interfaces : forall acc,
  NoDup (List.map interface_id acc) ->
  NoDup (List.map interface_id (addServices program interfaces acc)).
Proof.
  unfold addServices.
  induction interfaces as [|iface interfaces IH]; intros acc Hnd; simpl.
  - exact Hnd.
  - apply IH. destruct (decide _); [apply setAdd_NoDup|]; exact Hnd.
Qed.

Lemma scan_NoDup program namespace : forall acc,
  NoDup (List.map interface_id acc) ->
  NoDup (List.map interface_id (recursiveAddInterfaces program namespace acc)).
Proof.
  induction namespace as [id name interfaces namespaces IH]
    using NamespaceType_tree_ind.
  intros acc Hnd. rewrite recursiveAddInterfaces_unfold.
  pose proof (addServices_NoDup program interfaces acc Hnd) as Hnd'.
  revert Hnd'. generalize (addServices program interfaces acc).
  induction IH as [|nested rest Hnested _ IHrest]; intros acc' Hnd'; simpl.
  - exact Hnd'.
  - apply IHrest. destruct (isPackage program nested); [exact Hnd'|].
    apply Hnested, Hnd'.
Qed.

(** X8. Each service once.  With enough fuel the pass returns, and the
    services of the file of each package are those of interfaces with
    distinct identities, each marked as a service and reached by the scan
    of the package's namespace: no interface gets two service
    declarations in a file, even if the namespaces hold it more than
    once. *)
Theorem services_are_declared_once (program : Program) (rk : nat -> nat)
    (fuel : nat) :
  ranked program rk = true ->
  enoughFuel program rk <= fuel ->
  exists files diags,
    cadlToProto program fuel = Some (files, diags) /\
    Forall2
      (fun entry file =>
         exists ifaces,
           fileServices (file_declarations file)
             = List.map (serviceOf program) ifaces /\
           NoDup (List.map interface_id ifaces) /\
           forall iface, iface ∈ ifaces ->
             scanned program (fst entry) iface /\
             interface_id iface ∈ services program)
      (packages program) files.
Proof.
  intros Hranked Hfuel.
  destruct (cadlToProto_files program rk fuel Hranked Hfuel)
    as (files & diags & E & Hall).
  exists files, diags. split; [exact E|].
  eapply Forall2_impl; [exact Hall|].
  intros entry file (_ & _ & d & d' & Hd & _).
  apply declarationsFromNamespace_spec in Hd as (Hsrv & _).
  exists (recursiveAddInterfaces program (fst entry) []).
  split; [exact Hsrv|]. split.
  - apply scan_NoDup. constructor.
  - intros iface Hin. apply scan_elem in Hin as [Hin|Hin]; [inversion Hin|].
    exact Hin.
Qed.

(** ** The indices of the fields *)

(** X9. Field numbers stay valid.  Let every index recorded so far be a
    positive integer, at most 2^29-1.  After a call of [$field] that
    returns, whatever the validators of the host said and whatever index
    it was given, this still holds; and with enough fuel the pass returns
    for the program so decorated, and the index of every field of every
    message of its files, where one is set, is such a number. *)
Theorem field_indices_stay_valid
    (validateDecoratorTarget :
       Program -> DecoratorTarget -> string -> string -> bool)
    (validateDecoratorParamType :
       Program -> DecoratorTarget -> number -> string -> bool)
    (program : Program) (target : DecoratorTarget) (fieldIndex : number)
    (program' : Program) (rk : nat -> nat) (fuel : nat) :
  validIndices program ->
  field validateDecoratorTarget validateDecoratorParamType
    program target fieldIndex = Returned program' ->
  ranked program' rk = true ->
  enoughFuel program' rk <= fuel ->
  validIndices program' /\
  exists files diags,
    cadlToProto program' fuel = Some (files, diags) /\
    forall file message f i,
      file ∈ files ->
      message ∈ fileMessages (file_declarations file) ->
      f ∈ messageFields message ->
      field_index f = Some i ->
      Number_isInteger i = true /\ (0 < i)%Q /\ (i <= MAX_FIELD_INDEX)%Q.
Proof.
  intros Hvalid Hrun Hranked Hfuel.
  assert (Hvalid' : validIndices program').
  { unfold field in Hrun.
    destruct (negb _ || negb _); [injection Hrun as <-; exact Hvalid|].
    destruct (negb (Number_isInteger fieldIndex) || number_le fieldIndex 0%Q)
      eqn:E1; [injection Hrun as <-; exact Hvalid|].
    destruct (number_gt fieldIndex MAX_FIELD_INDEX) eqn:E2;
      [injection Hrun as <-; exact Hvalid|].
    destruct (target_parent target) as [[|name]|]; try discriminate.
    injection Hrun as <-.
    apply orb_false_iff in E1 as [Hint Hpos].
    apply negb_false_iff in Hint.
    assert (Hpos' : (0 < fieldIndex)%Q).
    { apply Qnot_le_lt. intros Hle. apply number_le_spec in Hle. congruence. }
    assert (Hmax : (fieldIndex <= MAX_FIELD_INDEX)%Q).
    { apply Qnot_lt_le. intros Hlt. apply number_gt_spec in Hlt. congruence. }
    intros key i.
    destruct (number_le _ _ && number_le _ _); simpl;
      (destruct (decide (key = target_id target)) as [->|Hne];
       [rewrite lookup_insert_eq; intros [= <-]; auto
       |rewrite lookup_insert_ne by congruence; apply Hvalid]). }
  split; [exact Hvalid'|].
  destruct (cadlToProto_files program' rk fuel Hranked Hfuel)
    as (files & diags & E & Hall).
  exists files, diags. split; [exact E|].
  intros file message f i Hfile Hmsg Hf Hi.
  apply list_elem_of_lookup in Hfile as [k Hk].
  destruct (Forall2_lookup_r _ _ _ _ _ Hall Hk)
    as (entry & _ & _ & _ & d & d' & Hd & _).
  destruct (file_field _ _ _ _ _ _ _ _ Hd Hmsg Hf)
    as (m & property & _ & _ & type & _ & ->).
  simpl in Hi. eapply Hvalid', Hi.
Qed.

(** ** The decorators and the pass *)

Lemma setPackage_length entries target name :
  length (setPackage entries target name)
  = length entries
    + (if existsb (fun entry =>
                     namespace_id (fst entry) =? namespace_id target) entries
       then 0 else 1).
Proof.
  unfold setPackage. destruct (existsb _ entries).
  - rewrite length_map. lia.
  - rewrite length_app. reflexivity.
Qed.

Lemma setPackage_elem entries target name :
  exists key,
    (key, name) ∈ setPackage entries target name /\
    namespace_id key = namespace_id target /\
    (existsb (fun entry => namespace_id (fst entry) =? namespace_id target)
             entries = false -> key = target).
Proof.
  unfold setPackage.
  destruct (existsb _ entries) eqn:E.
  - apply existsb_exists in E as ([key old] & Hin & Hid). simpl in Hid.
    exists key. split; [|split; [apply Nat.eqb_eq, Hid|discriminate]].
    apply list_elem_of_fmap. exists (key, old). simpl. rewrite Hid.
    split; [reflexivity|apply list_elem_of_In, Hin].
  - exists target. split; [|auto].
    apply elem_of_app. right. left.
Qed.

Lemma setPackage_others entries target name key other :
  (key, other) ∈ entries ->
  namespace_id key <> namespace_id target ->
  (key, other) ∈ setPackage entries target name.
Proof.
  intros Hin Hne. unfold setPackage. destruct (existsb _ entries).
  - apply list_elem_of_fmap. exists (key, other). simpl.
    apply Nat.eqb_neq in Hne. rewrite Hne. auto.
  - apply elem_of_app. auto.
Qed.

(** X10. [@package] makes a file.  When the validators of the host accept
    the namespace and the name, then with enough fuel the pass on the
    decorated program returns a file with this package name, whose
    services are those that the scan of the namespace collects; the
    packages that other namespaces were declared keep their entries; and
    there is one file more than packages before, or as many if the
    namespace was a package already: decorating it again replaces its
    name. *)
Theorem package_decorator_makes_a_file
    (validateDecoratorTarget :
       Program -> NamespaceType -> string -> string -> bool)
    (validateDecoratorParamType :
       Program -> NamespaceType -> string -> string -> bool)
    (program : Program) (target : NamespaceType) (name : string)
    (rk : nat -> nat) (fuel : nat) :
  validateDecoratorTarget program target "@package" "Namespace" = true ->
  validateDecoratorParamType program target name "String" = true ->
  ranked program rk = true ->
  enoughFuel program rk <= fuel ->
  exists files diags file key,
    cadlToProto
      (package validateDecoratorTarget validateDecoratorParamType
         program target name) fuel = Some (files, diags) /\
    length files
      = length (packages program)
        + (if isPackage program target then 0 else 1) /\
    file ∈ files /\
    file_package file = Some name /\
    namespace_id key = namespace_id target /\
    (isPackage program target = false -> key = target) /\
    fileServices (file_declarations file)
      = List.map (serviceOf (withPackage program target name))
          (recursiveAddInterfaces (withPackage program target name) key []) /\
    forall other otherName,
      (other, otherName) ∈ packages program ->
      namespace_id other <> namespace_id target ->
      (other, otherName) ∈ packages (withPackage program target name).
Proof.
  intros Ht Hp Hranked Hfuel. unfold package. rewrite Ht, Hp. simpl.
  set (program' := withPackage program target name).
  assert (Hranked' : ranked program' rk = true) by exact Hranked.
  assert (Hfuel' : enoughFuel program' rk <= fuel) by exact Hfuel.
  destruct (setPackage_elem (packages program) target name)
    as (key & Hkey & Hid & Hnew).
  destruct (cadlToProto_file program' rk fuel (key, name) Hranked' Hfuel' Hkey)
    as (files & diags & file & E & Hfile & Hpkg & _ & d & d' & Hd & _).
  destruct (filesOfPackages_returns program' rk fuel Hranked' Hfuel'
              (packages program') (diagnostics program'))
    as (files' & diags' & E' & Hlen).
  fold (cadlToProto program' fuel) in E'. rewrite E in E'.
  injection E' as <- <-.
  exists files, diags, file, key. split; [exact E|]. split.
  { rewrite Hlen. apply setPackage_length. }
  split; [exact Hfile|]. split; [exact Hpkg|]. split; [exact Hid|].
  split; [exact Hnew|]. split.
  - apply declarationsFromNamespace_spec in Hd as (Hsrv & _). exact Hsrv.
  - intros other otherName Hin Hne. simpl.
    apply setPackage_others; assumption.
Qed.

Lemma scanned_packages program program' namespace iface :
  packages program' = packages program ->
  scanned program namespace iface -> scanned program' namespace iface.
Proof.
  intros Hp. induction 1 as [ns iface Hin|ns nested iface Hn Hnot _ IH].
  - apply scanned_member, Hin.
  - eapply scanned_nested; [exact Hn| |exact IH].
    unfold isPackage in *. rewrite Hp. exact Hnot.
Qed.

(** X11. [@service] makes a service.  Let the interfaces below the
    namespace of a package be distinct objects.  When the validator of
    the host accepts an interface that is a member of this namespace, or
    of one nested in it with no package in between, then with enough fuel
    the pass on the decorated program returns, and the file of the
    package declares the service of the interface: its name and a method
    for each of its operations. *)
Theorem service_decorator_makes_a_service
    (validateDecoratorTarget :
       Program -> InterfaceType -> string -> string -> bool)
    (program : Program) (target : InterfaceType)
    (namespace : NamespaceType) (packageName : string)
    (rk : nat -> nat) (fuel : nat) :
  validateDecoratorTarget program target "@service" "Interface" = true ->
  NoDup (List.map interface_id (allInterfaces namespace)) ->
  (namespace, packageName) ∈ packages program ->
  scanned program namespace target ->
  ranked program rk = true ->
  enoughFuel program rk <= fuel ->
  exists files diags file,
    cadlToProto (service validateDecoratorTarget program target) fuel
      = Some (files, diags) /\
    file ∈ files /\
    file_package file = Some packageName /\
    serviceOf program target ∈ fileServices (file_declarations file).
Proof.
  intros Ht Hnd Hentry Hscan Hranked Hfuel. unfold service. rewrite Ht. simpl.
  set (program' := withService program target).
  assert (Hranked' : ranked program' rk = true) by exact Hranked.
  assert (Hfuel' : enoughFuel program' rk <= fuel) by exact Hfuel.
  assert (Hentry' : (namespace, packageName) ∈ packages program')
    by exact Hentry.
  destruct (cadlToProto_file program' rk fuel _ Hranked' Hfuel' Hentry')
    as (files & diags & file & E & Hfile & Hpkg & _ & d & d' & Hd & _).
  exists files, diags, file. split; [exact E|]. split; [exact Hfile|].
  split; [exact Hpkg|].
  apply declarationsFromNamespace_spec in Hd as (Hsrv & _). simpl in Hsrv.
  rewrite Hsrv. apply list_elem_of_fmap. exists target.
  split; [reflexivity|].
  apply (scan_exact program' namespace Hnd). split.
  - eapply scanned_packages; [|exact Hscan]. reflexivity.
  - simpl. set_solver.
Qed.

(** ** The further properties on the example graphs *)



Lemma exProgram_names_own : intrinsicNamesOwn exProgram.
Proof.
  intros t _. simpl. destruct t as [m|k]; [|reflexivity].
  do 6 (destruct m as [|m]; [reflexivity|]). reflexivity.
Qed.

Lemma exProgram_indices : validIndices exProgram.
Proof.
  intros key i H. simpl in H.
  repeat (apply lookup_insert_Some in H as [[_ <-]|[_ H]];
          [repeat split; try reflexivity; intros C; discriminate C|]).
  apply lookup_singleton_Some in H as [_ <-].
  repeat split; try reflexivity. intros C. discriminate C.
Qed.

Lemma file_messages_mirror_needed_models_witness :
  exists files diags,
    cadlToProto exProgram 16 = Some (files, diags) /\
    Forall2
      (fun entry file =>
         exists L : list nat,
           NoDup L /\
           (forall m, m ∈ L <-> needed exProgram (fst entry) m) /\
           Forall2 (mirrors exProgram) L
             (fileMessages (file_declarations file)))
      (packages exProgram) files.
Proof.
  exact (file_messages_mirror_needed_models exProgram exRank 16
           exProgram_ranked exProgram_fuel).
Defined.

Lemma field_references_are_declared_witness :
  exists files diags,
    cadlToProto exProgram 16 = Some (files, diags) /\
    forall file message f n,
      file ∈ files ->
      message ∈ fileMessages (file_declarations file) ->
      f ∈ messageFields message ->
      n ∈ refsIn (field_type f) ->
      n = unreachable \/
      exists message',
        message' ∈ fileMessages (file_declarations file) /\
        message_name message' = n.
Proof.
  exact (field_references_are_declared exProgram exRank 16
           exProgram_ranked exProgram_fuel).
Defined.

Lemma wire_type_fixed_witness :
  exists r,
    (exists st', addType exProgram 16 (Model 5) exStart = Some (r, st')) /\
    (exists st', addType exProgram 2 (Model 5) exSeen = Some (r, st')).
Proof.
  destruct (addType exProgram 16 (Model 5) exStart) as [[r1 st1]|] eqn:E1;
    [|vm_compute in E1; discriminate E1].
  destruct (addType exProgram 2 (Model 5) exSeen) as [[r2 st2]|] eqn:E2;
    [|vm_compute in E2; discriminate E2].
  exists r1. split; [eauto|].
  rewrite (wire_type_fixed exProgram 16 2 (Model 5) exStart exSeen r1 r2
             st1 st2 E1 E2).
  eauto.
Defined.

Lemma field_types_match_witness :
  intrinsicNamesOwn exProgram /\
  exists files diags,
    cadlToProto exProgram 16 = Some (files, diags) /\
    forall file message f,
      file ∈ files ->
      message ∈ fileMessages (file_declarations file) ->
      f ∈ messageFields message ->
      plain (field_type f) = true /\
      forall (T : Type) (pat : ProtoTypeMatchPattern T),
        exists r, matchType (field_type f) pat = Matched r.
Proof.
  split; [exact exProgram_names_own|].
  exact (field_types_match exProgram exRank 16 exProgram_names_own
           exProgram_ranked exProgram_fuel).
Defined.

Lemma diagnostics_are_what_files_owe_witness :
  exists files diags ds,
    cadlToProto exProgram 16 = Some (files, diags) /\
    diags = diagnostics exProgram ++ ds /\
    (forall d, d ∈ ds ->
       exists entry,
         entry ∈ packages exProgram /\ fileOwes exProgram (fst entry) d) /\
    (forall entry d,
       entry ∈ packages exProgram -> fileOwes exProgram (fst entry) d ->
       d ∈ diags).
Proof.
  exact (diagnostics_are_what_files_owe exProgram exRank 16
           exProgram_ranked exProgram_fuel).
Defined.



Lemma services_are_declared_once_witness :
  exists files diags,
    cadlToProto exProgram 16 = Some (files, diags) /\
    Forall2
      (fun entry file =>
         exists ifaces,
           fileServices (file_declarations file)
             = List.map (serviceOf exProgram) ifaces /\
           NoDup (List.map interface_id ifaces) /\
           forall iface, iface ∈ ifaces ->
             scanned exProgram (fst entry) iface /\
             interface_id iface ∈ services exProgram)
      (packages exProgram) files.
Proof.
  exact (services_are_declared_once exProgram exRank 16
           exProgram_ranked exProgram_fuel).
Defined.

Lemma field_indices_stay_valid_witness :
  validIndices exProgram /\
  validIndices (setFieldIndex exProgram 12 (inject_Z 7)) /\
  exists files diags,
    cadlToProto (setFieldIndex exProgram 12 (inject_Z 7)) 16
      = Some (files, diags) /\
    forall file message f i,
      file ∈ files ->
      message ∈ fileMessages (file_declarations file) ->
      f ∈ messageFields message ->
      field_index f = Some i ->
      Number_isInteger i = true /\ (0 < i)%Q /\ (i <= MAX_FIELD_INDEX)%Q.
Proof.
  split; [exact exProgram_indices|].
  apply (field_indices_stay_valid (fun _ _ _ _ => true) (fun _ _ _ _ => true)
           exProgram exTarget (inject_Z 7) _ exRank 16 exProgram_indices).
  - reflexivity.
  - vm_compute. reflexivity.
  - vm_compute. lia.
Defined.

Lemma package_decorator_makes_a_file_witness :
  exists files diags file,
    cadlToProto
      (package (fun _ _ _ _ => true) (fun _ _ _ _ => true)
         exGreeterNoPackage exGreeterNamespace "com.azure.greeter") 16
      = Some (files, diags) /\
    length files = 1 /\
    file ∈ files /\
    file_package file = Some "com.azure.greeter" /\
    fileServices (file_declarations file)
      = [serviceOf exGreeterNoPackage exGreeterInterface].
Proof.
  destruct (package_decorator_makes_a_file
              (fun _ _ _ _ => true) (fun _ _ _ _ => true)
              exGreeterNoPackage exGreeterNamespace "com.azure.greeter"
              exRank 16)
    as (files & diags & file & key & E & Hlen & Hfile & Hp & _ & Hkey & Hsrv
        & _);
    [reflexivity|reflexivity|vm_compute; reflexivity|vm_compute; lia|].
  exists files, diags, file. split; [exact E|]. split; [exact Hlen|].
  split; [exact Hfile|]. split; [exact Hp|].
  rewrite Hsrv, (Hkey eq_refl). reflexivity.
Defined.

Lemma service_decorator_makes_a_service_witness :
  exists files diags file,
    cadlToProto
      (service (fun _ _ _ _ => true) exGreeterNoService exGreeterInterface) 16
      = Some (files, diags) /\
    file ∈ files /\
    file_package file = Some "com.azure.greeter" /\
    serviceOf exGreeterNoService exGreeterInterface
      ∈ fileServices (file_declarations file).
Proof.
  apply (service_decorator_makes_a_service (fun _ _ _ _ => true)
           exGreeterNoService exGreeterInterface exGreeterNamespace
           "com.azure.greeter" exRank 16).
  - reflexivity.
  - apply (bool_decide_unpack _). vm_compute. reflexivity.
  - in_list.
  - apply scanned_member. in_list.
  - vm_compute. reflexivity.
  - vm_compute. lia.
Defined.
